(** * Spillover-network core: graph algorithms and ForceAtlas2 layout

    A shallow embedding of [graph-algorithms.ts] (symmetric adjacency
    builder, Louvain community detection, Brandes betweenness centrality,
    edge list builder), of [force-atlas2.ts] (one layout iteration) and of
    the part of the [NetworkGraph] component that calls them (the graph
    effect with its animation loop, and the view transform), followed by
    the properties established for them.

    Numbers.  A JavaScript [number] is modelled by an exact number: a
    rational ([Q]) in the graph algorithms, which only add, subtract,
    multiply, divide and compare, and a real ([R]) in the layout engine,
    which also takes square roots.  Rounding, NaN and the infinities are
    outside the model.

    Arrays.  A JavaScript array is a list; [a[i] = v] is stdpp's list
    insert and a read [a[i]] is the total lookup [a !!! i].  Every read
    and write of the embedded functions happens at an index below the
    array's length as soon as the matrix handed in is [n] by [n]; the
    theorems carry that assumption where they need it. *)

From Stdlib Require Import QArith Qminmax Qreals Reals Lra Lia.
From stdpp Require Import base option list gmap strings.

(** [for (let i = lo; i < hi; i++) s = body(i, s)] *)
Definition for_range {State : Type} (lo hi : nat) (body : nat → State → State)
    (s : State) : State :=
  foldl (λ s i, body i s) s (seq lo (hi - lo)).

(* ===================================================================== *)
(** * graph-algorithms.ts *)
(* ===================================================================== *)
Module GraphAlgorithms.

#[export] Instance Q_inhabited : Inhabited Q := populate 0%Q.

Local Open Scope Q_scope.

(** [a < b] on numbers. *)
Definition Qlt_bool (a b : Q) : bool := negb (Qle_bool b a).

(** [adj[i][j]] *)
Definition get (adj : list (list Q)) (i j : nat) : Q := (adj !!! i) !!! j.

(** [adj[i][j] = v] *)
Definition set_entry (adj : list (list Q)) (i j : nat) (v : Q) : list (list Q) :=
  alter (λ row, <[j := v]> row) i adj.

(** [adj[i][j]] as a partial read: [None] outside the matrix. *)
Definition entry (adj : list (list Q)) (i j : nat) : option Q :=
  adj !! i ≫= λ row, row !! j.

(** The matrix is [n] by [n]. *)
Definition is_square (n : nat) (adj : list (list Q)) : Prop :=
  length adj = n ∧ Forall (λ row, length row = n) adj.

(** [matrix[a]?.[b] ?? 0] *)
Definition directed_weight (matrix : gmap string (gmap string Q)) (a b : string) : Q :=
  default 0 (matrix !! a ≫= λ row, row !! b).

(** ** 1. buildSymmetricAdjacency *)

(** Body of the inner loop, lines 32-37. *)
Definition sym_step (matrix : gmap string (gmap string Q)) (countries : list string)
    (row : gmap string Q) (ci : string) (i j : nat) (adj : list (list Q))
    : list (list Q) :=
  let cj := countries !!! j in
  let forward := default 0 (row !! cj) in
  let backward := directed_weight matrix cj ci in
  let sym := Qmax forward backward in
  set_entry (set_entry adj i j sym) j i sym.

(** Body of the outer loop, lines 28-38; a code without a row is skipped. *)
Definition sym_row (matrix : gmap string (gmap string Q)) (countries : list string)
    (n i : nat) (adj : list (list Q)) : list (list Q) :=
  let ci := countries !!! i in
  match matrix !! ci with
  | None => adj
  | Some row => for_range (i + 1) n (sym_step matrix countries row ci i) adj
  end.

Definition buildSymmetricAdjacency (matrix : gmap string (gmap string Q))
    (countries : list string) : list (list Q) :=
  let n := length countries in
  let adj := replicate n (replicate n 0) in
  for_range 0 n (sym_row matrix countries n) adj.

(** ** 2. louvainCommunities *)

(** A JavaScript [Map] keeps its keys in insertion order: an association
    list, where [set] overwrites in place or appends. *)
Fixpoint map_get {V : Type} (m : list (nat * V)) (k : nat) : option V :=
  match m with
  | [] => None
  | (k', v) :: m' => if decide (k' = k) then Some v else map_get m' k
  end.

Fixpoint map_set {V : Type} (m : list (nat * V)) (k : nat) (v : V) : list (nat * V) :=
  match m with
  | [] => [(k, v)]
  | (k', v') :: m' =>
      if decide (k' = k) then (k, v) :: m' else (k', v') :: map_set m' k v
  end.

(** Lines 49-54. *)
Definition totalWeight (adj : list (list Q)) (n : nat) : Q :=
  for_range 0 n (λ i tw, for_range (i + 1) n (λ j tw, tw + get adj i j) tw) 0.

(** Lines 62-67. *)
Definition degrees (adj : list (list Q)) (n : nat) : list Q :=
  for_range 0 n
    (λ i degree, for_range 0 n (λ j degree, alter (λ d, d + get adj i j) i degree) degree)
    (replicate n 0).

Record louvain_state := LouvainState {
  community : list nat;
  sigmaIn : list Q;
  sigmaTot : list Q;
  moved : bool
}.

(** Lines 85-91. *)
Definition neighbor_comms (adj : list (list Q)) (n : nat) (community : list nat)
    (i : nat) : list (nat * Q) :=
  for_range 0 n
    (λ j nc,
       if Qlt_bool 0 (get adj i j) && negb (i =? j)%nat then
         let c := community !!! j in
         map_set nc c (default 0 (map_get nc c) + get adj i j)
       else nc)
    [].

(** Lines 100-110: scan of the neighbouring communities. *)
Definition best_comm (sigmaTot : list Q) (ki m2 : Q) (currentComm : nat)
    (nc : list (nat * Q)) : nat * Q :=
  foldl
    (λ (best : nat * Q) (e : nat * Q),
       let delta := e.2 - (sigmaTot !!! e.1) * ki / m2 in
       if Qlt_bool best.2 delta then (e.1, delta) else best)
    (currentComm, 0) nc.

(** Lines 82-119: the visit of node [i]. *)
Definition louvain_node (adj : list (list Q)) (n : nat) (degree : list Q) (m2 : Q)
    (i : nat) (st : louvain_state) : louvain_state :=
  let currentComm := community st !!! i in
  let nc := neighbor_comms adj n (community st) i in
  let ki := degree !!! i in
  let kiIn := default 0 (map_get nc currentComm) in
  let sigmaTot1 := alter (λ x, x - ki) currentComm (sigmaTot st) in
  let sigmaIn1 := alter (λ x, x - 2 * kiIn) currentComm (sigmaIn st) in
  let bestComm := (best_comm sigmaTot1 ki m2 currentComm nc).1 in
  let kiBest := default 0 (map_get nc bestComm) in
  {| community := <[i := bestComm]> (community st);
     sigmaIn := alter (λ x, x + 2 * kiBest) bestComm sigmaIn1;
     sigmaTot := alter (λ x, x + ki) bestComm sigmaTot1;
     moved := if decide (bestComm = currentComm) then moved st else true |}.

(** Lines 78-123: at most [iters] passes, stopping after a pass without a move. *)
Fixpoint louvain_passes (adj : list (list Q)) (n : nat) (degree : list Q) (m2 : Q)
    (iters : nat) (st : louvain_state) : louvain_state :=
  match iters with
  | O => st
  | S iters' =>
      let st' :=
        for_range 0 n (louvain_node adj n degree m2)
          {| community := community st; sigmaIn := sigmaIn st;
             sigmaTot := sigmaTot st; moved := false |} in
      if moved st' then louvain_passes adj n degree m2 iters' st' else st'
  end.

Definition MAX_ITERATIONS : nat := 15.

(** [[...new Set(community)]]: the distinct values, in order of first occurrence. *)
Definition unique (l : list nat) : list nat :=
  foldl (λ acc c, if decide (c ∈ acc) then acc else acc ++ [c]) [] l.

(** [new Map(uniqueComms.map((c, i) => [c, i]))] *)
Definition make_remap (uniqueComms : list nat) : gmap nat nat :=
  foldl (λ (m : gmap nat nat) (e : nat * nat), <[e.1 := e.2]> m) ∅
        (imap (λ i c, (c, i)) uniqueComms).

(** Lines 126-128.  [remap.get(c)!] is read with a default; the key is
    always present (lemma [renumber_defined] below). *)
Definition renumber (community : list nat) : list nat :=
  let uniqueComms := unique community in
  let remap := make_remap uniqueComms in
  (λ c, default 0%nat (remap !! c)) <$> community.

Definition louvainCommunities (adj : list (list Q)) (n : nat) : list nat :=
  let totalWeight := totalWeight adj n in
  if Qeq_bool totalWeight 0 then (λ i, i mod 4)%nat <$> seq 0 n
  else
    let m2 := totalWeight * 2 in
    let degree := degrees adj n in
    let st :=
      louvain_passes adj n degree m2 MAX_ITERATIONS
        {| community := seq 0 n; sigmaIn := replicate n 0;
           sigmaTot := degree; moved := false |} in
    renumber (community st).

(** ** 3. betweennessCentrality *)

Record bfs_state := BfsState {
  stack : list nat;
  predecessors : list (list nat);
  sigma : list Q;
  dist : list Z;
  queue : list nat
}.

(** Lines 159-171: the look at neighbour [w] of the dequeued node [v]. *)
Definition bfs_edge (adj : list (list Q)) (threshold : Q) (v w : nat)
    (st : bfs_state) : bfs_state :=
  if Qlt_bool (get adj v w) threshold || (v =? w)%nat then st
  else
    let st1 :=
      if (dist st !!! w <? 0)%Z then
        {| stack := stack st; predecessors := predecessors st; sigma := sigma st;
           dist := <[w := (dist st !!! v + 1)%Z]> (dist st);
           queue := queue st ++ [w] |}
      else st in
    if (dist st1 !!! w =? dist st1 !!! v + 1)%Z then
      {| stack := stack st1;
         predecessors := alter (λ p, p ++ [v]) w (predecessors st1);
         sigma := alter (λ x, x + sigma st1 !!! v) w (sigma st1);
         dist := dist st1; queue := queue st1 |}
    else st1.

(** Lines 154-173: the traversal.  Each round dequeues one node, so [fuel]
    bounds the number of rounds; [None] when it runs out with a node still
    queued. *)
Fixpoint bfs (adj : list (list Q)) (n : nat) (threshold : Q) (fuel : nat)
    (st : bfs_state) : option bfs_state :=
  match queue st with
  | [] => Some st
  | v :: q =>
      match fuel with
      | O => None
      | S fuel' =>
          bfs adj n threshold fuel'
            (for_range 0 n (bfs_edge adj threshold v)
               {| stack := stack st ++ [v]; predecessors := predecessors st;
                  sigma := sigma st; dist := dist st; queue := q |})
      end
  end.

(** Lines 177-183: the node [w] popped off the stack. *)
Definition back_step (s : nat) (preds : list (list nat)) (sigma : list Q)
    (acc : list Q * list Q) (w : nat) : list Q * list Q :=
  let delta :=
    foldl (λ delta v,
             alter (λ x, x + (sigma !!! v / sigma !!! w) * (1 + delta !!! w)) v delta)
          acc.2 (preds !!! w) in
  let bc := if decide (w = s) then acc.1 else alter (λ x, x + delta !!! w) w acc.1 in
  (bc, delta).

(** Lines 143-184: one source. *)
Definition brandes_source (adj : list (list Q)) (n : nat) (threshold : Q)
    (s : nat) (bc : list Q) : option (list Q) :=
  st ← bfs adj n threshold n
         {| stack := []; predecessors := replicate n [];
            sigma := <[s := 1]> (replicate n 0);
            dist := <[s := 0%Z]> (replicate n (-1)%Z);
            queue := [s] |};
  Some (foldl (back_step s (predecessors st) (sigma st))
              (bc, replicate n 0) (reverse (stack st))).1.

(** Lines 139-185: the raw scores. *)
Definition brandes_raw (adj : list (list Q)) (n : nat) (threshold : Q)
    : option (list Q) :=
  for_range 0 n (λ s bc, bc ≫= brandes_source adj n threshold s)
            (Some (replicate n 0)).

(** [Math.max(...bc, 1e-10)] *)
Definition max_bc (bc : list Q) : Q := foldr Qmax (1 # 10000000000) bc.

Definition betweennessCentrality (adj : list (list Q)) (n : nat) (threshold : Q)
    : option (list Q) :=
  bc ← brandes_raw adj n threshold;
  let maxBC := max_bc bc in
  Some ((λ v, v / maxBC) <$> bc).

(** ** 4. buildEdgeList *)

Record GraphEdge := mkGraphEdge {
  source : nat;
  target : nat;
  sourceCode : string;
  targetCode : string;
  weight : Q;
  normalizedWeight : Q
}.

(** Lines 211-218; the state is [(rawEdges, maxWeight)]. *)
Definition raw_step (matrix : gmap string (gmap string Q)) (countries : list string)
    (minWeight : Q) (row : gmap string Q) (ci : string) (i j : nat)
    (acc : list (nat * nat * Q) * Q) : list (nat * nat * Q) * Q :=
  let cj := countries !!! j in
  let forward := default 0 (row !! cj) in
  let backward := directed_weight matrix cj ci in
  let w := Qmax forward backward in
  if Qle_bool minWeight w then (acc.1 ++ [(i, j, w)], Qmax acc.2 w) else acc.

(** Lines 206-220. *)
Definition raw_edges (matrix : gmap string (gmap string Q)) (countries : list string)
    (minWeight : Q) : list (nat * nat * Q) * Q :=
  let n := length countries in
  for_range 0 n
    (λ i acc,
       let ci := countries !!! i in
       match matrix !! ci with
       | None => acc
       | Some row => for_range (i + 1) n (raw_step matrix countries minWeight row ci i) acc
       end)
    ([], 0).

Definition buildEdgeList (matrix : gmap string (gmap string Q))
    (countries : list string) (minWeight : Q) : list GraphEdge :=
  let '(rawEdges, maxWeight) := raw_edges matrix countries minWeight in
  (λ e : nat * nat * Q,
     let '(i, j, w) := e in
     {| source := i; target := j;
        sourceCode := countries !!! i; targetCode := countries !!! j;
        weight := w;
        normalizedWeight := if Qlt_bool 0 maxWeight then w / maxWeight else 0 |})
  <$> rawEdges.

End GraphAlgorithms.

(* ===================================================================== *)
(** * force-atlas2.ts *)
(* ===================================================================== *)
Module ForceAtlas2.

Local Open Scope R_scope.

Record FA2Node := mkFA2Node {
  x : R;
  y : R;
  dx : R;
  dy : R;
  oldDx : R;
  oldDy : R;
  mass : R;
  convergence : R
}.

#[export] Instance FA2Node_inhabited : Inhabited FA2Node :=
  populate (mkFA2Node 0 0 0 0 0 0 0 0).

Record FA2Edge := mkFA2Edge {
  source : nat;
  target : nat;
  weight : R
}.

Record FA2Config := mkFA2Config {
  scalingRatio : R;
  gravity : R;
  edgeWeightInfluence : R;
  linLogMode : bool;
  strongGravity : bool;
  outboundAttractionDistribution : bool;
  slowingRatio : R;
  jitterTolerance : R
}.

(** [Partial<FA2Config>]: every field may be left out. *)
Record PartialConfig := mkPartialConfig {
  p_scalingRatio : option R;
  p_gravity : option R;
  p_edgeWeightInfluence : option R;
  p_linLogMode : option bool;
  p_strongGravity : option bool;
  p_outboundAttractionDistribution : option bool;
  p_slowingRatio : option R;
  p_jitterTolerance : option R
}.

Definition DEFAULT_CONFIG : FA2Config :=
  {| scalingRatio := 10; gravity := 1; edgeWeightInfluence := 1;
     linLogMode := true; strongGravity := false;
     outboundAttractionDistribution := false;
     slowingRatio := 2; jitterTolerance := 1 |}.

(** The empty object [{}], the default of the [config] argument. *)
Definition no_overrides : PartialConfig :=
  mkPartialConfig None None None None None None None None.

(** [{ ...DEFAULT_CONFIG, ...config }] *)
Definition merge_config (config : PartialConfig) : FA2Config :=
  {| scalingRatio := default (scalingRatio DEFAULT_CONFIG) (p_scalingRatio config);
     gravity := default (gravity DEFAULT_CONFIG) (p_gravity config);
     edgeWeightInfluence :=
       default (edgeWeightInfluence DEFAULT_CONFIG) (p_edgeWeightInfluence config);
     linLogMode := default (linLogMode DEFAULT_CONFIG) (p_linLogMode config);
     strongGravity := default (strongGravity DEFAULT_CONFIG) (p_strongGravity config);
     outboundAttractionDistribution :=
       default (outboundAttractionDistribution DEFAULT_CONFIG)
               (p_outboundAttractionDistribution config);
     slowingRatio := default (slowingRatio DEFAULT_CONFIG) (p_slowingRatio config);
     jitterTolerance := default (jitterTolerance DEFAULT_CONFIG) (p_jitterTolerance config) |}.

(** [degrees[i] || 0]: a missing or zero degree counts as 0. *)
Definition createFA2Nodes (positions : list (R * R)) (degrees : list R) : list FA2Node :=
  imap (λ i pos,
          {| x := pos.1; y := pos.2; dx := 0; dy := 0; oldDx := 0; oldDy := 0;
             mass := default 0 (degrees !! i) + 1; convergence := 1 |})
       positions.

(** Field updates of a node object. *)
Definition add_force (fx fy : R) (nd : FA2Node) : FA2Node :=
  {| x := x nd; y := y nd; dx := dx nd + fx; dy := dy nd + fy;
     oldDx := oldDx nd; oldDy := oldDy nd; mass := mass nd;
     convergence := convergence nd |}.

Definition sub_force (fx fy : R) (nd : FA2Node) : FA2Node :=
  {| x := x nd; y := y nd; dx := dx nd - fx; dy := dy nd - fy;
     oldDx := oldDx nd; oldDy := oldDy nd; mass := mass nd;
     convergence := convergence nd |}.

Definition set_pos (x' y' : R) (nd : FA2Node) : FA2Node :=
  {| x := x'; y := y'; dx := dx nd; dy := dy nd;
     oldDx := oldDx nd; oldDy := oldDy nd; mass := mass nd;
     convergence := convergence nd |}.

Definition set_convergence (c : R) (nd : FA2Node) : FA2Node :=
  {| x := x nd; y := y nd; dx := dx nd; dy := dy nd;
     oldDx := oldDx nd; oldDy := oldDy nd; mass := mass nd;
     convergence := c |}.

(** [for (let i = 0; i < n; i++) nodes[i] = f(nodes[i])] *)
Definition for_each_node (f : FA2Node → FA2Node) (nodes : list FA2Node) : list FA2Node :=
  for_range 0 (length nodes) (λ i nodes, alter f i nodes) nodes.

(** Lines 79-87.  The quotient [frame / totalFrames] is the code's for
    [totalFrames ≠ 0]; with [totalFrames = 0] the code gets [NaN] or an
    infinity for [progress], which is outside the model. *)
Definition phaseMultiplier (frame totalFrames : R) : R :=
  let progress := frame / totalFrames in
  if Rlt_dec progress 0.2 then 2
  else if Rlt_dec progress 0.67 then 1
  else 0.3 + 0.7 * (1 - (progress - 0.67) / 0.33).

(** Lines 90-95. *)
Definition reset_node (nd : FA2Node) : FA2Node :=
  {| x := x nd; y := y nd; dx := 0; dy := 0;
     oldDx := dx nd; oldDy := dy nd; mass := mass nd;
     convergence := convergence nd |}.

(** [Math.sqrt(dx * dx + dy * dy) || 0.01]: a zero distance is replaced. *)
Definition floor_dist (dx dy : R) : R :=
  let d := sqrt (dx * dx + dy * dy) in
  if Req_dec_T d 0 then 0.01 else d.

(** The three distances used as divisors, lines 103, 123 and 153. *)
Definition repulsion_dist (ni nj : FA2Node) : R :=
  floor_dist (x nj - x ni) (y nj - y ni).

Definition attraction_dist (s t : FA2Node) : R :=
  floor_dist (x t - x s) (y t - y s).

Definition cx : R := 500.
Definition cy : R := 300.

Definition gravity_dist (ni : FA2Node) : R :=
  floor_dist (x ni - cx) (y ni - cy).

(** Lines 101-113: repulsion between nodes [i] and [j]. *)
Definition repulse (scaling : R) (i j : nat) (nodes : list FA2Node) : list FA2Node :=
  let ni := nodes !!! i in
  let nj := nodes !!! j in
  let dx := x nj - x ni in
  let dy := y nj - y ni in
  let dist := repulsion_dist ni nj in
  let force := scaling * mass ni * mass nj / dist in
  let fx := (dx / dist) * force in
  let fy := (dy / dist) * force in
  alter (add_force fx fy) j (alter (sub_force fx fy) i nodes).

(** Lines 99-115. *)
Definition repulsion (scaling : R) (nodes : list FA2Node) : list FA2Node :=
  let n := length nodes in
  for_range 0 n (λ i nodes, for_range (i + 1) n (repulse scaling i) nodes) nodes.

Section WithMath.

(** [Math.log] and [Math.pow] are left abstract. *)
Variable Math_log : R → R.
Variable Math_pow : R → R → R.

(** Lines 119-144: one edge.  [nodes[edge.source]] outside the array is
  [undefined], and reading its [x] throws: [None]. *)
Definition attract (cfg : FA2Config) (nodes : list FA2Node) (edge : FA2Edge)
  : option (list FA2Node) :=
s ← nodes !! source edge;
t ← nodes !! target edge;
let dx := x t - x s in
let dy := y t - y s in
let dist := attraction_dist s t in
let force0 :=
  if linLogMode cfg
  then Math_log (1 + dist) * Math_pow (weight edge) (edgeWeightInfluence cfg)
  else dist * Math_pow (weight edge) (edgeWeightInfluence cfg) in
let force := if outboundAttractionDistribution cfg then force0 / mass s else force0 in
let fx := (dx / dist) * force in
let fy := (dy / dist) * force in
Some (alter (sub_force fx fy) (target edge)
        (alter (add_force fx fy) (source edge) nodes)).

(** Lines 118-145. *)
Definition attraction (cfg : FA2Config) (edges : list FA2Edge) (nodes : list FA2Node)
  : option (list FA2Node) :=
foldl (λ acc edge, acc ≫= λ nodes, attract cfg nodes edge) (Some nodes) edges.

(** Lines 151-163. *)
Definition gravity_node (cfg : FA2Config) (pm : R) (nd : FA2Node) : FA2Node :=
let dx := x nd - cx in
let dy := y nd - cy in
let dist := gravity_dist nd in
let gravForce :=
  if strongGravity cfg then gravity cfg * mass nd
  else gravity cfg * mass nd / dist in
sub_force ((dx / dist) * gravForce * pm) ((dy / dist) * gravForce * pm) nd.

(** Lines 171-178. *)
Definition swinging (nd : FA2Node) : R :=
sqrt ((dx nd - oldDx nd) ^ 2 + (dy nd - oldDy nd) ^ 2).

Definition effectiveTraction (nd : FA2Node) : R :=
sqrt ((dx nd + oldDx nd) ^ 2 + (dy nd + oldDy nd) ^ 2) / 2.

(** Lines 184-187. *)
Definition node_convergence (cfg : FA2Config) (nd : FA2Node) : R :=
Rmin 1 (jitterTolerance cfg * jitterTolerance cfg * effectiveTraction nd
        / (swinging nd + 0.01)).

(** Lines 170-188; the state is [(nodes, totalSwing, totalEffectiveTraction)]. *)
Definition adaptive_step (cfg : FA2Config) (i : nat)
  (st : list FA2Node * R * R) : list FA2Node * R * R :=
let '(nodes, totalSwing, totalEffectiveTraction) := st in
let nd := nodes !!! i in
(alter (set_convergence (node_convergence cfg nd)) i nodes,
 totalSwing + mass nd * swinging nd,
 totalEffectiveTraction + mass nd * effectiveTraction nd).

Definition adaptive_speed (cfg : FA2Config) (nodes : list FA2Node)
  : list FA2Node * R * R :=
for_range 0 (length nodes) (adaptive_step cfg) (nodes, 0, 0).

(** Lines 197-208. *)
Definition displace_node (cfg : FA2Config) (clampedSpeed : R) (nd : FA2Node) : FA2Node :=
let displacement := sqrt (dx nd ^ 2 + dy nd ^ 2) in
if Rle_dec displacement 0 then nd
else
  let nodeSpeed := clampedSpeed * convergence nd / slowingRatio cfg in
  let maxDisplacement := nodeSpeed * displacement in
  let limitedSpeed := Rmin maxDisplacement 10 / displacement in
  set_pos (x nd + dx nd * limitedSpeed) (y nd + dy nd * limitedSpeed) nd.

Definition minSeparation : R := 65.

(** Lines 215-226: overlap correction of the pair [i], [j]. *)
Definition separate (i j : nat) (nodes : list FA2Node) : list FA2Node :=
let ni := nodes !!! i in
let nj := nodes !!! j in
let dx := x nj - x ni in
let dy := y nj - y ni in
let dist := sqrt (dx * dx + dy * dy) in
if Rlt_dec dist minSeparation then
  if Rlt_dec 0.01 dist then
    let push := (minSeparation - dist) * 0.5 in
    let ux := (dx / dist) * push in
    let uy := (dy / dist) * push in
    alter (λ nd, set_pos (x nd + ux) (y nd + uy) nd) j
      (alter (λ nd, set_pos (x nd - ux) (y nd - uy) nd) i nodes)
  else nodes
else nodes.

(** Lines 213-228. *)
Definition overlap_correction (nodes : list FA2Node) : list FA2Node :=
let n := length nodes in
for_range 0 n (λ i nodes, for_range (i + 1) n (separate i) nodes) nodes.

Definition margin : R := 60.
Definition maxX : R := 940.
Definition maxY : R := 540.
Definition boundsForce : R := 0.6.

(** Lines 237-240; each test reads the coordinate left by the one before. *)
Definition bound_node (nd : FA2Node) : FA2Node :=
let x1 := if Rlt_dec (x nd) margin then x nd + (margin - x nd) * boundsForce else x nd in
let x2 := if Rlt_dec maxX x1 then x1 - (x1 - maxX) * boundsForce else x1 in
let y1 := if Rlt_dec (y nd) margin then y nd + (margin - y nd) * boundsForce else y nd in
let y2 := if Rlt_dec maxY y1 then y1 - (y1 - maxY) * boundsForce else y1 in
set_pos x2 y2 nd.

(** Lines 89-164: reset, repulsion, attraction and gravity; the force
  accumulators of the frame. *)
Definition forces (cfg : FA2Config) (pm : R) (nodes : list FA2Node)
  (edges : list FA2Edge) : option (list FA2Node) :=
let nodes1 := for_each_node reset_node nodes in
let nodes2 := repulsion (scalingRatio cfg * pm) nodes1 in
nodes3 ← attraction cfg edges nodes2;
Some (for_each_node (gravity_node cfg pm) nodes3).

(** Lines 166-241: adaptive speed, displacement, overlap correction, bounds. *)
Definition move (cfg : FA2Config) (nodes : list FA2Node) : list FA2Node :=
let '(nodes5, totalSwing, totalEffectiveTraction) := adaptive_speed cfg nodes in
let globalSpeed :=
  jitterTolerance cfg * jitterTolerance cfg * totalEffectiveTraction
  / (totalSwing + 0.01) in
let clampedSpeed := Rmin globalSpeed 10 in
let nodes6 := for_each_node (displace_node cfg clampedSpeed) nodes5 in
let nodes7 := overlap_correction nodes6 in
for_each_node bound_node nodes7.

(** The node array is mutated in place; the model returns its final
  contents, [None] when an edge names a node outside the array. *)
Definition fa2Iterate (nodes : list FA2Node) (edges : list FA2Edge)
  (config : PartialConfig) (frame totalFrames : R) : option (list FA2Node) :=
let cfg := merge_config config in
let pm := phaseMultiplier frame totalFrames in
nodes4 ← forces cfg pm nodes edges;
Some (move cfg nodes4).

End WithMath.

(** ** The force computations with every division checked

    The computations of lines 97-164 once more, statement by statement,
    with each [/] of the source going through [checked_div]: the run
    stops with [DivisionByZero] at the first zero divisor, and with
    [Throws] where the source reads a field of [undefined]. *)

Inductive outcome (A : Type) : Type :=
  | Done (a : A)
  | Throws
  | DivisionByZero.

Arguments Done {A} a.
Arguments Throws {A}.
Arguments DivisionByZero {A}.

#[export] Instance outcome_bind : MBind outcome := λ A B f m,
  match m with
  | Done a => f a
  | Throws => Throws
  | DivisionByZero => DivisionByZero
  end.

(** The result of an unchecked computation read as an outcome: its [None]
    is the throw. *)
Definition of_option {A : Type} (m : option A) : outcome A :=
  match m with
  | Some a => Done a
  | None => Throws
  end.

(** [a / b] *)
Definition checked_div (a b : R) : outcome R :=
  if Req_dec_T b 0 then DivisionByZero else Done (a / b).

(** [nodes[i]], whose fields are read next. *)
Definition node_at (nodes : list FA2Node) (i : nat) : outcome FA2Node :=
  match nodes !! i with
  | Some nd => Done nd
  | None => Throws
  end.

(** Lines 101-113. *)
Definition repulse_checked (scaling : R) (i j : nat) (nodes : list FA2Node)
    : outcome (list FA2Node) :=
  let ni := nodes !!! i in
  let nj := nodes !!! j in
  let dx := x nj - x ni in
  let dy := y nj - y ni in
  let dist := repulsion_dist ni nj in
  force ← checked_div (scaling * mass ni * mass nj) dist;
  ux ← checked_div dx dist;
  let fx := ux * force in
  uy ← checked_div dy dist;
  let fy := uy * force in
  Done (alter (add_force fx fy) j (alter (sub_force fx fy) i nodes)).

(** Lines 99-115. *)
Definition repulsion_checked (scaling : R) (nodes : list FA2Node)
    : outcome (list FA2Node) :=
  let n := length nodes in
  for_range 0 n
    (λ i acc, for_range (i + 1) n (λ j acc, acc ≫= repulse_checked scaling i j) acc)
    (Done nodes).

Section CheckedWithMath.

Variable Math_log : R → R.
Variable Math_pow : R → R → R.

(** Lines 119-144. *)
Definition attract_checked (cfg : FA2Config) (nodes : list FA2Node) (edge : FA2Edge)
  : outcome (list FA2Node) :=
s ← node_at nodes (source edge);
t ← node_at nodes (target edge);
let dx := x t - x s in
let dy := y t - y s in
let dist := attraction_dist s t in
let force0 :=
  if linLogMode cfg
  then Math_log (1 + dist) * Math_pow (weight edge) (edgeWeightInfluence cfg)
  else dist * Math_pow (weight edge) (edgeWeightInfluence cfg) in
force ← (if outboundAttractionDistribution cfg then checked_div force0 (mass s)
         else Done force0);
ux ← checked_div dx dist;
let fx := ux * force in
uy ← checked_div dy dist;
let fy := uy * force in
Done (alter (sub_force fx fy) (target edge)
        (alter (add_force fx fy) (source edge) nodes)).

(** Lines 118-145. *)
Definition attraction_checked (cfg : FA2Config) (edges : list FA2Edge)
  (nodes : list FA2Node) : outcome (list FA2Node) :=
foldl (λ acc edge, acc ≫= λ nodes, attract_checked cfg nodes edge) (Done nodes) edges.

(** Lines 151-163. *)
Definition gravity_node_checked (cfg : FA2Config) (pm : R) (nd : FA2Node)
  : outcome FA2Node :=
let dx := x nd - cx in
let dy := y nd - cy in
let dist := gravity_dist nd in
gravForce ← (if strongGravity cfg then Done (gravity cfg * mass nd)
             else checked_div (gravity cfg * mass nd) dist);
ux ← checked_div dx dist;
uy ← checked_div dy dist;
Done (sub_force (ux * gravForce * pm) (uy * gravForce * pm) nd).

(** Lines 150-164. *)
Definition gravity_checked (cfg : FA2Config) (pm : R) (nodes : list FA2Node)
  : outcome (list FA2Node) :=
for_range 0 (length nodes)
  (λ i acc, nodes ← acc;
            nd ← gravity_node_checked cfg pm (nodes !!! i);
            Done (<[i := nd]> nodes))
  (Done nodes).

(** Lines 89-164, as [forces]. *)
Definition forces_checked (cfg : FA2Config) (pm : R) (nodes : list FA2Node)
  (edges : list FA2Edge) : outcome (list FA2Node) :=
let nodes1 := for_each_node reset_node nodes in
nodes2 ← repulsion_checked (scalingRatio cfg * pm) nodes1;
nodes3 ← attraction_checked cfg edges nodes2;
gravity_checked cfg pm nodes3.

End CheckedWithMath.

End ForceAtlas2.

(* ===================================================================== *)
(** * NetworkGraph.tsx: graph computation, animation loop, view transform *)
(* ===================================================================== *)
Module NetworkGraph.

Local Open Scope string_scope.
Local Open Scope R_scope.

(** The table of initial positions, [code: { x, y, region }]. *)
Definition INITIAL_POSITIONS : list (string * (R * R * string)) :=
  [
    ("USA", (180, 250, "Americas"));
    ("CAN", (150, 160, "Americas"));
    ("MEX", (120, 350, "Americas"));
    ("BRA", (250, 440, "Americas"));
    ("ARG", (200, 510, "Americas"));
    ("GBR", (400, 140, "Europe"));
    ("DEU", (490, 180, "Europe"));
    ("FRA", (430, 250, "Europe"));
    ("ITA", (510, 310, "Europe"));
    ("ESP", (380, 330, "Europe"));
    ("NLD", (460, 110, "Europe"));
    ("BEL", (420, 190, "Europe"));
    ("CHE", (480, 260, "Europe"));
    ("POL", (560, 160, "Europe"));
    ("SWE", (520, 80, "Europe"));
    ("TUR", (600, 350, "Europe"));
    ("RUS", (640, 110, "Europe"));
    ("CHN", (760, 270, "Asia"));
    ("JPN", (880, 200, "Asia"));
    ("KOR", (840, 280, "Asia"));
    ("IND", (700, 380, "Asia"));
    ("IDN", (800, 440, "Asia"));
    ("THA", (760, 400, "Asia"));
    ("SAU", (620, 420, "MiddleEast"));
    ("AUS", (880, 500, "Oceania"));
    ("ZAF", (500, 490, "Africa"))
  ].

(** [INITIAL_POSITIONS[c]] for a code [c]: the entry of the table, if any.
    Properties the object inherits from its prototype are outside the
    model. *)
Definition initial_position (c : string) : option (R * R * string) :=
  snd <$> List.find (λ p, bool_decide (p.1 = c)) INITIAL_POSITIONS.

Definition TOTAL_FRAMES : nat := 300.
Definition FLUSH_INTERVAL : nat := 3.

(** [Object.keys(spilloverMatrix).filter(c => INITIAL_POSITIONS[c])]; the
    keys come in as a list, in the order of the object. *)
Definition country_list (keys : list string) : list string :=
  filter (λ c, is_Some (initial_position c)) keys.

(** [countryList.map(c => ({ x: pos?.x ?? 500, y: pos?.y ?? 300 }))] *)
Definition init_positions (countryList : list string) : list (R * R) :=
  (λ c, let pos := initial_position c in
        (default 500 ((λ p, p.1.1) <$> pos), default 300 ((λ p, p.1.2) <$> pos)))
  <$> countryList.

(** [degrees[edge.source]++; degrees[edge.target]++] over the edge list. *)
Definition count_degrees (n : nat) (edgeList : list GraphAlgorithms.GraphEdge) : list nat :=
  foldl (λ degrees edge,
           alter S (GraphAlgorithms.target edge)
             (alter S (GraphAlgorithms.source edge) degrees))
        (replicate n 0%nat) edgeList.

(** [edgeList.map(e => ({ source, target, weight: e.normalizedWeight }))] *)
Definition fa2_edges (edgeList : list GraphAlgorithms.GraphEdge) : list ForceAtlas2.FA2Edge :=
  (λ e, ForceAtlas2.mkFA2Edge (GraphAlgorithms.source e) (GraphAlgorithms.target e)
                              (Q2R (GraphAlgorithms.normalizedWeight e)))
  <$> edgeList.

(** The nodes and edges the effect hands to the layout; [None] when the
    effect returns before, no code of the matrix having a position. *)
Definition layout_input (matrix : gmap string (gmap string Q)) (keys : list string)
    : option (list ForceAtlas2.FA2Node * list ForceAtlas2.FA2Edge) :=
  let countryList := country_list keys in
  if (length countryList =? 0)%nat then None
  else
    let edgeList := GraphAlgorithms.buildEdgeList matrix countryList (5 # 1000) in
    let degrees := count_degrees (length countryList) edgeList in
    Some (ForceAtlas2.createFA2Nodes (init_positions countryList) (INR <$> degrees),
          fa2_edges edgeList).

(** The overrides passed by [animate]. *)
Definition LAYOUT_CONFIG : ForceAtlas2.PartialConfig :=
  ForceAtlas2.mkPartialConfig (Some 50) (Some 2.5) None (Some true) None None
                              (Some 1.5) (Some 1).

(** The animation state: [animRef.current], the published [nodePositions],
    [layoutReady], and whether another frame has been requested. *)
Record anim_state := AnimState {
  nodes : list ForceAtlas2.FA2Node;
  frame : nat;
  nodePositions : list (R * R);
  layoutReady : bool;
  requested : bool
}.

Section Animate.
Variable Math_log : R → R.
Variable Math_pow : R → R → R.

(** One call of [animate]; [None] when [fa2Iterate] throws. *)
Definition animate (fa2Edges : list ForceAtlas2.FA2Edge) (st : anim_state)
    : option anim_state :=
  if (TOTAL_FRAMES <=? frame st)%nat then
    Some {| nodes := nodes st; frame := frame st; nodePositions := nodePositions st;
            layoutReady := true; requested := false |}
  else
    nodes' ← ForceAtlas2.fa2Iterate Math_log Math_pow (nodes st) fa2Edges LAYOUT_CONFIG
               (INR (frame st)) (INR TOTAL_FRAMES);
    let frame' := S (frame st) in
    let flush := (frame' mod FLUSH_INTERVAL =? 0)%nat || (TOTAL_FRAMES <=? frame')%nat in
    Some {| nodes := nodes'; frame := frame';
            nodePositions :=
              if flush then (λ n, (ForceAtlas2.x n, ForceAtlas2.y n)) <$> nodes'
              else nodePositions st;
            layoutReady := if (TOTAL_FRAMES <=? frame')%nat then true else layoutReady st;
            requested := negb (TOTAL_FRAMES <=? frame')%nat |}.

(** The frames run by the scheduler: [animate] is called again as long as
    it has requested another frame, at most [calls] times. *)
Fixpoint run_frames (fa2Edges : list ForceAtlas2.FA2Edge) (calls : nat) (st : anim_state)
    : option anim_state :=
  match calls with
  | O => Some st
  | S calls' =>
      if requested st then animate fa2Edges st ≫= run_frames fa2Edges calls'
      else Some st
  end.

End Animate.

(** The state set up by the effect before the first frame is requested. *)
Definition start_state (fa2Nodes : list ForceAtlas2.FA2Node) (initPositions : list (R * R))
    : anim_state :=
  {| nodes := fa2Nodes; frame := 0; nodePositions := initPositions;
     layoutReady := false; requested := true |}.

(** ** View transform *)

Record Transform := mkTransform {
  t_x : R;
  t_y : R;
  scale : R
}.

(** [useState({ x: 0, y: 0, scale: 1 })] *)
Definition initial_transform : Transform := {| t_x := 0; t_y := 0; scale := 1 |}.

(** [handleWheel]: [transform] is the value captured by the handler,
    [prev] the state the update is applied to; [mouseX], [mouseY] are the
    cursor coordinates relative to the SVG. *)
Definition handleWheel (transform prev : Transform) (deltaY mouseX mouseY : R) : Transform :=
  let delta := if Rlt_dec 0 deltaY then 0.9 else 1.1 in
  let newScale := Rmin (Rmax (scale transform * delta) 0.5) 3 in
  {| scale := newScale;
     t_x := mouseX - (mouseX - t_x prev) * (newScale / scale prev);
     t_y := mouseY - (mouseY - t_y prev) * (newScale / scale prev) |}.

(** The [+] and [−] buttons and [resetView]. *)
Definition zoomIn (prev : Transform) : Transform :=
  {| t_x := t_x prev; t_y := t_y prev; scale := Rmin (scale prev * 1.2) 3 |}.

Definition zoomOut (prev : Transform) : Transform :=
  {| t_x := t_x prev; t_y := t_y prev; scale := Rmax (scale prev / 1.2) 0.5 |}.

Definition resetView : Transform := {| t_x := 0; t_y := 0; scale := 1 |}.

(** Panning in [handleMouseMove]: the background is being dragged. *)
Definition pan (prev : Transform) (dragStart : R * R) (clientX clientY : R) : Transform :=
  {| t_x := clientX - dragStart.1; t_y := clientY - dragStart.2; scale := scale prev |}.

(** What can happen to the view. *)
Inductive view_event :=
  | Wheel (deltaY mouseX mouseY : R)
  | ZoomIn
  | ZoomOut
  | ResetView
  | Pan (dragStart : R * R) (clientX clientY : R).

Definition view_step (t : Transform) (e : view_event) : Transform :=
  match e with
  | Wheel deltaY mouseX mouseY => handleWheel t t deltaY mouseX mouseY
  | ZoomIn => zoomIn t
  | ZoomOut => zoomOut t
  | ResetView => resetView
  | Pan dragStart clientX clientY => pan t dragStart clientX clientY
  end.

End NetworkGraph.

(* ===================================================================== *)
(** * Loops *)
(* ===================================================================== *)
Section ForRange.
Context {State : Type}.
Implicit Types (body : nat → State → State) (s : State).

Lemma for_range_empty lo hi body s : hi ≤ lo → for_range lo hi body s = s.
Proof.
  intros H. unfold for_range. by replace (hi - lo) with 0 by lia.
Qed.

Lemma for_range_last lo hi body s :
  lo ≤ hi → for_range lo (S hi) body s = body hi (for_range lo hi body s).
Proof.
  intros H. unfold for_range.
  replace (S hi - lo) with (S (hi - lo)) by lia.
  rewrite seq_S, foldl_snoc. do 2 f_equal. lia.
Qed.

(** Loop invariant rule: [P i s] holds of the state before iteration [i]. *)
Lemma for_range_inv (P : nat → State → Prop) lo hi body s :
  lo ≤ hi →
  P lo s →
  (∀ i s, lo ≤ i < hi → P i s → P (S i) (body i s)) →
  P hi (for_range lo hi body s).
Proof.
  intros Hle H0 Hstep. induction hi as [|hi IH].
  - replace lo with 0 in * by lia. by rewrite for_range_empty.
  - destruct (decide (lo = S hi)) as [->|Hne].
    + by rewrite for_range_empty.
    + rewrite for_range_last by lia. apply Hstep; [lia|].
      apply IH; [lia|]. intros i s' Hi. apply Hstep. lia.
Qed.

Lemma for_range_ext lo hi body body' s :
  (∀ i s, lo ≤ i < hi → body i s = body' i s) →
  for_range lo hi body s = for_range lo hi body' s.
Proof.
  intros Hext.
  destruct (decide (lo ≤ hi)) as [Hle|Hgt];
    [|by rewrite !for_range_empty by lia].
  apply (for_range_inv (λ i s', s' = for_range lo i body' s)); [done| |].
  - by rewrite for_range_empty.
  - intros i s' Hi ->. rewrite for_range_last by lia. by apply Hext.
Qed.
End ForRange.

(* ===================================================================== *)
(** * Properties of graph-algorithms.ts *)
(* ===================================================================== *)
Module GraphFacts.
Import GraphAlgorithms.
Local Open Scope Q_scope.

(** ** Matrices *)

Lemma set_entry_square n adj i j v :
  is_square n adj → is_square n (set_entry adj i j v).
Proof.
  intros [Hlen Hrows]. split.
  - unfold set_entry. by rewrite length_alter.
  - unfold set_entry. apply Forall_alter; [done|].
    intros row _ Hrow. by rewrite length_insert.
Qed.

Lemma entry_set_entry adj i j v a b :
  entry (set_entry adj i j v) a b =
  if decide (a = i ∧ b = j) then (λ _, v) <$> entry adj a b else entry adj a b.
Proof.
  unfold entry, set_entry. rewrite list_lookup_alter.
  destruct (decide (i = a)) as [->|Hne].
  - destruct (adj !! a) as [row|]; simpl; [|by case_decide].
    rewrite list_lookup_insert.
    destruct (decide (b = j)) as [->|Hb].
    + rewrite (decide_True (P := a = a ∧ j = j)) by done.
      destruct (row !! j) eqn:E.
      * rewrite decide_True; [done|]. split; [done|]. by eapply lookup_lt_Some.
      * rewrite decide_False; [done|]. apply lookup_ge_None in E. lia.
    + rewrite !decide_False; [done| |]; intros [? ?]; congruence.
  - rewrite decide_False; [done|]. intros [? ?]; congruence.
Qed.

Lemma entry_square n adj i j :
  is_square n adj → (i < n)%nat → (j < n)%nat → is_Some (entry adj i j).
Proof.
  intros [Hlen Hrows] Hi Hj. unfold entry.
  destruct (lookup_lt_is_Some_2 adj i) as [row Hrow]; [lia|].
  rewrite Hrow. simpl. apply lookup_lt_is_Some_2.
  rewrite Forall_lookup in Hrows. by rewrite (Hrows _ _ Hrow).
Qed.

Lemma entry_get adj i j v : entry adj i j = Some v → get adj i j = v.
Proof.
  unfold entry, get. intros H.
  destruct (adj !! i) as [row|] eqn:Hrow; [|done]. simpl in H.
  rewrite (list_lookup_total_correct _ _ _ Hrow).
  by apply list_lookup_total_correct.
Qed.

Lemma zeros_square n : is_square n (replicate n (replicate n 0)).
Proof.
  split; [by rewrite length_replicate|].
  apply Forall_replicate. by rewrite length_replicate.
Qed.

Lemma entry_zeros n i j :
  (i < n)%nat → (j < n)%nat → entry (replicate n (replicate n 0)) i j = Some 0.
Proof.
  intros Hi Hj. unfold entry. rewrite lookup_replicate_2 by done. simpl.
  by rewrite lookup_replicate_2.
Qed.

(** ** buildSymmetricAdjacency *)

Section SymmetricAdjacency.
Variable matrix : gmap string (gmap string Q).
Variable countries : list string.
Let n := length countries.

(** The weight written for the pair [lo < hi]: nothing is written, and
    the initial 0 stays, when the code at [lo] has no row. *)
Definition pair_weight (lo hi : nat) : Q :=
  match matrix !! (countries !!! lo) with
  | None => 0
  | Some _ =>
      Qmax (directed_weight matrix (countries !!! lo) (countries !!! hi))
           (directed_weight matrix (countries !!! hi) (countries !!! lo))
  end.

(** Contents of the matrix when the loops stand at outer index [i] and
    inner index [j]. *)
Definition built_upto (i j a b : nat) : Q :=
  if decide (a = b) then 0
  else if decide (a `min` b < i ∨ (a `min` b = i ∧ a `max` b < j))%nat
       then pair_weight (a `min` b) (a `max` b)
       else 0.

Definition built (i j : nat) (adj : list (list Q)) : Prop :=
  is_square n adj ∧
  ∀ a b, (a < n)%nat → (b < n)%nat → entry adj a b = Some (built_upto i j a b).

Lemma built_upto_next_row i a b :
  (a < n)%nat → (b < n)%nat → built_upto i n a b = built_upto (S i) (S (S i)) a b.
Proof.
  intros Ha Hb. unfold built_upto. case_decide; [done|].
  repeat case_decide; try done; lia.
Qed.

Lemma built_upto_skip i a b :
  matrix !! (countries !!! i) = None →
  built_upto i (S i) a b = built_upto (S i) (S (S i)) a b.
Proof.
  intros Hrow. unfold built_upto. case_decide; [done|].
  repeat case_decide; try done; try lia.
  assert (a `min` b = i) as -> by lia.
  unfold pair_weight. by rewrite Hrow.
Qed.

Lemma sym_step_built row i j adj :
  matrix !! (countries !!! i) = Some row →
  (i < j < n)%nat →
  built i j adj →
  built i (S j) (sym_step matrix countries row (countries !!! i) i j adj).
Proof.
  intros Hrow Hij [Hsq Hval]. unfold sym_step. split.
  - by do 2 apply set_entry_square.
  - intros a b Ha Hb. rewrite !entry_set_entry, (Hval a b Ha Hb).
    assert (Qmax (default 0 (row !! (countries !!! j)))
                 (directed_weight matrix (countries !!! j) (countries !!! i))
            = pair_weight i j) as ->.
    { unfold pair_weight. rewrite Hrow. f_equal.
      unfold directed_weight. by rewrite Hrow. }
    unfold built_upto.
    destruct (decide (a = j ∧ b = i)) as [[-> ->]|Hne1].
    { rewrite decide_False by lia. simpl.
      rewrite decide_False by lia.
      rewrite decide_True by lia.
      do 2 f_equal; lia. }
    destruct (decide (a = i ∧ b = j)) as [[-> ->]|Hne2].
    { simpl. rewrite decide_False by lia.
      rewrite decide_True by lia.
      do 2 f_equal; lia. }
    case_decide; [done|].
    repeat case_decide; try done; lia.
Qed.

Lemma sym_row_built i adj :
  (i < n)%nat →
  built i (S i) adj →
  built (S i) (S (S i)) (sym_row matrix countries n i adj).
Proof.
  intros Hi Hadj. unfold sym_row.
  destruct (matrix !! (countries !!! i)) as [row|] eqn:Hrow.
  - assert (built i n
      (for_range (i + 1) n (sym_step matrix countries row (countries !!! i) i) adj))
      as [Hsq Hval].
    { apply (for_range_inv (λ j adj, built i j adj)); [lia| |].
      - by replace (i + 1)%nat with (S i) by lia.
      - intros j adj' Hj. apply sym_step_built; [done|lia]. }
    split; [done|]. intros a b Ha Hb.
    by rewrite Hval, built_upto_next_row.
  - destruct Hadj as [Hsq Hval]. split; [done|]. intros a b Ha Hb.
    by rewrite Hval, built_upto_skip.
Qed.

Lemma buildSymmetricAdjacency_built :
  built n (S n) (buildSymmetricAdjacency matrix countries).
Proof.
  unfold buildSymmetricAdjacency. fold n.
  apply (for_range_inv (λ i adj, built i (S i) adj)); [lia| |].
  - split; [apply zeros_square|]. intros a b Ha Hb.
    rewrite entry_zeros by done. unfold built_upto.
    case_decide; [done|]. by rewrite decide_False by lia.
  - intros i adj [_ Hi]. by apply sym_row_built.
Qed.

(** Every entry of the result, in closed form. *)
Lemma buildSymmetricAdjacency_entry a b :
  (a < n)%nat → (b < n)%nat →
  entry (buildSymmetricAdjacency matrix countries) a b =
  Some (if decide (a = b) then 0 else pair_weight (a `min` b) (a `max` b)).
Proof.
  intros Ha Hb. destruct buildSymmetricAdjacency_built as [_ Hval].
  rewrite Hval by done. unfold built_upto.
  case_decide; [done|]. by rewrite decide_True by lia.
Qed.

Lemma buildSymmetricAdjacency_square :
  is_square n (buildSymmetricAdjacency matrix countries).
Proof. apply buildSymmetricAdjacency_built. Qed.

End SymmetricAdjacency.

(** C8.  The matrix built by [buildSymmetricAdjacency] is symmetric with a
    zero diagonal: for all indices [i], [j] of the code list, [adj[i][j]]
    and [adj[j][i]] are the same number, and [adj[i][i]] is 0. *)
Theorem buildSymmetricAdjacency_symmetric
    (matrix : gmap string (gmap string Q)) (countries : list string) (i j : nat) :
  (i < length countries)%nat →
  (j < length countries)%nat →
  let adj := buildSymmetricAdjacency matrix countries in
  (∃ v, entry adj i j = Some v ∧ entry adj j i = Some v) ∧
  get adj i j = get adj j i ∧
  entry adj i i = Some 0 ∧
  get adj i i = 0.
Proof.
  intros Hi Hj adj.
  assert (entry adj i j = entry adj j i) as Hsym.
  { unfold adj. rewrite !buildSymmetricAdjacency_entry by done.
    rewrite (Nat.min_comm j i), (Nat.max_comm j i).
    destruct (decide (i = j)) as [->|Hne].
    - by rewrite decide_True.
    - by rewrite decide_False by congruence. }
  assert (entry adj i i = Some 0) as Hdiag.
  { unfold adj. rewrite buildSymmetricAdjacency_entry by done.
    by rewrite decide_True. }
  destruct (entry_square (length countries) adj i j) as [v Hv];
    [apply buildSymmetricAdjacency_square|lia|lia|].
  split; [exists v; by rewrite <- Hsym|].
  split; [|split; [done|by apply entry_get]].
  rewrite (entry_get _ _ _ _ Hv). symmetry. apply entry_get. by rewrite <- Hsym.
Qed.

Local Open Scope string_scope.

Lemma buildSymmetricAdjacency_symmetric_witness :
  let adj :=
    buildSymmetricAdjacency
      {[ "A" := {[ "B" := 5 # 10 ]}; "B" := {[ "A" := 2 # 10; "C" := 6 # 10 ]} ]}
      ["A"; "B"; "C"] in
  (∃ v, entry adj 0 2 = Some v ∧ entry adj 2 0 = Some v) ∧
  get adj 0 2 = get adj 2 0 ∧
  entry adj 0 0 = Some 0 ∧
  get adj 0 0 = 0.
Proof.
  apply (buildSymmetricAdjacency_symmetric
           {[ "A" := {[ "B" := 5 # 10 ]}; "B" := {[ "A" := 2 # 10; "C" := 6 # 10 ]} ]}
           ["A"; "B"; "C"] 0 2); simpl; lia.
Defined.

(** C1.  The builder at the mapping [{B: {A: 0.5}}]: with the codes in the
    order [A, B] the code [A] has no row, its iteration is skipped and the
    weight 0.5 of [B -> A] is lost, [adj[0][1]] staying 0 where
    [max(forward, backward)] is 0.5; with the codes in the order [B, A]
    the same pair gets 0.5. *)
Theorem buildSymmetricAdjacency_skips_backward :
  let matrix : gmap string (gmap string Q) := {[ "B" := {[ "A" := 5 # 10 ]} ]} in
  matrix !! "A" = None ∧
  Qmax (directed_weight matrix "A" "B") (directed_weight matrix "B" "A") = 5 # 10 ∧
  buildSymmetricAdjacency matrix ["A"; "B"] = [[0; 0]; [0; 0]] ∧
  buildSymmetricAdjacency matrix ["B"; "A"] = [[0; 5 # 10]; [5 # 10; 0]].
Proof. vm_compute. done. Qed.

Local Close Scope string_scope.

(** ** buildEdgeList *)

(** The running maximum [maxWeight = Math.max(maxWeight, w)]. *)
Lemma running_max_init a ws : a <= foldl Qmax a ws.
Proof.
  revert a. induction ws as [|w ws IH]; intros a; simpl; [apply Qle_refl|].
  eapply Qle_trans; [apply (Q.le_max_l a w)|apply IH].
Qed.

Lemma running_max_upper a ws w : w ∈ ws → w <= foldl Qmax a ws.
Proof.
  revert a. induction ws as [|w' ws IH]; intros a Hin; [by apply elem_of_nil in Hin|].
  apply elem_of_cons in Hin as [->|Hin]; simpl.
  - eapply Qle_trans; [apply (Q.le_max_r a w')|apply running_max_init].
  - by apply IH.
Qed.

Lemma Qmax_cases a b : Qmax a b = a ∨ Qmax a b = b.
Proof. unfold Qmax, GenericMinMax.gmax. destruct (a ?= b); auto. Qed.

Lemma running_max_attained a ws : foldl Qmax a ws = a ∨ foldl Qmax a ws ∈ ws.
Proof.
  revert a. induction ws as [|w ws IH]; intros a; simpl; [by left|].
  destruct (IH (Qmax a w)) as [H|H].
  - rewrite H. destruct (Qmax_cases a w) as [->| ->]; [by left|right; left].
  - right. by right.
Qed.

Section EdgeList.
Variable matrix : gmap string (gmap string Q).
Variable countries : list string.
Variable minWeight : Q.
Let n := length countries.

(** What holds of a collected triple [{i, j, w}]. *)
Definition raw_ok (e : nat * nat * Q) : Prop :=
  (e.1.1 < e.1.2 < n)%nat ∧
  e.2 = Qmax (directed_weight matrix (countries !!! e.1.1) (countries !!! e.1.2))
             (directed_weight matrix (countries !!! e.1.2) (countries !!! e.1.1)) ∧
  minWeight <= e.2.

Definition raw_inv (acc : list (nat * nat * Q) * Q) : Prop :=
  Forall raw_ok acc.1 ∧ acc.2 = foldl Qmax 0 (snd <$> acc.1).

Lemma raw_step_inv row i j acc :
  matrix !! (countries !!! i) = Some row →
  (i < j < n)%nat →
  raw_inv acc →
  raw_inv (raw_step matrix countries minWeight row (countries !!! i) i j acc).
Proof.
  intros Hrow Hij [Hok Hmax]. unfold raw_step.
  destruct (Qle_bool minWeight _) eqn:Hle; [|done].
  apply Qle_bool_iff in Hle. split; cbn [fst snd].
  - apply Forall_app. split; [done|]. apply Forall_singleton.
    split; [done|]. split; [|done]. cbn [fst snd].
    f_equal. unfold directed_weight. by rewrite Hrow.
  - by rewrite fmap_app, foldl_app, <- Hmax.
Qed.

Lemma raw_edges_inv : raw_inv (raw_edges matrix countries minWeight).
Proof.
  unfold raw_edges. fold n.
  apply (for_range_inv (λ _ acc, raw_inv acc)); [lia| |].
  - split; [apply Forall_nil_2|done].
  - intros i acc Hi Hacc.
    destruct (matrix !! (countries !!! i)) as [row|] eqn:Hrow; [|done].
    apply (for_range_inv (λ _ acc, raw_inv acc)); [lia|done|].
    intros j acc' Hj. apply raw_step_inv; [done|lia].
Qed.

Lemma buildEdgeList_unfold :
  buildEdgeList matrix countries minWeight =
  (λ e : nat * nat * Q,
     {| source := e.1.1; target := e.1.2;
        sourceCode := countries !!! e.1.1; targetCode := countries !!! e.1.2;
        weight := e.2;
        normalizedWeight :=
          if Qlt_bool 0 (raw_edges matrix countries minWeight).2
          then e.2 / (raw_edges matrix countries minWeight).2 else 0 |})
  <$> (raw_edges matrix countries minWeight).1.
Proof.
  unfold buildEdgeList. destruct (raw_edges _ _ _) as [raw mw]. simpl.
  apply list_fmap_ext. by intros k [[i j] w] _.
Qed.

Lemma buildEdgeList_weights :
  weight <$> buildEdgeList matrix countries minWeight =
  snd <$> (raw_edges matrix countries minWeight).1.
Proof.
  rewrite buildEdgeList_unfold, <- list_fmap_compose. by apply list_fmap_ext.
Qed.

End EdgeList.

Lemma Qlt_bool_iff a b : Qlt_bool a b = true ↔ a < b.
Proof.
  unfold Qlt_bool. rewrite negb_true_iff, <- not_true_iff_false, Qle_bool_iff.
  split; [apply Qnot_le_lt|apply Qlt_not_le].
Qed.

(** C7 (amended).  Every edge returned by [buildEdgeList] has
    [source < target], carries the codes of its two indices, has as weight
    the symmetric weight [max(forward, backward)] of its pair, and that
    weight is at least [minWeight] (so no pair below [minWeight] appears).
    When some included edge has a positive weight, [normalizedWeight] is
    the weight divided by the largest included weight, and an edge of
    largest weight has [normalizedWeight] 1.  When no included weight is
    positive, every [normalizedWeight] is 0. *)
Theorem buildEdgeList_normalized
    (matrix : gmap string (gmap string Q)) (countries : list string) (minWeight : Q) :
  let edges := buildEdgeList matrix countries minWeight in
  (∀ e, e ∈ edges →
     (source e < target e < length countries)%nat ∧
     sourceCode e = countries !!! source e ∧
     targetCode e = countries !!! target e ∧
     weight e = Qmax (directed_weight matrix (sourceCode e) (targetCode e))
                      (directed_weight matrix (targetCode e) (sourceCode e)) ∧
     minWeight <= weight e) ∧
  ((∃ e, e ∈ edges ∧ 0 < weight e) →
     ∃ emax, emax ∈ edges ∧ 0 < weight emax ∧
       ∀ e, e ∈ edges →
         weight e <= weight emax ∧
         normalizedWeight e = weight e / weight emax ∧
         (weight e == weight emax → normalizedWeight e == 1)) ∧
  ((∀ e, e ∈ edges → weight e <= 0) →
     ∀ e, e ∈ edges → normalizedWeight e = 0).
Proof.
  intros edges.
  destruct (raw_edges_inv matrix countries minWeight) as [Hok Hmax].
  pose proof (buildEdgeList_weights matrix countries minWeight) as Hws.
  fold edges in Hws. rewrite <- Hws in Hmax.
  assert (∀ e, e ∈ edges →
            normalizedWeight e =
            if Qlt_bool 0 (raw_edges matrix countries minWeight).2
            then weight e / (raw_edges matrix countries minWeight).2 else 0) as Hnorm.
  { intros e He. unfold edges in He. rewrite buildEdgeList_unfold in He.
    apply list_elem_of_fmap in He as (r & -> & _). done. }
  set (mw := (raw_edges matrix countries minWeight).2) in *.
  assert (∀ e, e ∈ edges → weight e <= mw) as Hupper.
  { intros e He. rewrite Hmax. apply running_max_upper.
    apply list_elem_of_fmap. eauto. }
  split; [|split].
  - intros e He. unfold edges in He. rewrite buildEdgeList_unfold in He.
    apply list_elem_of_fmap in He as (r & -> & Hr).
    rewrite Forall_forall in Hok. destruct (Hok r Hr) as (Hlt & Hw & Hmin).
    done.
  - intros (e0 & He0 & Hpos).
    assert (0 < mw) as Hmw by (eapply Qlt_le_trans; eauto).
    destruct (running_max_attained 0 (weight <$> edges)) as [H0|Hin].
    { rewrite <- Hmax in H0. rewrite H0 in Hmw. by apply Qlt_irrefl in Hmw. }
    rewrite <- Hmax in Hin. apply list_elem_of_fmap in Hin as (emax & Hemax & Hin).
    exists emax. rewrite <- Hemax. split; [done|]. split; [done|].
    intros e He. split; [by apply Hupper|].
    assert (normalizedWeight e = weight e / mw) as Hn.
    { rewrite (Hnorm e He). by apply Qlt_bool_iff in Hmw as ->. }
    split; [done|]. intros Heq. rewrite Hn, Heq.
    apply Qmult_inv_r. intros Hz. rewrite Hz in Hmw. by apply Qlt_irrefl in Hmw.
  - intros Hnonpos e He. rewrite (Hnorm e He).
    destruct (Qlt_bool 0 mw) eqn:Hlt; [|done].
    apply Qlt_bool_iff in Hlt.
    destruct (running_max_attained 0 (weight <$> edges)) as [H0|Hin].
    { rewrite <- Hmax in H0. rewrite H0 in Hlt. by apply Qlt_irrefl in Hlt. }
    rewrite <- Hmax in Hin. apply list_elem_of_fmap in Hin as (emax & Hemax & Hin).
    apply Hnonpos in Hin. rewrite <- Hemax in Hin.
    exfalso. eapply Qlt_irrefl, Qlt_le_trans; eauto.
Qed.

Local Open Scope string_scope.

(** C7 as stated fails at the mapping [{A: {B: 0}}] with [minWeight = 0]:
    the only edge has the largest raw weight, 0, and its
    [normalizedWeight] is 0, not 1. *)
Lemma buildEdgeList_zero_max_weight :
  let edges := buildEdgeList {[ "A" := {[ "B" := 0 ]} ]} ["A"; "B"] 0 in
  ∃ e, e ∈ edges ∧
       (∀ e', e' ∈ edges → weight e' <= weight e) ∧
       0 <= weight e ∧
       ¬ normalizedWeight e == 1.
Proof.
  exists (mkGraphEdge 0 1 "A" "B" 0 0).
  split; [vm_compute; left|]. split; [|split].
  - intros e' He'. vm_compute in He'.
    apply list_elem_of_singleton in He' as ->. by vm_compute.
  - by vm_compute.
  - by vm_compute.
Qed.

Local Close Scope string_scope.

(** ** louvainCommunities *)

(** C4.  When the weights above the diagonal sum to zero,
    [louvainCommunities] does not optimize and returns [i mod 4] at every
    index [i]; for the all-zero matrix over 6 nodes this is
    [[0,1,2,3,0,1]]. *)
Theorem louvainCommunities_zero_weight (adj : list (list Q)) (n : nat) :
  is_square n adj →
  totalWeight adj n == 0 →
  louvainCommunities adj n = (λ i, i mod 4)%nat <$> seq 0 n ∧
  (∀ i, (i < n)%nat → louvainCommunities adj n !! i = Some (i mod 4)%nat) ∧
  louvainCommunities (replicate 6 (replicate 6 0)) 6 =
    [0; 1; 2; 3; 0; 1]%nat.
Proof.
  intros _ Hzero.
  assert (louvainCommunities adj n = (λ i, i mod 4)%nat <$> seq 0 n) as Heq.
  { unfold louvainCommunities. apply Qeq_bool_iff in Hzero. by rewrite Hzero. }
  split; [done|]. split; [|by vm_compute].
  intros i Hi. rewrite Heq, list_lookup_fmap, lookup_seq_lt by done. done.
Qed.

Lemma louvainCommunities_zero_weight_witness :
  louvainCommunities (replicate 6 (replicate 6 0)) 6 =
    (λ i, i mod 4)%nat <$> seq 0 6 ∧
  (∀ i, (i < 6)%nat →
     louvainCommunities (replicate 6 (replicate 6 0)) 6 !! i = Some (i mod 4)%nat) ∧
  louvainCommunities (replicate 6 (replicate 6 0)) 6 =
    [0; 1; 2; 3; 0; 1]%nat.
Proof.
  apply (louvainCommunities_zero_weight (replicate 6 (replicate 6 0)) 6).
  - apply zeros_square.
  - by vm_compute.
Defined.

(** *** Renumbering *)

Section Unique.
Let step (acc : list nat) (c : nat) : list nat :=
  if decide (c ∈ acc) then acc else acc ++ [c].

Lemma unique_from_NoDup acc l : NoDup acc → NoDup (foldl step acc l).
Proof.
  revert acc. induction l as [|c l IH]; intros acc Hacc; simpl; [done|].
  apply IH. unfold step. case_decide; [done|].
  apply NoDup_app. split; [done|]. split; [|apply NoDup_singleton].
  intros x Hx Hc. apply list_elem_of_singleton in Hc as ->. done.
Qed.

Lemma unique_from_elem acc l x : x ∈ foldl step acc l ↔ x ∈ acc ∨ x ∈ l.
Proof.
  revert acc. induction l as [|c l IH]; intros acc; simpl.
  - split; [by left|]. intros [H|H]; [done|by apply elem_of_nil in H].
  - rewrite IH, elem_of_cons. unfold step. case_decide.
    + split; [intros [?|?]; auto|]. intros [?|[->|?]]; auto.
    + rewrite elem_of_app, list_elem_of_singleton. tauto.
Qed.

Lemma unique_from_length acc l :
  (length (foldl step acc l) ≤ length acc + length l)%nat.
Proof.
  revert acc. induction l as [|c l IH]; intros acc; simpl; [lia|].
  etrans; [apply IH|]. unfold step. case_decide; [lia|].
  rewrite length_app. simpl. lia.
Qed.

Lemma unique_NoDup l : NoDup (unique l).
Proof. apply unique_from_NoDup, NoDup_nil_2. Qed.

Lemma unique_elem l x : x ∈ unique l ↔ x ∈ l.
Proof.
  unfold unique. fold step. rewrite unique_from_elem.
  split; [intros [H|H]; [by apply elem_of_nil in H|done]|by right].
Qed.

Lemma unique_length l : (length (unique l) ≤ length l)%nat.
Proof. apply (unique_from_length [] l). Qed.
End Unique.

Lemma make_remap_snoc u c :
  make_remap (u ++ [c]) = <[c := length u]> (make_remap u).
Proof.
  unfold make_remap. rewrite imap_app, foldl_app. simpl.
  by rewrite Nat.add_0_r.
Qed.

(** Without duplicates, the map sends each value to its position. *)
Lemma make_remap_lookup u c i :
  NoDup u → make_remap u !! c = Some i ↔ u !! i = Some c.
Proof.
  revert i. induction u as [|c' u IH] using rev_ind; intros i Hnd.
  - unfold make_remap. simpl. by rewrite lookup_empty.
  - apply NoDup_app in Hnd as (Hnd & Hfresh & _).
    assert (c' ∉ u) as Hc' by (intros Hin; apply (Hfresh c' Hin); left).
    rewrite make_remap_snoc.
    destruct (decide (c' = c)) as [->|Hne].
    + rewrite lookup_insert_eq. split.
      * intros [= <-]. by rewrite lookup_app_r, Nat.sub_diag.
      * intros Hi. destruct (decide (i < length u)%nat) as [Hlt|Hge].
        -- rewrite lookup_app_l in Hi by done.
           exfalso. apply Hc'. by eapply list_elem_of_lookup_2.
        -- apply lookup_lt_Some in Hi as Hlen. rewrite length_app in Hlen.
           simpl in Hlen. f_equal. lia.
    + rewrite lookup_insert_ne by done. rewrite IH by done. split.
      * intros Hi. by apply lookup_app_l_Some.
      * intros Hi. apply lookup_app_Some in Hi as [Hi|[_ Hi]]; [done|].
        apply list_lookup_singleton_Some in Hi as [_ ?]. congruence.
Qed.

(** [remap.get(c)] is defined for every community id in use. *)
Lemma renumber_defined l c :
  c ∈ l → ∃ i, make_remap (unique l) !! c = Some i ∧ unique l !! i = Some c.
Proof.
  intros Hc. apply unique_elem in Hc.
  apply list_elem_of_lookup in Hc as [i Hi]. exists i. split; [|done].
  apply make_remap_lookup; [apply unique_NoDup|done].
Qed.

Lemma renumber_length l : length (renumber l) = length l.
Proof. unfold renumber. by rewrite length_fmap. Qed.

(** The new ids are exactly the numbers below the count of distinct ids. *)
Lemma renumber_elem l c : c ∈ renumber l ↔ (c < length (unique l))%nat.
Proof.
  unfold renumber. rewrite list_elem_of_fmap. split.
  - intros (c0 & -> & Hc0). destruct (renumber_defined l c0 Hc0) as (i & -> & Hi).
    simpl. by eapply lookup_lt_Some.
  - intros Hlt. destruct (lookup_lt_is_Some_2 (unique l) c Hlt) as [c0 Hc0].
    exists c0. split.
    + apply make_remap_lookup in Hc0 as ->; [done|apply unique_NoDup].
    + apply unique_elem. by eapply list_elem_of_lookup_2.
Qed.

(** *** The community array keeps its length *)

Lemma louvain_node_length adj n degree m2 i st :
  length (community (louvain_node adj n degree m2 i st)) = length (community st).
Proof. unfold louvain_node. simpl. by rewrite length_insert. Qed.

Lemma louvain_passes_length adj n degree m2 iters st :
  length (community (louvain_passes adj n degree m2 iters st)) = length (community st).
Proof.
  revert st. induction iters as [|iters IH]; intros st; simpl; [done|].
  set (st0 := {| community := community st; sigmaIn := sigmaIn st;
                 sigmaTot := sigmaTot st; moved := false |}).
  assert (length (community (for_range 0 n (louvain_node adj n degree m2) st0))
          = length (community st)) as Hpass.
  { apply (for_range_inv (λ _ st', length (community st') = length (community st)));
      [lia|done|].
    intros i st' _ Hst'. by rewrite louvain_node_length. }
  destruct (moved _); [by rewrite IH|done].
Qed.

Lemma zero_weight_ids n c :
  c ∈ ((λ i, i mod 4)%nat <$> seq 0 n) ↔ (c < n `min` 4)%nat.
Proof.
  rewrite list_elem_of_fmap. split.
  - intros (i & -> & Hi). apply elem_of_seq in Hi.
    pose proof (Nat.mod_upper_bound i 4). pose proof (Nat.Div0.mod_le i 4). lia.
  - intros Hc. exists c. split; [by rewrite Nat.mod_small by lia|].
    apply elem_of_seq. lia.
Qed.

(** C5.  The array returned by [louvainCommunities] has length [n], and
    its distinct values are exactly [0, ..., k-1] for some [k ≤ n]. *)
Theorem louvainCommunities_contiguous (adj : list (list Q)) (n : nat) :
  is_square n adj →
  length (louvainCommunities adj n) = n ∧
  ∃ k, (k ≤ n)%nat ∧ ∀ c, c ∈ louvainCommunities adj n ↔ (c < k)%nat.
Proof.
  intros _. unfold louvainCommunities.
  destruct (Qeq_bool (totalWeight adj n) 0).
  - split; [by rewrite length_fmap, length_seq|].
    exists (n `min` 4)%nat. split; [lia|]. apply zero_weight_ids.
  - set (st := louvain_passes _ _ _ _ _ _).
    assert (length (community st) = n) as Hlen.
    { unfold st. rewrite louvain_passes_length. simpl. by rewrite length_seq. }
    split; [by rewrite renumber_length|].
    exists (length (unique (community st))). split.
    + rewrite <- Hlen. apply unique_length.
    + apply renumber_elem.
Qed.

Lemma louvainCommunities_contiguous_witness :
  let adj := [[0; 5 # 10; 0]; [5 # 10; 0; 6 # 10]; [0; 6 # 10; 0]] in
  length (louvainCommunities adj 3) = 3%nat ∧
  ∃ k, (k ≤ 3)%nat ∧ ∀ c, c ∈ louvainCommunities adj 3 ↔ (c < k)%nat.
Proof.
  apply (louvainCommunities_contiguous
           [[0; 5 # 10; 0]; [5 # 10; 0; 6 # 10]; [0; 6 # 10; 0]] 3).
  split; [done|]. repeat constructor.
Defined.

(** ** betweennessCentrality *)

Lemma lookup_total_nonneg (l : list Q) i : Forall (λ x, 0 <= x) l → 0 <= l !!! i.
Proof.
  intros Hl. rewrite list_lookup_total_alt.
  destruct (l !! i) as [x|] eqn:Hx; simpl; [|apply Qle_refl].
  rewrite Forall_lookup in Hl. by eapply Hl.
Qed.

Lemma Qdiv_nonneg a b : 0 <= a → 0 <= b → 0 <= a / b.
Proof. intros Ha Hb. apply Qmult_le_0_compat; [done|by apply Qinv_le_0_compat]. Qed.

Lemma Qplus_nonneg a b : 0 <= a → 0 <= b → 0 <= a + b.
Proof.
  intros Ha Hb. eapply Qle_trans; [|apply (Qplus_le_compat 0 a 0 b Ha Hb)].
  by vm_compute.
Qed.

(** *** The traversal terminates *)

(** Nodes reached so far: those whose distance is no longer negative. *)
Definition visited (dist : list Z) : nat := length (filter (λ d, 0 ≤ d)%Z dist).

Lemma visited_le dist : (visited dist ≤ length dist)%nat.
Proof. apply length_filter. Qed.

Lemma visited_insert dist w d :
  (w < length dist)%nat → (dist !!! w < 0)%Z → (0 ≤ d)%Z →
  visited (<[w := d]> dist) = S (visited dist).
Proof.
  intros Hw Hneg Hd. unfold visited.
  rewrite insert_take_drop by done.
  rewrite <- (take_drop_middle dist w (dist !!! w)) at 3
    by (by apply list_lookup_lookup_total_lt).
  rewrite !filter_app, !filter_cons.
  rewrite decide_True by done. rewrite decide_False by lia.
  rewrite !length_app. simpl. lia.
Qed.

Record bfs_inv (n : nat) (st : bfs_state) : Prop := BfsInv {
  inv_dist_length : length (dist st) = n;
  inv_dist_lower : Forall (λ d, -1 ≤ d)%Z (dist st);
  inv_count : (length (stack st) + length (queue st))%nat = visited (dist st);
  inv_sigma : Forall (λ x, 0 <= x) (sigma st)
}.

Lemma dist_lower (dist : list Z) v :
  Forall (λ d, -1 ≤ d)%Z dist → (-1 ≤ dist !!! v)%Z.
Proof.
  intros Hd. rewrite list_lookup_total_alt.
  destruct (dist !! v) as [d|] eqn:Hv; simpl; [|by vm_compute].
  rewrite Forall_lookup in Hd. by eapply Hd.
Qed.

Lemma bfs_edge_stack adj threshold v w st :
  stack (bfs_edge adj threshold v w st) = stack st.
Proof.
  unfold bfs_edge. destruct (_ || _); [done|].
  destruct (_ <? _)%Z; simpl; by destruct (_ =? _)%Z.
Qed.

Lemma bfs_edge_inv n adj threshold v w st :
  (w < n)%nat → bfs_inv n st → bfs_inv n (bfs_edge adj threshold v w st).
Proof.
  intros Hw Hst. unfold bfs_edge. destruct (_ || _); [done|].
  set (st1 := if (dist st !!! w <? 0)%Z then _ else st).
  assert (bfs_inv n st1) as Hst1.
  { unfold st1. destruct (Z.ltb_spec (dist st !!! w) 0) as [Hneg|_]; [|done].
    destruct Hst as [Hlen Hlow Hcount Hsig].
    pose proof (dist_lower (dist st) v Hlow).
    split; simpl.
    - by rewrite length_insert.
    - apply Forall_insert; [done|lia].
    - rewrite visited_insert by lia. rewrite length_app. simpl. lia.
    - done. }
  destruct (_ =? _)%Z; [|done].
  destruct Hst1 as [Hlen Hlow Hcount Hsig]. split; simpl; try done.
  apply Forall_alter; [done|]. intros x _ Hx.
  apply Qplus_nonneg; [done|by apply lookup_total_nonneg].
Qed.

Lemma bfs_round_inv n adj threshold v st :
  bfs_inv n st →
  bfs_inv n (for_range 0 n (bfs_edge adj threshold v) st) ∧
  stack (for_range 0 n (bfs_edge adj threshold v) st) = stack st.
Proof.
  intros Hst.
  apply (for_range_inv (λ _ st', bfs_inv n st' ∧ stack st' = stack st)); [lia|done|].
  intros w st' Hw [Hst' Hstack]. split.
  - apply bfs_edge_inv; [lia|done].
  - by rewrite bfs_edge_stack.
Qed.

(** With [n] rounds of fuel the queue runs empty. *)
Lemma bfs_terminates n adj threshold fuel st :
  bfs_inv n st →
  (n ≤ fuel + length (stack st))%nat →
  ∃ st', bfs adj n threshold fuel st = Some st' ∧ bfs_inv n st'.
Proof.
  revert st. induction fuel as [|fuel IH]; intros st Hst Hfuel.
  - simpl. destruct (queue st) as [|v q] eqn:Hq; [by exists st|].
    exfalso. pose proof (inv_count _ _ Hst) as Hc. rewrite Hq in Hc. simpl in Hc.
    pose proof (visited_le (dist st)). rewrite (inv_dist_length _ _ Hst) in *. lia.
  - simpl. destruct (queue st) as [|v q] eqn:Hq; [by exists st|].
    set (st0 := {| stack := stack st ++ [v]; predecessors := predecessors st;
                   sigma := sigma st; dist := dist st; queue := q |}).
    assert (bfs_inv n st0) as Hst0.
    { destruct Hst as [Hlen Hlow Hcount Hsig]. split; simpl; try done.
      rewrite Hq in Hcount. rewrite length_app. simpl in *. lia. }
    destruct (bfs_round_inv n adj threshold v st0 Hst0) as [Hround Hstack].
    apply IH; [done|]. rewrite Hstack. simpl. rewrite length_app. simpl. lia.
Qed.

(** *** Scores are non-negative *)

Definition nonneg (l : list Q) : Prop := Forall (λ x, 0 <= x) l.

Lemma back_step_nonneg s preds sigma acc w :
  nonneg sigma → nonneg acc.1 → nonneg acc.2 →
  nonneg (back_step s preds sigma acc w).1 ∧ nonneg (back_step s preds sigma acc w).2 ∧
  length (back_step s preds sigma acc w).1 = length acc.1.
Proof.
  intros Hsig Hbc Hdelta. unfold back_step.
  set (delta := foldl _ _ _).
  assert (nonneg delta) as Hdelta'.
  { unfold delta. generalize (preds !!! w). intros vs.
    revert Hdelta. generalize acc.2. induction vs as [|v vs IH]; intros d Hd; [done|].
    simpl. apply IH. apply Forall_alter; [done|]. intros x _ Hx.
    apply Qplus_nonneg; [done|]. apply Qmult_le_0_compat.
    - apply Qdiv_nonneg; by apply lookup_total_nonneg.
    - apply Qplus_nonneg; [done|by apply lookup_total_nonneg]. }
  simpl. split; [|split; [done|]].
  - case_decide; [done|]. apply Forall_alter; [done|]. intros x _ Hx.
    apply Qplus_nonneg; [done|by apply lookup_total_nonneg].
  - case_decide; [done|]. by rewrite length_alter.
Qed.

Lemma back_propagation_nonneg s preds sigma ws acc :
  nonneg sigma → nonneg acc.1 → nonneg acc.2 →
  nonneg (foldl (back_step s preds sigma) acc ws).1 ∧
  length (foldl (back_step s preds sigma) acc ws).1 = length acc.1.
Proof.
  intros Hsig. revert acc. induction ws as [|w ws IH]; intros acc Hbc Hdelta; [done|].
  simpl. destruct (back_step_nonneg s preds sigma acc w) as (H1 & H2 & H3); try done.
  destruct (IH (back_step s preds sigma acc w) H1 H2) as [H4 H5].
  split; [done|]. by rewrite H5.
Qed.

Lemma visited_replicate n : visited (replicate n (-1)%Z) = 0%nat.
Proof.
  induction n as [|n IH]; [done|]. unfold visited in *. cbn [replicate].
  by rewrite filter_cons_False by lia.
Qed.

Lemma bfs_start_inv n s :
  (s < n)%nat →
  bfs_inv n {| stack := []; predecessors := replicate n [];
               sigma := <[s := 1]> (replicate n 0);
               dist := <[s := 0%Z]> (replicate n (-1)%Z);
               queue := [s] |}.
Proof.
  intros Hs. split; simpl.
  - by rewrite length_insert, length_replicate.
  - apply Forall_insert; [|done]. by apply Forall_replicate.
  - rewrite visited_insert, visited_replicate; [done| | |done].
    + by rewrite length_replicate.
    + by rewrite lookup_total_replicate_2.
  - apply Forall_insert; [|by vm_compute]. apply Forall_replicate. apply Qle_refl.
Qed.

Lemma brandes_source_nonneg n adj threshold s bc :
  (s < n)%nat → nonneg bc →
  ∃ bc', brandes_source adj n threshold s bc = Some bc' ∧
         nonneg bc' ∧ length bc' = length bc.
Proof.
  intros Hs Hbc. unfold brandes_source.
  destruct (bfs_terminates n adj threshold n _ (bfs_start_inv n s Hs)) as (st & -> & Hst).
  { simpl. lia. }
  simpl. eexists. split; [done|].
  apply back_propagation_nonneg; simpl; [apply Hst|done|].
  apply Forall_replicate, Qle_refl.
Qed.

Lemma brandes_raw_nonneg n adj threshold :
  ∃ bc, brandes_raw adj n threshold = Some bc ∧ nonneg bc ∧ length bc = n.
Proof.
  unfold brandes_raw.
  apply (for_range_inv (λ _ r, ∃ bc, r = Some bc ∧ nonneg bc ∧ length bc = n));
    [lia| |].
  - exists (replicate n 0). split; [done|]. split.
    + apply Forall_replicate, Qle_refl.
    + by rewrite length_replicate.
  - intros s r Hs (bc & -> & Hbc & Hlen). simpl.
    destruct (brandes_source_nonneg n adj threshold s bc) as (bc' & -> & Hbc' & Hlen');
      [lia|done|].
    exists bc'. split; [done|]. split; [done|]. by rewrite Hlen'.
Qed.

(** *** Normalization *)

Lemma max_bc_floor bc : (1 # 10000000000) <= max_bc bc.
Proof.
  induction bc as [|b bc IH]; simpl; [apply Qle_refl|].
  eapply Qle_trans; [apply IH|apply Q.le_max_r].
Qed.

Lemma max_bc_upper bc v : v ∈ bc → v <= max_bc bc.
Proof.
  induction bc as [|b bc IH]; intros Hv; [by apply elem_of_nil in Hv|].
  apply elem_of_cons in Hv as [->|Hv]; simpl.
  - apply Q.le_max_l.
  - eapply Qle_trans; [by apply IH|apply Q.le_max_r].
Qed.

(** [maxBC] is the floor [1e-10] or one of the raw scores. *)
Lemma max_bc_attained bc : max_bc bc = (1 # 10000000000) ∨ max_bc bc ∈ bc.
Proof.
  induction bc as [|b bc IH]; simpl; [by left|].
  destruct (Qmax_cases b (max_bc bc)) as [->| ->]; [right; left|].
  destruct IH as [IH|IH]; [by left|right; by right].
Qed.

Lemma normalized_bounds b m : 0 <= b → b <= m → 0 < m → 0 <= b / m <= 1.
Proof.
  intros Hb Hbm Hm. split.
  - apply Qle_shift_div_l; [done|]. by rewrite Qmult_0_l.
  - apply Qle_shift_div_r; [done|]. by rewrite Qmult_1_l.
Qed.

(** A node without an edge above the threshold changes nothing in its round. *)
Lemma bfs_edge_skip adj threshold v w st :
  v = w ∨ get adj v w < threshold → bfs_edge adj threshold v w st = st.
Proof.
  intros Hskip. unfold bfs_edge.
  destruct Hskip as [->|Hlt].
  - by rewrite Nat.eqb_refl, orb_true_r.
  - apply Qlt_bool_iff in Hlt. by rewrite Hlt.
Qed.

Lemma bfs_round_isolated adj n threshold v st :
  (∀ w, (w < n)%nat → v = w ∨ get adj v w < threshold) →
  for_range 0 n (bfs_edge adj threshold v) st = st.
Proof.
  intros Hskip.
  apply (for_range_inv (λ _ st', st' = st)); [lia|done|].
  intros w st' Hw ->. apply bfs_edge_skip, Hskip. lia.
Qed.

Lemma betweennessCentrality_two_nodes a b c d threshold :
  b < threshold → c < threshold →
  betweennessCentrality [[a; b]; [c; d]] 2 threshold = Some [0; 0].
Proof.
  intros Hb Hc.
  assert (∀ v st, (v < 2)%nat →
            for_range 0 2 (bfs_edge [[a; b]; [c; d]] threshold v) st = st)
    as Hround.
  { intros v st Hv. apply bfs_round_isolated. intros w Hw.
    destruct v as [|[|v]], w as [|[|w]]; try lia; first [by left|by right]. }
  assert (∀ s bc, (s < 2)%nat →
            brandes_source [[a; b]; [c; d]] 2 threshold s bc =
            Some (foldl (back_step s (replicate 2 []) (<[s := 1]> (replicate 2 0)))
                        (bc, replicate 2 0) [s]).1) as Hsource.
  { intros s bc Hs. unfold brandes_source. cbn [bfs queue].
    rewrite Hround by done. by cbn [bfs queue mbind option_bind]. }
  unfold betweennessCentrality, brandes_raw, for_range.
  cbn [seq Nat.sub foldl mbind option_bind].
  rewrite Hsource by lia. cbn [mbind option_bind].
  rewrite Hsource by lia. cbn [mbind option_bind].
  by vm_compute.
Qed.

Lemma square_two adj :
  is_square 2 adj →
  adj = [[get adj 0 0; get adj 0 1]; [get adj 1 0; get adj 1 1]].
Proof.
  intros [Hlen Hrows].
  destruct adj as [|r0 [|r1 [|]]]; try done.
  apply Forall_cons in Hrows as [H0 Hrows]. apply Forall_cons in Hrows as [H1 _].
  destruct r0 as [|? [|? [|]]]; try done. destruct r1 as [|? [|? [|]]]; done.
Qed.

(** C6.  [betweennessCentrality] returns, for every node, its raw Brandes
    score divided by [maxBC = max(raw scores, 1e-10)]; every returned value
    lies in [[0,1]]; and for two nodes without an edge between them both
    values are 0. *)
Theorem betweennessCentrality_normalized
    (adj : list (list Q)) (n : nat) (threshold : Q) :
  is_square n adj →
  ∃ bc result,
    brandes_raw adj n threshold = Some bc ∧
    betweennessCentrality adj n threshold = Some result ∧
    length bc = n ∧ length result = n ∧
    (∀ v, v ∈ bc → v <= max_bc bc) ∧
    (1 # 10000000000) <= max_bc bc ∧
    (max_bc bc = (1 # 10000000000) ∨ max_bc bc ∈ bc) ∧
    (∀ i, (i < n)%nat → result !! i = Some (bc !!! i / max_bc bc)) ∧
    (∀ v, v ∈ result → 0 <= v <= 1) ∧
    (n = 2%nat → get adj 0 1 < threshold → get adj 1 0 < threshold →
     result = [0; 0]).
Proof.
  intros Hsq.
  destruct (brandes_raw_nonneg n adj threshold) as (bc & Hraw & Hbc & Hlen).
  exists bc, ((λ v, v / max_bc bc) <$> bc).
  assert (betweennessCentrality adj n threshold = Some ((λ v, v / max_bc bc) <$> bc))
    as Hres by (unfold betweennessCentrality; by rewrite Hraw).
  assert (0 < max_bc bc) as Hpos.
  { eapply Qlt_le_trans; [|apply max_bc_floor]. by vm_compute. }
  split_and!; try done.
  - by rewrite length_fmap.
  - apply max_bc_upper.
  - apply max_bc_floor.
  - apply max_bc_attained.
  - intros i Hi. rewrite list_lookup_fmap.
    by rewrite (list_lookup_lookup_total_lt bc i) by lia.
  - intros v Hv. apply list_elem_of_fmap in Hv as (b & -> & Hb).
    apply normalized_bounds; [|by apply max_bc_upper|done].
    unfold nonneg in Hbc. rewrite Forall_forall in Hbc. by apply Hbc.
  - intros -> H01 H10. rewrite (square_two adj Hsq) in Hres.
    rewrite betweennessCentrality_two_nodes in Hres by done. congruence.
Qed.

Lemma betweennessCentrality_normalized_witness :
  ∃ bc result,
    brandes_raw [[0; 0]; [0; 0]] 2 (5 # 1000) = Some bc ∧
    betweennessCentrality [[0; 0]; [0; 0]] 2 (5 # 1000) = Some result ∧
    length bc = 2%nat ∧ length result = 2%nat ∧
    (∀ v, v ∈ bc → v <= max_bc bc) ∧
    (1 # 10000000000) <= max_bc bc ∧
    (max_bc bc = (1 # 10000000000) ∨ max_bc bc ∈ bc) ∧
    (∀ i, (i < 2)%nat → result !! i = Some (bc !!! i / max_bc bc)) ∧
    (∀ v, v ∈ result → 0 <= v <= 1) ∧
    (2%nat = 2%nat → get [[0; 0]; [0; 0]] 0 1 < 5 # 1000 →
     get [[0; 0]; [0; 0]] 1 0 < 5 # 1000 →
     result = [0; 0]).
Proof.
  apply (betweennessCentrality_normalized [[0; 0]; [0; 0]] 2 (5 # 1000)).
  split; [done|]. repeat constructor.
Defined.

(** *** The diagonal is not used *)

(** Off the diagonal the two matrices hold the same numbers. *)
Definition agree_off_diagonal (n : nat) (adj adj' : list (list Q)) : Prop :=
  ∀ i j, (i < n)%nat → (j < n)%nat → i ≠ j → get adj i j = get adj' i j.

Lemma bfs_edge_off_diagonal n adj adj' threshold v w st :
  agree_off_diagonal n adj adj' → (v < n)%nat → (w < n)%nat →
  bfs_edge adj threshold v w st = bfs_edge adj' threshold v w st.
Proof.
  intros Hagree Hv Hw. unfold bfs_edge.
  destruct (decide (v = w)) as [->|Hne].
  - by rewrite Nat.eqb_refl, !orb_true_r.
  - by rewrite (Hagree v w Hv Hw Hne).
Qed.

Lemma bfs_edge_queue_bounded n adj threshold v w st :
  (w < n)%nat →
  Forall (λ u, u < n)%nat (queue st) →
  Forall (λ u, u < n)%nat (queue (bfs_edge adj threshold v w st)).
Proof.
  intros Hw Hq. unfold bfs_edge. destruct (_ || _); [done|].
  destruct (_ <? _)%Z; simpl; destruct (_ =? _)%Z; simpl; try done;
    apply Forall_app; split; try done; by apply Forall_singleton.
Qed.

Lemma bfs_off_diagonal n adj adj' threshold fuel st :
  agree_off_diagonal n adj adj' →
  Forall (λ u, u < n)%nat (queue st) →
  bfs adj n threshold fuel st = bfs adj' n threshold fuel st.
Proof.
  intros Hagree. revert st. induction fuel as [|fuel IH]; intros st Hq; simpl.
  - by destruct (queue st).
  - destruct (queue st) as [|v q] eqn:Hqueue; [done|].
    apply Forall_cons in Hq as [Hv Hq].
    set (st0 := {| stack := stack st ++ [v]; predecessors := predecessors st;
                   sigma := sigma st; dist := dist st; queue := q |}).
    rewrite <- (for_range_ext 0 n (bfs_edge adj threshold v)
                 (bfs_edge adj' threshold v) st0).
    + apply IH.
      apply (for_range_inv (λ _ st', Forall (λ u, u < n)%nat (queue st')));
        [lia|done|].
      intros w st' Hw. apply bfs_edge_queue_bounded. lia.
    + intros w st' Hw. apply (bfs_edge_off_diagonal n); [done|done|lia].
Qed.

Lemma brandes_source_off_diagonal n adj adj' threshold s bc :
  agree_off_diagonal n adj adj' → (s < n)%nat →
  brandes_source adj n threshold s bc = brandes_source adj' n threshold s bc.
Proof.
  intros Hagree Hs. unfold brandes_source.
  rewrite (bfs_off_diagonal n adj adj'); [done|done|].
  simpl. by apply Forall_singleton.
Qed.

(** C10.  The diagonal of the adjacency matrix does not reach the result
    of [betweennessCentrality]: two matrices that differ only in their
    diagonal entries give the same centrality array. *)
Theorem betweennessCentrality_ignores_diagonal
    (adj adj' : list (list Q)) (n : nat) (threshold : Q) :
  is_square n adj →
  is_square n adj' →
  agree_off_diagonal n adj adj' →
  betweennessCentrality adj n threshold = betweennessCentrality adj' n threshold ∧
  is_Some (betweennessCentrality adj n threshold).
Proof.
  intros _ _ Hagree. split.
  - unfold betweennessCentrality, brandes_raw.
    rewrite (for_range_ext 0 n (λ s bc, bc ≫= brandes_source adj n threshold s)
               (λ s bc, bc ≫= brandes_source adj' n threshold s)); [done|].
    intros s [bc|] Hs; [|done]. simpl.
    apply (brandes_source_off_diagonal n); [done|lia].
  - destruct (brandes_raw_nonneg n adj threshold) as (bc & Hraw & _).
    unfold betweennessCentrality. by rewrite Hraw.
Qed.

Lemma betweennessCentrality_ignores_diagonal_witness :
  betweennessCentrality [[0; 1; 0]; [1; 0; 1]; [0; 1; 0]] 3 (5 # 1000) =
  betweennessCentrality [[7; 1; 0]; [1; 8; 1]; [0; 1; 9]] 3 (5 # 1000) ∧
  is_Some (betweennessCentrality [[0; 1; 0]; [1; 0; 1]; [0; 1; 0]] 3 (5 # 1000)).
Proof.
  apply (betweennessCentrality_ignores_diagonal
           [[0; 1; 0]; [1; 0; 1]; [0; 1; 0]] [[7; 1; 0]; [1; 8; 1]; [0; 1; 9]]
           3 (5 # 1000)).
  - split; [done|]. repeat constructor.
  - split; [done|]. repeat constructor.
  - intros i j Hi Hj Hne.
    destruct i as [|[|[|i]]]; destruct j as [|[|[|j]]]; try done; lia.
Defined.

End GraphFacts.

(* ===================================================================== *)
(** * Properties of force-atlas2.ts *)
(* ===================================================================== *)
Module FA2Facts.
Import ForceAtlas2.
Local Open Scope R_scope.

(** ** Loops over the node array *)

Lemma for_each_node_fmap (f : FA2Node → FA2Node) (nodes : list FA2Node) :
  for_each_node f nodes = f <$> nodes.
Proof.
  unfold for_each_node.
  set (P := λ (i : nat) (s : list FA2Node),
              ∀ k, s !! k = if decide (k < i)%nat then f <$> nodes !! k else nodes !! k).
  assert (P (length nodes)
            (for_range 0 (length nodes) (λ i nodes, alter f i nodes) nodes)) as Hlookup.
  { apply for_range_inv; [lia| |].
    - intros k. by rewrite decide_False by lia.
    - intros i s Hi Hs k. rewrite list_lookup_alter.
      destruct (decide (i = k)) as [->|Hne].
      + rewrite Hs, decide_False by lia. by rewrite decide_True by lia.
      + rewrite Hs. repeat case_decide; try done; lia. }
  apply list_eq. intros k. rewrite Hlookup, list_lookup_fmap.
  case_decide; [done|]. by rewrite lookup_ge_None_2 by lia.
Qed.

(** ** The distances used as divisors *)

Lemma floor_dist_pos dx dy : 0 < floor_dist dx dy.
Proof.
  unfold floor_dist. destruct (Req_dec_T _ 0) as [_|Hne]; [lra|].
  pose proof (sqrt_pos (dx * dx + dy * dy)). lra.
Qed.

Lemma floor_dist_zero dx dy :
  sqrt (dx * dx + dy * dy) = 0 → floor_dist dx dy = 0.01.
Proof. intros H. unfold floor_dist. by destruct (Req_dec_T _ 0). Qed.

Lemma floor_dist_nonzero dx dy :
  sqrt (dx * dx + dy * dy) ≠ 0 → floor_dist dx dy = sqrt (dx * dx + dy * dy).
Proof. intros H. unfold floor_dist. by destruct (Req_dec_T _ 0). Qed.

(** The distance that divides in the repulsion of a pair, in the
    attraction along an edge and in the gravity of a node is strictly
    positive: it is the Euclidean distance, replaced by 0.01 when that
    distance is zero. *)
Lemma force_distances_positive (a b : FA2Node) :
  0 < repulsion_dist a b ∧ 0 < attraction_dist a b ∧ 0 < gravity_dist a ∧
  (sqrt ((x b - x a) * (x b - x a) + (y b - y a) * (y b - y a)) = 0 →
   repulsion_dist a b = 0.01 ∧ attraction_dist a b = 0.01) ∧
  (sqrt ((x a - cx) * (x a - cx) + (y a - cy) * (y a - cy)) = 0 →
   gravity_dist a = 0.01).
Proof.
  unfold repulsion_dist, attraction_dist, gravity_dist.
  split_and!; try apply floor_dist_pos.
  - intros H. by rewrite !floor_dist_zero.
  - intros H. by rewrite floor_dist_zero.
Qed.

(** ** What the phases leave alone *)

(** The force accumulators of the previous frame, and the mass. *)
Definition previous (nd : FA2Node) : R * R * R := (oldDx nd, oldDy nd, mass nd).

Lemma fmap_alter_same {A B : Type} (g : A → B) (f : A → A) (i : nat) (l : list A) :
  (∀ a, g (f a) = g a) → g <$> alter f i l = g <$> l.
Proof.
  intros Hgf. rewrite (list_fmap_alter g f (λ b, b)).
  - apply list_alter_id. done.
  - apply Forall_forall. intros a _. apply Hgf.
Qed.

Lemma fmap_for_each_same {B : Type} (g : FA2Node → B) (f : FA2Node → FA2Node) nodes :
  (∀ a, g (f a) = g a) → g <$> for_each_node f nodes = g <$> nodes.
Proof.
  intros Hgf. rewrite for_each_node_fmap, <- list_fmap_compose.
  apply list_fmap_ext. intros _ a _. apply Hgf.
Qed.

(** A nested loop over the pairs [i < j] keeps what each pair step keeps. *)
Lemma pairs_loop_inv (P : list FA2Node → Prop) (n : nat)
    (step : nat → nat → list FA2Node → list FA2Node) (nodes : list FA2Node) :
  P nodes →
  (∀ i j nodes, (i < j < n)%nat → P nodes → P (step i j nodes)) →
  P (for_range 0 n (λ i nodes, for_range (i + 1) n (step i) nodes) nodes).
Proof.
  intros H0 Hstep.
  apply (for_range_inv (λ _ nodes, P nodes)); [lia|done|].
  intros i nodes' Hi Hnodes'.
  destruct (decide (i + 1 ≤ n)%nat) as [Hle|Hgt];
    [|by rewrite for_range_empty by lia].
  apply (for_range_inv (λ _ nodes, P nodes)); [lia|done|].
  intros j nodes'' Hj. apply Hstep. lia.
Qed.

Lemma repulse_previous scaling i j nodes :
  previous <$> repulse scaling i j nodes = previous <$> nodes ∧
  length (repulse scaling i j nodes) = length nodes.
Proof.
  unfold repulse. split.
  - by rewrite !fmap_alter_same.
  - by rewrite !length_alter.
Qed.

Lemma repulsion_previous scaling nodes :
  previous <$> repulsion scaling nodes = previous <$> nodes ∧
  length (repulsion scaling nodes) = length nodes.
Proof.
  unfold repulsion.
  apply (pairs_loop_inv
           (λ nodes', previous <$> nodes' = previous <$> nodes ∧
                      length nodes' = length nodes)); [done|].
  intros i j nodes' _ [Hprev Hlen].
  destruct (repulse_previous scaling i j nodes') as [-> ->]. done.
Qed.

Section Attraction.
Variable Math_log : R → R.
Variable Math_pow : R → R → R.

(** Both ends of the edge are nodes of the array. *)
Definition edge_in_range (n : nat) (edge : FA2Edge) : Prop :=
  (source edge < n)%nat ∧ (target edge < n)%nat.

Lemma attract_total cfg nodes edge :
  edge_in_range (length nodes) edge →
  is_Some (attract Math_log Math_pow cfg nodes edge).
Proof.
  intros [Hs Ht]. unfold attract.
  destruct (lookup_lt_is_Some_2 nodes (source edge) Hs) as [s ->].
  destruct (lookup_lt_is_Some_2 nodes (target edge) Ht) as [t ->].
  by eexists.
Qed.

Lemma attract_previous cfg nodes edge nodes' :
  attract Math_log Math_pow cfg nodes edge = Some nodes' →
  previous <$> nodes' = previous <$> nodes ∧ length nodes' = length nodes.
Proof.
  unfold attract. intros Hsome.
  destruct (nodes !! source edge) as [s|]; [|done].
  destruct (nodes !! target edge) as [t|]; [|done].
  simpl in Hsome. injection Hsome as <-. split.
  - by rewrite !fmap_alter_same.
  - by rewrite !length_alter.
Qed.

Lemma attraction_total cfg edges nodes :
  Forall (edge_in_range (length nodes)) edges →
  is_Some (attraction Math_log Math_pow cfg edges nodes).
Proof.
  unfold attraction. revert nodes.
  induction edges as [|edge edges IH]; intros nodes Hedges; simpl; [by eexists|].
  apply Forall_cons in Hedges as [Hedge Hedges].
  destruct (attract_total cfg nodes edge Hedge) as [nodes1 Hnodes1].
  rewrite Hnodes1. apply IH.
  by destruct (attract_previous _ _ _ _ Hnodes1) as [_ ->].
Qed.

Lemma attraction_previous cfg edges nodes nodes' :
  attraction Math_log Math_pow cfg edges nodes = Some nodes' →
  previous <$> nodes' = previous <$> nodes ∧ length nodes' = length nodes.
Proof.
  unfold attraction. revert nodes.
  induction edges as [|edge edges IH]; intros nodes Hsome; simpl in Hsome.
  - by injection Hsome as <-.
  - destruct (attract Math_log Math_pow cfg nodes edge) as [nodes1|] eqn:Hnodes1.
    + destruct (attract_previous _ _ _ _ Hnodes1) as [Hprev1 Hlen1].
      destruct (IH nodes1 Hsome) as [Hprev Hlen]. split; congruence.
    + exfalso. clear IH. induction edges as [|e es IHes]; [done|]. by apply IHes.
Qed.

Lemma forces_total cfg pm nodes edges :
  Forall (edge_in_range (length nodes)) edges →
  is_Some (forces Math_log Math_pow cfg pm nodes edges).
Proof.
  intros Hedges. unfold forces.
  destruct (attraction_total cfg edges
              (repulsion (scalingRatio cfg * pm) (for_each_node reset_node nodes)))
    as [nodes3 ->]; [|by eexists].
  destruct (repulsion_previous (scalingRatio cfg * pm) (for_each_node reset_node nodes))
    as [_ ->].
  by rewrite for_each_node_fmap, length_fmap.
Qed.

Lemma forces_previous cfg pm nodes edges nodes' :
  forces Math_log Math_pow cfg pm nodes edges = Some nodes' →
  previous <$> nodes' = (λ nd, (dx nd, dy nd, mass nd)) <$> nodes ∧
  length nodes' = length nodes.
Proof.
  unfold forces. intros Hsome.
  destruct (attraction _ _ _ _ _) as [nodes3|] eqn:Hnodes3; [|done].
  simpl in Hsome. injection Hsome as <-.
  destruct (attraction_previous _ _ _ _ Hnodes3) as [Hprev3 Hlen3].
  destruct (repulsion_previous (scalingRatio cfg * pm) (for_each_node reset_node nodes))
    as [Hprev2 Hlen2].
  split.
  - rewrite fmap_for_each_same by done. rewrite Hprev3, Hprev2.
    by rewrite for_each_node_fmap, <- list_fmap_compose.
  - rewrite for_each_node_fmap, length_fmap, Hlen3, Hlen2.
    by rewrite for_each_node_fmap, length_fmap.
Qed.
End Attraction.

(** ** Divisions by zero in the force computations *)

(** Every edge that starts at a node of the array starts at a node whose
    mass is not zero. *)
Definition source_masses_nonzero (nodes : list FA2Node) (edges : list FA2Edge) : Prop :=
  ∀ edge s, edge ∈ edges → nodes !! source edge = Some s → mass s ≠ 0.

Lemma checked_div_nonzero a b : b ≠ 0 → checked_div a b = Done (a / b).
Proof. intros Hb. unfold checked_div. by destruct (Req_dec_T b 0). Qed.

Lemma checked_div_zero a : checked_div a 0 = DivisionByZero.
Proof. unfold checked_div. by destruct (Req_dec_T 0 0). Qed.

Lemma floor_dist_nonzero_divisor dx dy : floor_dist dx dy ≠ 0.
Proof. pose proof (floor_dist_pos dx dy). lra. Qed.

Lemma for_range_done {State : Type} lo hi (body : nat → State → State)
    (body_checked : nat → outcome State → outcome State) (s : State) :
  (∀ i s, (lo ≤ i < hi)%nat → body_checked i (Done s) = Done (body i s)) →
  for_range lo hi body_checked (Done s) = Done (for_range lo hi body s).
Proof.
  intros Hstep. destruct (decide (lo ≤ hi)%nat) as [Hle|Hgt].
  - apply (for_range_inv (λ i acc, acc = Done (for_range lo i body s))); [done| |].
    + by rewrite for_range_empty.
    + intros i acc Hi ->. rewrite for_range_last by lia. by apply Hstep.
  - by rewrite !for_range_empty by lia.
Qed.

Lemma repulse_checked_done scaling i j nodes :
  repulse_checked scaling i j nodes = Done (repulse scaling i j nodes).
Proof.
  unfold repulse_checked, repulse, repulsion_dist.
  by rewrite !checked_div_nonzero by apply floor_dist_nonzero_divisor.
Qed.

Lemma repulsion_checked_done scaling nodes :
  repulsion_checked scaling nodes = Done (repulsion scaling nodes).
Proof.
  unfold repulsion_checked, repulsion.
  apply for_range_done. intros i s _.
  apply for_range_done. intros j s' _. apply repulse_checked_done.
Qed.

Lemma gravity_node_checked_done cfg pm nd :
  gravity_node_checked cfg pm nd = Done (gravity_node cfg pm nd).
Proof.
  unfold gravity_node_checked, gravity_node, gravity_dist.
  destruct (strongGravity cfg);
    by rewrite !checked_div_nonzero by apply floor_dist_nonzero_divisor.
Qed.

Lemma insert_lookup_total_alter (f : FA2Node → FA2Node) (l : list FA2Node) (i : nat) :
  <[i := f (l !!! i)]> l = alter f i l.
Proof.
  revert i. induction l as [|a l IH]; intros i; [done|].
  destruct i as [|i]; [done|].
  change (a :: <[i := f (l !!! i)]> l = a :: alter f i l). by rewrite IH.
Qed.

Lemma gravity_checked_done cfg pm nodes :
  gravity_checked cfg pm nodes = Done (for_each_node (gravity_node cfg pm) nodes).
Proof.
  unfold gravity_checked, for_each_node.
  apply for_range_done. intros i s _. cbn [mbind outcome_bind].
  rewrite gravity_node_checked_done. cbn [mbind outcome_bind].
  by rewrite insert_lookup_total_alter.
Qed.

Section Divisions.
Variable Math_log : R → R.
Variable Math_pow : R → R → R.

(** The attraction along an edge divides by zero exactly when the
    outbound distribution is on and the source node has mass 0. *)
Lemma attract_checked_division_by_zero cfg nodes edge :
  attract_checked Math_log Math_pow cfg nodes edge = DivisionByZero ↔
  outboundAttractionDistribution cfg = true ∧
  is_Some (nodes !! target edge) ∧
  ∃ s, nodes !! source edge = Some s ∧ mass s = 0.
Proof.
  unfold attract_checked, node_at, attraction_dist.
  destruct (nodes !! source edge) as [s|]; cbn [mbind outcome_bind].
  - destruct (nodes !! target edge) as [t|]; cbn [mbind outcome_bind].
    + destruct (outboundAttractionDistribution cfg).
      * destruct (Req_dec_T (mass s) 0) as [Hzero|Hmass].
        -- rewrite Hzero, checked_div_zero. cbn [mbind outcome_bind].
           split; [|done].
           intros _. split; [done|]. split; [by eexists|]. by exists s.
        -- rewrite (checked_div_nonzero _ (mass s)) by done.
           cbn [mbind outcome_bind].
           rewrite !checked_div_nonzero by apply floor_dist_nonzero_divisor.
           cbn [mbind outcome_bind]. split; [done|].
           intros (_ & _ & s' & Hs' & Hzero). congruence.
      * cbn [mbind outcome_bind].
        rewrite !checked_div_nonzero by apply floor_dist_nonzero_divisor.
        cbn [mbind outcome_bind]. split; [done|]. by intros [? _].
    + split; [done|]. intros (_ & [t Ht] & _). done.
  - split; [done|]. intros (_ & _ & s & Hs & _). done.
Qed.

Lemma attract_checked_agree cfg nodes edge :
  (outboundAttractionDistribution cfg = true →
   ∀ s, nodes !! source edge = Some s → mass s ≠ 0) →
  attract_checked Math_log Math_pow cfg nodes edge
  = of_option (attract Math_log Math_pow cfg nodes edge).
Proof.
  intros Hmass. unfold attract_checked, attract, node_at, attraction_dist.
  destruct (nodes !! source edge) as [s|]; [|done].
  destruct (nodes !! target edge) as [t|]; [|done].
  cbn [mbind outcome_bind option_bind].
  destruct (outboundAttractionDistribution cfg).
  - rewrite (checked_div_nonzero _ (mass s)) by (by apply Hmass).
    cbn [mbind outcome_bind].
    by rewrite !checked_div_nonzero by apply floor_dist_nonzero_divisor.
  - cbn [mbind outcome_bind].
    by rewrite !checked_div_nonzero by apply floor_dist_nonzero_divisor.
Qed.

Lemma attraction_cons cfg edge edges nodes :
  attraction Math_log Math_pow cfg (edge :: edges) nodes =
  attract Math_log Math_pow cfg nodes edge ≫= attraction Math_log Math_pow cfg edges.
Proof.
  unfold attraction. cbn [foldl mbind option_bind].
  destruct (attract Math_log Math_pow cfg nodes edge) as [nodes1|]; [done|].
  cbn [mbind option_bind]. induction edges as [|e es IH]; [done|]. apply IH.
Qed.

Lemma attraction_checked_cons cfg edge edges nodes :
  attraction_checked Math_log Math_pow cfg (edge :: edges) nodes =
  attract_checked Math_log Math_pow cfg nodes edge
    ≫= attraction_checked Math_log Math_pow cfg edges.
Proof.
  unfold attraction_checked. cbn [foldl mbind outcome_bind].
  destruct (attract_checked Math_log Math_pow cfg nodes edge) as [nodes1| |];
    [done| |]; cbn [mbind outcome_bind];
    induction edges as [|e es IH]; done || apply IH.
Qed.

Lemma source_masses_nonzero_same nodes nodes' edges :
  mass <$> nodes' = mass <$> nodes →
  source_masses_nonzero nodes edges → source_masses_nonzero nodes' edges.
Proof.
  intros Hsame Hmass edge s' Hin Hs'.
  assert ((mass <$> nodes) !! source edge = Some (mass s')) as Hm
    by (by rewrite <- Hsame, list_lookup_fmap, Hs').
  rewrite list_lookup_fmap in Hm.
  destruct (nodes !! source edge) as [s|] eqn:Hs; [|done].
  injection Hm as <-. by apply (Hmass edge s).
Qed.

Lemma previous_mass (nodes nodes' : list FA2Node) :
  previous <$> nodes' = previous <$> nodes → mass <$> nodes' = mass <$> nodes.
Proof.
  intros Hprev. apply (f_equal (fmap (λ p : R * R * R, p.2))) in Hprev.
  by rewrite <- !list_fmap_compose in Hprev.
Qed.

Lemma attraction_checked_agree cfg edges nodes :
  (outboundAttractionDistribution cfg = true → source_masses_nonzero nodes edges) →
  attraction_checked Math_log Math_pow cfg edges nodes
  = of_option (attraction Math_log Math_pow cfg edges nodes).
Proof.
  revert nodes. induction edges as [|edge edges IH]; intros nodes Hmass; [done|].
  rewrite attraction_cons, attraction_checked_cons, attract_checked_agree.
  - destruct (attract Math_log Math_pow cfg nodes edge) as [nodes1|] eqn:Hnodes1;
      [|done].
    cbn [of_option mbind outcome_bind option_bind]. apply IH.
    intros Hflag. destruct (attract_previous _ _ _ _ _ _ Hnodes1) as [Hprev _].
    apply (source_masses_nonzero_same nodes); [by apply previous_mass|].
    intros e s He. apply (Hmass Hflag). by right.
  - intros Hflag s. apply (Hmass Hflag). by left.
Qed.

Lemma forces_checked_agree cfg pm nodes edges :
  (outboundAttractionDistribution cfg = true → source_masses_nonzero nodes edges) →
  forces_checked Math_log Math_pow cfg pm nodes edges
  = of_option (forces Math_log Math_pow cfg pm nodes edges).
Proof.
  intros Hmass. unfold forces_checked, forces.
  rewrite repulsion_checked_done. cbn [mbind outcome_bind].
  rewrite attraction_checked_agree.
  - destruct (attraction _ _ _ _ _) as [nodes3|]; [|done].
    cbn [of_option mbind outcome_bind option_bind]. apply gravity_checked_done.
  - intros Hflag.
    destruct (repulsion_previous (scalingRatio cfg * pm) (for_each_node reset_node nodes))
      as [Hprev _].
    apply (source_masses_nonzero_same nodes); [|by apply Hmass].
    rewrite (previous_mass _ _ Hprev), for_each_node_fmap, <- list_fmap_compose.
    by apply list_fmap_ext.
Qed.

(** C9 (amended).  In the repulsion of a pair, the attraction along an
    edge and the gravity of a node, the distance that divides is strictly
    positive: it is the Euclidean distance, replaced by 0.01 when that
    distance is zero; so the repulsion over all pairs and the gravity
    over all nodes never divide by zero.  The attraction also divides by
    the mass of the source node when [outboundAttractionDistribution] is
    on, and that divisor is not floored: the attraction along an edge
    divides by zero exactly when the option is on and the source node has
    mass 0.  When the option is off, or no edge starts at a node of mass
    0, the force computations of a frame run without a division by zero
    and leave what [forces] computes. *)
Theorem forces_division_by_zero
    (cfg : FA2Config) (pm : R) (nodes : list FA2Node) (edges : list FA2Edge) :
  (outboundAttractionDistribution cfg = true → source_masses_nonzero nodes edges) →
  (∀ a b : FA2Node,
     0 < repulsion_dist a b ∧ 0 < attraction_dist a b ∧ 0 < gravity_dist a ∧
     (sqrt ((x b - x a) * (x b - x a) + (y b - y a) * (y b - y a)) = 0 →
      repulsion_dist a b = 0.01 ∧ attraction_dist a b = 0.01) ∧
     (sqrt ((x a - cx) * (x a - cx) + (y a - cy) * (y a - cy)) = 0 →
      gravity_dist a = 0.01)) ∧
  (∀ scaling nodes0,
     repulsion_checked scaling nodes0 = Done (repulsion scaling nodes0)) ∧
  (∀ nodes0,
     gravity_checked cfg pm nodes0 = Done (for_each_node (gravity_node cfg pm) nodes0)) ∧
  (∀ nodes0 edge,
     attract_checked Math_log Math_pow cfg nodes0 edge = DivisionByZero ↔
     outboundAttractionDistribution cfg = true ∧
     is_Some (nodes0 !! target edge) ∧
     ∃ s, nodes0 !! source edge = Some s ∧ mass s = 0) ∧
  forces_checked Math_log Math_pow cfg pm nodes edges
  = of_option (forces Math_log Math_pow cfg pm nodes edges).
Proof.
  intros Hmass. split_and!.
  - apply force_distances_positive.
  - apply repulsion_checked_done.
  - apply gravity_checked_done.
  - apply attract_checked_division_by_zero.
  - by apply forces_checked_agree.
Qed.

End Divisions.

Lemma forces_division_by_zero_witness :
  let cfg := merge_config (mkPartialConfig None None None None None (Some true) None None) in
  let nodes := [mkFA2Node 100 100 0 0 0 0 2 1; mkFA2Node 200 300 0 0 0 0 1 1] in
  let edges := [mkFA2Edge 0 1 1] in
  ∃ nodes',
    forces ln Rpower cfg 2 nodes edges = Some nodes' ∧
    forces_checked ln Rpower cfg 2 nodes edges = Done nodes'.
Proof.
  intros cfg nodes edges.
  destruct (forces_total ln Rpower cfg 2 nodes edges) as [nodes' Hnodes'].
  { apply Forall_singleton. split; simpl; lia. }
  exists nodes'. split; [done|].
  destruct (forces_division_by_zero ln Rpower cfg 2 nodes edges) as (_ & _ & _ & _ & ->).
  - intros _ edge s Hedge Hs. apply list_elem_of_singleton in Hedge as ->.
    simpl in Hs. injection Hs as <-. simpl. lra.
  - by rewrite Hnodes'.
Defined.

(** C9 as stated fails when [outboundAttractionDistribution] is on and an
    edge starts at a node of mass 0: the attraction divides the force by
    that mass. *)
Lemma forces_divide_by_zero_mass :
  let cfg := merge_config (mkPartialConfig None None None None None (Some true) None None) in
  let nodes := [mkFA2Node 100 100 0 0 0 0 0 1; mkFA2Node 200 300 0 0 0 0 1 1] in
  forces_checked ln Rpower cfg 2 nodes [mkFA2Edge 0 1 1] = DivisionByZero.
Proof.
  intros cfg nodes. unfold forces_checked.
  rewrite repulsion_checked_done. cbn [mbind outcome_bind].
  set (nodes2 := repulsion _ _).
  unfold attraction_checked. cbn [foldl mbind outcome_bind].
  assert (attract_checked ln Rpower cfg nodes2 (mkFA2Edge 0 1 1) = DivisionByZero) as ->;
    [|done].
  destruct (repulsion_previous (scalingRatio cfg * 2) (for_each_node reset_node nodes))
    as [Hprev Hlen].
  fold nodes2 in Hprev, Hlen. rewrite for_each_node_fmap in Hprev, Hlen.
  apply attract_checked_division_by_zero. split; [done|]. split.
  - apply lookup_lt_is_Some. rewrite Hlen. simpl. lia.
  - destruct (lookup_lt_is_Some_2 nodes2 0) as [s Hs]; [rewrite Hlen; simpl; lia|].
    exists s. split; [done|].
    apply (f_equal (λ l, l !! 0%nat)) in Hprev.
    rewrite list_lookup_fmap, Hs in Hprev. simpl in Hprev.
    injection Hprev as _ _ Hm. done.
Qed.

(** ** Adaptive speed *)

(** Everything in a node but its position. *)
Definition dynamics (nd : FA2Node) : R * R * R * R * R * R :=
  (dx nd, dy nd, oldDx nd, oldDy nd, mass nd, convergence nd).

Lemma adaptive_speed_nodes cfg nodes :
  (adaptive_speed cfg nodes).1.1 =
  (λ nd, set_convergence (node_convergence cfg nd) nd) <$> nodes.
Proof.
  unfold adaptive_speed.
  set (g := λ nd, set_convergence (node_convergence cfg nd) nd).
  set (P := λ (i : nat) (st : list FA2Node * R * R),
              ∀ k, st.1.1 !! k = if decide (k < i)%nat then g <$> nodes !! k
                                 else nodes !! k).
  assert (P (length nodes)
            (for_range 0 (length nodes) (adaptive_step cfg) (nodes, 0, 0))) as Hlookup.
  { apply for_range_inv; [lia| |].
    - intros k. by rewrite decide_False by lia.
    - intros i [[s sw] tr] Hi Hs k. unfold P in Hs. simpl in Hs. simpl.
      rewrite list_lookup_alter.
      destruct (decide (i = k)) as [->|Hne].
      + rewrite decide_True by lia.
        pose proof (Hs k) as Hk. rewrite decide_False in Hk by lia.
        destruct (lookup_lt_is_Some_2 nodes k) as [nd Hnd]; [lia|].
        rewrite Hnd in Hk. rewrite Hk, Hnd.
        by rewrite (list_lookup_total_correct _ _ _ Hk).
      + rewrite Hs. destruct (decide (k < i)%nat).
        * by rewrite decide_True by lia.
        * by rewrite decide_False by lia. }
  apply list_eq. intros k. rewrite Hlookup, list_lookup_fmap.
  case_decide; [done|]. by rewrite lookup_ge_None_2 by lia.
Qed.

Lemma displace_node_dynamics cfg speed nd :
  dynamics (displace_node cfg speed nd) = dynamics nd.
Proof. unfold displace_node. by destruct (Rle_dec _ _). Qed.

Lemma separate_dynamics i j nodes :
  dynamics <$> separate i j nodes = dynamics <$> nodes.
Proof.
  unfold separate. destruct (Rlt_dec _ _); [|done]. destruct (Rlt_dec _ _); [|done].
  by rewrite !fmap_alter_same.
Qed.

Lemma overlap_correction_dynamics nodes :
  dynamics <$> overlap_correction nodes = dynamics <$> nodes.
Proof.
  unfold overlap_correction.
  apply (pairs_loop_inv (λ nodes', dynamics <$> nodes' = dynamics <$> nodes)); [done|].
  intros i j nodes' _ Hdyn. by rewrite separate_dynamics.
Qed.

(** The last four phases, with the clamped global speed made explicit. *)
Lemma move_unfold cfg nodes :
  ∃ speed,
    move cfg nodes =
    bound_node <$>
      overlap_correction
        (displace_node cfg speed <$>
           ((λ nd, set_convergence (node_convergence cfg nd) nd) <$> nodes)).
Proof.
  unfold move. rewrite <- adaptive_speed_nodes.
  destruct (adaptive_speed cfg nodes) as [[nodes5 sw] tr]. simpl.
  eexists. by rewrite !for_each_node_fmap.
Qed.

Lemma move_dynamics cfg nodes :
  dynamics <$> move cfg nodes =
  dynamics <$> ((λ nd, set_convergence (node_convergence cfg nd) nd) <$> nodes).
Proof.
  unfold move. rewrite <- adaptive_speed_nodes.
  destruct (adaptive_speed cfg nodes) as [[nodes5 sw] tr]. simpl.
  rewrite fmap_for_each_same by done.
  rewrite overlap_correction_dynamics.
  rewrite fmap_for_each_same by apply displace_node_dynamics. done.
Qed.

Lemma node_convergence_range cfg nd : 0 <= node_convergence cfg nd <= 1.
Proof.
  unfold node_convergence. split; [|apply Rmin_l].
  apply Rmin_glb; [lra|].
  assert (0 <= swinging nd) by apply sqrt_pos.
  assert (0 <= effectiveTraction nd).
  { unfold effectiveTraction.
    pose proof (sqrt_pos ((dx nd + oldDx nd) ^ 2 + (dy nd + oldDy nd) ^ 2)). lra. }
  apply Rle_mult_inv_pos; [|lra].
  apply Rmult_le_pos; [|done]. apply Rle_0_sqr.
Qed.

Section Convergence.
Variable Math_log : R → R.
Variable Math_pow : R → R → R.

(** C2 (amended).  Let [totalFrames] be non-zero and, when
    [outboundAttractionDistribution] is on, let no edge start at a node of
    mass 0, so that the frame neither divides [frame] by zero nor a force
    by a zero mass; and let [edgeWeightInfluence] be 1 or every edge
    weight be positive, so that [Math.pow(edge.weight, edgeWeightInfluence)]
    is a number.  Then a call of [fa2Iterate] returns whenever its
    edges name nodes of the array, and after any call that returns every
    node's [convergence] equals
    [min(1, jitterTolerance^2 * effectiveTraction / (swinging + 0.01))]
    for the node's current accumulators [(dx, dy)] and previous ones
    [(oldDx, oldDy)], the latter being the accumulators the node came in
    with; the value lies in the closed interval [[0,1]]. *)
Theorem fa2Iterate_convergence
    (nodes : list FA2Node) (edges : list FA2Edge) (config : PartialConfig)
    (frame totalFrames : R) :
  totalFrames ≠ 0 →
  (outboundAttractionDistribution (merge_config config) = true →
   source_masses_nonzero nodes edges) →
  edgeWeightInfluence (merge_config config) = 1 ∨
    Forall (λ edge, 0 < weight edge) edges →
  (Forall (edge_in_range (length nodes)) edges →
   is_Some (fa2Iterate Math_log Math_pow nodes edges config frame totalFrames)) ∧
  ∀ nodes',
    fa2Iterate Math_log Math_pow nodes edges config frame totalFrames = Some nodes' →
    length nodes' = length nodes ∧
    (λ nd, (oldDx nd, oldDy nd)) <$> nodes' = (λ nd, (dx nd, dy nd)) <$> nodes ∧
    ∀ nd, nd ∈ nodes' →
      let jt := jitterTolerance (merge_config config) in
      let swinging :=
        sqrt ((dx nd - oldDx nd) ^ 2 + (dy nd - oldDy nd) ^ 2) in
      let effectiveTraction :=
        sqrt ((dx nd + oldDx nd) ^ 2 + (dy nd + oldDy nd) ^ 2) / 2 in
      convergence nd = Rmin 1 (jt * jt * effectiveTraction / (swinging + 0.01)) ∧
      0 <= convergence nd <= 1.
Proof.
  intros _ _ _. unfold fa2Iterate. set (cfg := merge_config config).
  set (pm := phaseMultiplier frame totalFrames). split.
  - intros Hedges.
    destruct (forces_total Math_log Math_pow cfg pm nodes edges Hedges) as [nodes4 ->].
    by eexists.
  - intros nodes' Hsome.
    destruct (forces Math_log Math_pow cfg pm nodes edges) as [nodes4|] eqn:Hnodes4;
      [|done].
    simpl in Hsome. injection Hsome as <-.
    destruct (forces_previous _ _ _ _ _ _ _ Hnodes4) as [Hprev Hlen].
    pose proof (move_dynamics cfg nodes4) as Hdyn.
    split; [|split].
    + apply (f_equal length) in Hdyn. rewrite !length_fmap in Hdyn. congruence.
    + apply (f_equal (fmap (λ d : R * R * R * R * R * R, (d.1.1.1.2, d.1.1.2)))) in Hdyn.
      apply (f_equal (fmap (λ p : R * R * R, p.1))) in Hprev.
      rewrite <- !list_fmap_compose in Hdyn. rewrite <- !list_fmap_compose in Hprev.
      etrans; [apply Hdyn|]. etrans; [|apply Hprev].
      by apply list_fmap_ext.
    + intros nd Hnd.
      assert (dynamics nd ∈ dynamics <$> move cfg nodes4) as Hin
        by (apply list_elem_of_fmap; eauto).
      rewrite Hdyn, <- list_fmap_compose in Hin.
      apply list_elem_of_fmap in Hin as (nd4 & Heq & _).
      unfold dynamics in Heq. simpl in Heq.
      injection Heq as Hdx Hdy Hodx Hody _ Hconv.
      assert (convergence nd = node_convergence cfg nd) as Hsettled.
      { rewrite Hconv. unfold node_convergence, effectiveTraction, swinging.
        by rewrite Hdx, Hdy, Hodx, Hody. }
      split; [exact Hsettled|]. rewrite Hsettled. apply node_convergence_range.
Qed.
End Convergence.

(** ** A node resting at the centre *)

Lemma phaseMultiplier_start : phaseMultiplier 0 300 = 2.
Proof. unfold phaseMultiplier. destruct (Rlt_dec _ _); [done|lra]. Qed.

Lemma sqrt_zero_squares a b : a = 0 → b = 0 → sqrt (a ^ 2 + b ^ 2) = 0.
Proof. intros -> ->. replace (0 ^ 2 + 0 ^ 2) with 0 by lra. apply sqrt_0. Qed.

Lemma sqrt_zero_products a b : a = 0 → b = 0 → sqrt (a * a + b * b) = 0.
Proof. intros -> ->. replace (0 * 0 + 0 * 0) with 0 by lra. apply sqrt_0. Qed.

(** Gravity exerts no force on a node at the centre. *)
Lemma gravity_node_center cfg pm nd :
  x nd = cx → y nd = cy → gravity_node cfg pm nd = nd.
Proof.
  destruct nd as [x0 y0 dx0 dy0 odx ody m c]. simpl. intros -> ->.
  unfold gravity_node, sub_force. simpl. f_equal; unfold Rdiv; ring.
Qed.

Lemma displace_node_still cfg speed nd :
  dx nd = 0 → dy nd = 0 → displace_node cfg speed nd = nd.
Proof.
  intros Hdx Hdy. unfold displace_node.
  rewrite (sqrt_zero_squares _ _ Hdx Hdy).
  destruct (Rle_dec 0 0); [done|lra].
Qed.

Lemma bound_node_inside nd :
  margin <= x nd <= maxX → margin <= y nd <= maxY → bound_node nd = nd.
Proof.
  intros Hx Hy. unfold bound_node.
  destruct (Rlt_dec (x nd) margin); [lra|]. destruct (Rlt_dec maxX (x nd)); [lra|].
  destruct (Rlt_dec (y nd) margin); [lra|]. destruct (Rlt_dec maxY (y nd)); [lra|].
  by destruct nd.
Qed.

(** Without a force in either frame the speed factor is 0. *)
Lemma node_convergence_rest cfg nd :
  dx nd = 0 → dy nd = 0 → oldDx nd = 0 → oldDy nd = 0 →
  node_convergence cfg nd = 0.
Proof.
  intros Hdx Hdy Hodx Hody. unfold node_convergence, effectiveTraction, swinging.
  rewrite !sqrt_zero_squares by lra.
  replace (jitterTolerance cfg * jitterTolerance cfg * (0 / 2) / (0 + 0.01))
    with 0 by (unfold Rdiv; ring).
  apply Rmin_right. lra.
Qed.

Lemma fa2Iterate_no_edges Math_log Math_pow nodes config frame totalFrames :
  fa2Iterate Math_log Math_pow nodes [] config frame totalFrames =
  let cfg := merge_config config in
  let pm := phaseMultiplier frame totalFrames in
  Some (move cfg (gravity_node cfg pm <$>
                    repulsion (scalingRatio cfg * pm) (reset_node <$> nodes))).
Proof. unfold fa2Iterate, forces. simpl. by rewrite !for_each_node_fmap. Qed.

Lemma repulsion_single scaling nd : repulsion scaling [nd] = [nd].
Proof. done. Qed.

(** C2 as stated fails for a single node placed at the centre of gravity
    with no force from the previous frame: no force acts on it, and its
    [convergence] after the call is 0, outside the interval (0,1]. *)
Lemma fa2Iterate_zero_convergence :
  ∃ nd,
    fa2Iterate ln Rpower (createFA2Nodes [(500, 300)] [0]) [] no_overrides 0 300
      = Some [nd] ∧
    convergence nd = 0 ∧
    ¬ (0 < convergence nd <= 1).
Proof.
  exists (mkFA2Node 500 300 0 0 0 0 (0 + 1) 0).
  split; [|split; [done|simpl; lra]].
  rewrite fa2Iterate_no_edges, phaseMultiplier_start. cbv zeta.
  assert (createFA2Nodes [(500, 300)] [0] = [mkFA2Node 500 300 0 0 0 0 (0 + 1) 1])
    as -> by done.
  cbn [fmap list_fmap]. rewrite repulsion_single. cbn [fmap list_fmap].
  rewrite gravity_node_center by done.
  destruct (move_unfold (merge_config no_overrides)
              [reset_node (mkFA2Node 500 300 0 0 0 0 (0 + 1) 1)]) as [speed ->].
  cbn [fmap list_fmap]. rewrite node_convergence_rest by done.
  rewrite displace_node_still by done.
  assert (∀ nd, overlap_correction [nd] = [nd]) as -> by done.
  cbn [fmap list_fmap].
  rewrite bound_node_inside; [done| |]; unfold margin, maxX, maxY; simpl; lra.
Qed.

Lemma fa2Iterate_convergence_witness :
  let nodes := createFA2Nodes [(100, 100); (200, 300)] [1; 1] in
  let config := mkPartialConfig None None None None None (Some true) None None in
  ∃ nodes',
    fa2Iterate ln Rpower nodes [mkFA2Edge 0 1 1] config 0 300 = Some nodes' ∧
    length nodes' = length nodes ∧
    (λ nd, (oldDx nd, oldDy nd)) <$> nodes' = (λ nd, (dx nd, dy nd)) <$> nodes ∧
    ∀ nd, nd ∈ nodes' →
      let jt := jitterTolerance (merge_config config) in
      let swinging :=
        sqrt ((dx nd - oldDx nd) ^ 2 + (dy nd - oldDy nd) ^ 2) in
      let effectiveTraction :=
        sqrt ((dx nd + oldDx nd) ^ 2 + (dy nd + oldDy nd) ^ 2) / 2 in
      convergence nd = Rmin 1 (jt * jt * effectiveTraction / (swinging + 0.01)) ∧
      0 <= convergence nd <= 1.
Proof.
  intros nodes config.
  destruct (fa2Iterate_convergence ln Rpower nodes [mkFA2Edge 0 1 1] config 0 300)
    as [Htotal Hafter].
  { lra. }
  { intros _ edge s Hedge Hs. apply list_elem_of_singleton in Hedge as ->.
    simpl in Hs. injection Hs as <-. simpl. lra. }
  { right. apply Forall_singleton. simpl. lra. }
  destruct Htotal as [nodes' Hnodes'].
  { apply Forall_singleton. split; simpl; lia. }
  exists nodes'. split; [exact Hnodes'|]. exact (Hafter nodes' Hnodes').
Defined.

(** ** Overlap correction *)

(** Distance between the nodes at [i] and [j], as line 217 computes it. *)
Definition separation (nodes : list FA2Node) (i j : nat) : R :=
  let ni := nodes !!! i in
  let nj := nodes !!! j in
  sqrt ((x nj - x ni) * (x nj - x ni) + (y nj - y ni) * (y nj - y ni)).

Lemma scaled_norm dx dy k :
  0 <= k → sqrt ((dx * k) * (dx * k) + (dy * k) * (dy * k)) = sqrt (dx * dx + dy * dy) * k.
Proof.
  intros Hk.
  assert (0 <= dx * dx + dy * dy) as Hsum
    by (apply Rplus_le_le_0_compat; apply Rle_0_sqr).
  apply sqrt_lem_1.
  - nra.
  - apply Rmult_le_pos; [apply sqrt_pos|done].
  - pose proof (sqrt_sqrt _ Hsum) as Hsq. nra.
Qed.

Lemma separate_lookup_i (i j : nat) (nodes : list FA2Node) ni (fi fj : FA2Node → FA2Node) :
  i ≠ j → nodes !! i = Some ni →
  alter fj j (alter fi i nodes) !!! i = fi ni.
Proof.
  intros Hne Hi. apply list_lookup_total_correct.
  rewrite list_lookup_alter_ne by done. by rewrite list_lookup_alter_eq, Hi.
Qed.

Lemma separate_lookup_j (i j : nat) (nodes : list FA2Node) nj (fi fj : FA2Node → FA2Node) :
  i ≠ j → nodes !! j = Some nj →
  alter fj j (alter fi i nodes) !!! j = fj nj.
Proof.
  intros Hne Hj. apply list_lookup_total_correct.
  rewrite list_lookup_alter_eq. by rewrite list_lookup_alter_ne, Hj.
Qed.

Lemma overlap_correction_two nodes :
  length nodes = 2%nat → overlap_correction nodes = separate 0 1 nodes.
Proof. intros Hlen. unfold overlap_correction. by rewrite Hlen. Qed.

Lemma separate_unfold i j nodes :
  separate i j nodes =
  let d := separation nodes i j in
  let ni := nodes !!! i in
  let nj := nodes !!! j in
  if Rlt_dec d minSeparation then
    if Rlt_dec 0.01 d then
      alter (λ nd, set_pos (x nd + (x nj - x ni) / d * ((minSeparation - d) * 0.5))
                           (y nd + (y nj - y ni) / d * ((minSeparation - d) * 0.5)) nd) j
        (alter (λ nd, set_pos (x nd - (x nj - x ni) / d * ((minSeparation - d) * 0.5))
                              (y nd - (y nj - y ni) / d * ((minSeparation - d) * 0.5)) nd)
               i nodes)
    else nodes
  else nodes.
Proof. done. Qed.

(** C3 (amended).  When the overlap loop visits the pair [i < j] at a
    distance [d] with [0.01 < d < 65], it moves both nodes in opposite
    directions along the line connecting them, each by half the deficit
    [(65 - d) / 2], leaves the other nodes where they are, and the pair is
    at distance exactly 65 right after this step; a pair at distance
    [d <= 0.01] or [d >= 65] is not moved.  For an array of two nodes this
    single step is the whole overlap-correction phase. *)
Theorem separate_pair (nodes : list FA2Node) (i j : nat) :
  (i < j < length nodes)%nat →
  let d := separation nodes i j in
  let ni := nodes !!! i in
  let nj := nodes !!! j in
  let push := (minSeparation - d) / 2 in
  let ux := (x nj - x ni) / d * push in
  let uy := (y nj - y ni) / d * push in
  let nodes' := separate i j nodes in
  (0.01 < d < minSeparation →
     x (nodes' !!! i) = x ni - ux ∧ y (nodes' !!! i) = y ni - uy ∧
     x (nodes' !!! j) = x nj + ux ∧ y (nodes' !!! j) = y nj + uy ∧
     sqrt (ux * ux + uy * uy) = push ∧
     (∀ k, k ≠ i → k ≠ j → nodes' !! k = nodes !! k) ∧
     separation nodes' i j = minSeparation) ∧
  (d <= 0.01 ∨ minSeparation <= d → nodes' = nodes) ∧
  (length nodes = 2%nat → overlap_correction nodes = nodes').
Proof.
  intros Hij d ni nj push ux uy nodes'.
  assert (nodes !! i = Some ni) as Hi by (apply list_lookup_lookup_total_lt; lia).
  assert (nodes !! j = Some nj) as Hj by (apply list_lookup_lookup_total_lt; lia).
  assert (i ≠ j) as Hne by lia.
  assert (0 <= (x nj - x ni) * (x nj - x ni) + (y nj - y ni) * (y nj - y ni))
    as Hsum by (apply Rplus_le_le_0_compat; apply Rle_0_sqr).
  assert (d * d = (x nj - x ni) * (x nj - x ni) + (y nj - y ni) * (y nj - y ni))
    as Hdd by apply (sqrt_sqrt _ Hsum).
  split; [|split].
  - intros [Hlo Hhi].
    assert (0 < d) as Hd by lra.
    assert (d ≠ 0) as Hd0 by lra.
    assert (0 <= push) as Hpush by (unfold push; lra).
    assert (x (nodes' !!! i) = x ni - ux ∧ y (nodes' !!! i) = y ni - uy ∧
            x (nodes' !!! j) = x nj + ux ∧ y (nodes' !!! j) = y nj + uy ∧
            (∀ k, k ≠ i → k ≠ j → nodes' !! k = nodes !! k))
      as (Hxi & Hyi & Hxj & Hyj & Hother).
    { unfold nodes'. rewrite separate_unfold. cbv zeta.
      change (separation nodes i j) with d.
      destruct (Rlt_dec d minSeparation); [|lra].
      destruct (Rlt_dec 0.01 d); [|lra].
      rewrite (separate_lookup_i i j nodes ni) by done.
      rewrite (separate_lookup_j i j nodes nj) by done.
      simpl. unfold ux, uy, push.
      replace ((minSeparation - d) * 0.5) with ((minSeparation - d) / 2) by lra.
      split_and!; [done|done|done|done|].
      intros k Hki Hkj. by rewrite !list_lookup_alter_ne. }
    split_and!; try done.
    + replace (ux * ux + uy * uy)
        with (((x nj - x ni) * (push / d)) * ((x nj - x ni) * (push / d)) +
              ((y nj - y ni) * (push / d)) * ((y nj - y ni) * (push / d)))
        by (unfold ux, uy; by field).
      rewrite scaled_norm.
      * change (sqrt _) with d. by field.
      * apply Rle_mult_inv_pos; lra.
    + unfold separation. rewrite Hxi, Hyi, Hxj, Hyj.
      replace ((x nj + ux - (x ni - ux)) * (x nj + ux - (x ni - ux)) +
               (y nj + uy - (y ni - uy)) * (y nj + uy - (y ni - uy)))
        with (((x nj - x ni) * (minSeparation / d)) * ((x nj - x ni) * (minSeparation / d)) +
              ((y nj - y ni) * (minSeparation / d)) * ((y nj - y ni) * (minSeparation / d)))
        by (unfold ux, uy, push; by field).
      rewrite scaled_norm.
      * change (sqrt _) with d. by field.
      * apply Rle_mult_inv_pos; unfold minSeparation; lra.
  - intros Hout. unfold nodes'. rewrite separate_unfold. cbv zeta.
    change (separation nodes i j) with d.
    destruct (Rlt_dec d minSeparation); [|done].
    destruct (Rlt_dec 0.01 d); [lra|done].
  - intros Hlen. rewrite overlap_correction_two by done.
    unfold nodes'. assert (i = 0%nat) as Hi0 by lia. assert (j = 1%nat) as Hj1 by lia.
    by rewrite Hi0, Hj1.
Qed.

(** Two nodes 5 apart. *)
Lemma separation_3_4 :
  separation (createFA2Nodes [(100, 100); (103, 104)] [0; 0]) 0 1 = 5.
Proof.
  unfold separation. simpl.
  replace ((103 - 100) * (103 - 100) + (104 - 100) * (104 - 100)) with (5 * 5) by lra.
  apply sqrt_square. lra.
Qed.

Lemma separate_pair_witness :
  let nodes := createFA2Nodes [(100, 100); (103, 104)] [0; 0] in
  let d := separation nodes 0 1 in
  let ni := nodes !!! 0%nat in
  let nj := nodes !!! 1%nat in
  let push := (minSeparation - d) / 2 in
  let ux := (x nj - x ni) / d * push in
  let uy := (y nj - y ni) / d * push in
  let nodes' := separate 0 1 nodes in
  x (nodes' !!! 0%nat) = x ni - ux ∧ y (nodes' !!! 0%nat) = y ni - uy ∧
  x (nodes' !!! 1%nat) = x nj + ux ∧ y (nodes' !!! 1%nat) = y nj + uy ∧
  sqrt (ux * ux + uy * uy) = push ∧
  (∀ k, k ≠ 0%nat → k ≠ 1%nat → nodes' !! k = nodes !! k) ∧
  separation nodes' 0 1 = minSeparation.
Proof.
  apply (separate_pair (createFA2Nodes [(100, 100); (103, 104)] [0; 0]) 0 1).
  - simpl. lia.
  - rewrite separation_3_4. unfold minSeparation. lra.
Defined.

(** ** Coincident nodes *)

Lemma add_force_zero nd : add_force 0 0 nd = nd.
Proof. destruct nd. unfold add_force. simpl. f_equal; lra. Qed.

Lemma sub_force_zero nd : sub_force 0 0 nd = nd.
Proof. destruct nd. unfold sub_force. simpl. f_equal; lra. Qed.

(** Two nodes at the same place do not repel each other. *)
Lemma repulse_coincident scaling i j nodes :
  x (nodes !!! j) = x (nodes !!! i) → y (nodes !!! j) = y (nodes !!! i) →
  repulse scaling i j nodes = nodes.
Proof.
  intros Hx Hy. unfold repulse. rewrite Hx, Hy.
  set (dist := repulsion_dist _ _).
  set (force := scaling * _ * _ / dist).
  replace ((x (nodes !!! i) - x (nodes !!! i)) / dist * force) with 0
    by (unfold Rdiv; ring).
  replace ((y (nodes !!! i) - y (nodes !!! i)) / dist * force) with 0
    by (unfold Rdiv; ring).
  rewrite (list_alter_id _ _ _ sub_force_zero).
  by rewrite (list_alter_id _ _ _ add_force_zero).
Qed.

(** ** Three nodes in a row *)

Lemma separation_aligned (nodes : list FA2Node) i j :
  y (nodes !!! j) = y (nodes !!! i) → x (nodes !!! i) <= x (nodes !!! j) →
  separation nodes i j = x (nodes !!! j) - x (nodes !!! i).
Proof.
  intros Hy Hx. unfold separation. rewrite Hy.
  replace ((y (nodes !!! i) - y (nodes !!! i)) * (y (nodes !!! i) - y (nodes !!! i)))
    with 0 by ring.
  rewrite Rplus_0_r. apply sqrt_square. lra.
Qed.

(** A node placed at abscissa [a] on the line [y = 100]. *)
Definition on_row (a : R) : FA2Node := mkFA2Node a 100 0 0 0 0 1 1.

(** The pair step on two nodes of the row, [a] to the left of [b]. *)
Lemma separate_on_row (nodes : list FA2Node) i j a b :
  nodes !! i = Some (on_row a) → nodes !! j = Some (on_row b) → i ≠ j →
  a <= b →
  separate i j nodes =
  if Rlt_dec (b - a) minSeparation then
    if Rlt_dec 0.01 (b - a) then
      <[j := on_row (b + (minSeparation - (b - a)) / 2)]>
        (<[i := on_row (a - (minSeparation - (b - a)) / 2)]> nodes)
    else nodes
  else nodes.
Proof.
  intros Hi Hj Hne Hab. rewrite separate_unfold. cbv zeta.
  rewrite (list_lookup_total_correct _ _ _ Hi), (list_lookup_total_correct _ _ _ Hj).
  rewrite separation_aligned;
    rewrite ?(list_lookup_total_correct _ _ _ Hi), ?(list_lookup_total_correct _ _ _ Hj);
    [|done|done].
  simpl. destruct (Rlt_dec (b - a) minSeparation); [|done].
  destruct (Rlt_dec 0.01 (b - a)); [|done].
  replace ((minSeparation - (b - a)) * 0.5) with ((minSeparation - (b - a)) / 2) by lra.
  assert (b - a ≠ 0) as Hba by lra.
  apply list_eq. intros k.
  destruct (decide (k = j)) as [->|Hkj].
  - rewrite list_lookup_alter_eq, list_lookup_alter_ne, Hj by done.
    rewrite list_lookup_insert_eq
      by (rewrite length_insert; by eapply lookup_lt_Some).
    simpl. f_equal. unfold set_pos, on_row. simpl. f_equal; by field.
  - rewrite list_lookup_alter_ne, list_lookup_insert_ne by done.
    destruct (decide (k = i)) as [->|Hki].
    + rewrite list_lookup_alter_eq, Hi.
      rewrite list_lookup_insert_eq by (by eapply lookup_lt_Some).
      simpl. f_equal. unfold set_pos, on_row. simpl. f_equal; by field.
    + by rewrite list_lookup_alter_ne, list_lookup_insert_ne.
Qed.

Lemma overlap_correction_three nodes :
  length nodes = 3%nat →
  overlap_correction nodes = separate 1 2 (separate 0 2 (separate 0 1 nodes)).
Proof. intros Hlen. unfold overlap_correction. by rewrite Hlen. Qed.

(** Three nodes 60 apart: correcting the second pair undoes part of the
    correction of the first. *)
Lemma overlap_correction_row :
  overlap_correction [on_row 100; on_row 160; on_row 220] =
  [on_row 97.5; on_row 158.75; on_row 223.75].
Proof.
  rewrite overlap_correction_three by done.
  assert (separate 0 1 [on_row 100; on_row 160; on_row 220] =
          [on_row 97.5; on_row 162.5; on_row 220]) as ->.
  { rewrite (separate_on_row _ 0 1 100 160) by (done || lra).
    unfold minSeparation.
    destruct (Rlt_dec (160 - 100) 65); [|lra].
    destruct (Rlt_dec 0.01 (160 - 100)); [|lra].
    simpl. repeat f_equal; lra. }
  assert (separate 0 2 [on_row 97.5; on_row 162.5; on_row 220] =
          [on_row 97.5; on_row 162.5; on_row 220]) as ->.
  { rewrite (separate_on_row _ 0 2 97.5 220) by (done || lra).
    unfold minSeparation.
    destruct (Rlt_dec (220 - 97.5) 65); [lra|done]. }
  rewrite (separate_on_row _ 1 2 162.5 220) by (done || lra).
  unfold minSeparation.
  destruct (Rlt_dec (220 - 162.5) 65); [|lra].
  destruct (Rlt_dec 0.01 (220 - 162.5)); [|lra].
  simpl. repeat f_equal; lra.
Qed.

(** C3 as stated fails for two nodes at the same place: they are closer
    than 65 after the displacement phase, the overlap correction skips a
    pair at distance at most 0.01, and they leave it at distance 0; the
    whole call on two such nodes at the centre leaves them coincident.  It
    also fails for three nodes in a row, 60 apart: the first pair is set
    65 apart, and the step of the second pair brings it back to 61.25. *)
Lemma overlap_correction_not_exact :
  let nodes := createFA2Nodes [(500, 300); (500, 300)] [0; 0] in
  let row := [on_row 100; on_row 160; on_row 220] in
  separation nodes 0 1 < minSeparation ∧
  overlap_correction nodes = nodes ∧
  separation (overlap_correction nodes) 0 1 = 0 ∧
  separation (overlap_correction nodes) 0 1 ≠ minSeparation ∧
  (∃ a b,
     fa2Iterate ln Rpower nodes [] no_overrides 0 300 = Some [a; b] ∧
     x a = 500 ∧ x b = 500 ∧ y a = 300 ∧ y b = 300) ∧
  separation row 0 1 = 60 ∧
  separation (overlap_correction row) 0 1 = 61.25 ∧
  separation (overlap_correction row) 0 1 ≠ minSeparation.
Proof.
  intros nodes row.
  assert (separation nodes 0 1 = 0) as Hsep.
  { unfold separation. simpl. apply sqrt_zero_products; lra. }
  assert (overlap_correction nodes = nodes) as Hsame.
  { rewrite overlap_correction_two by done. rewrite separate_unfold. cbv zeta.
    rewrite Hsep. destruct (Rlt_dec 0 minSeparation); [|done].
    destruct (Rlt_dec 0.01 0); [lra|done]. }
  assert (separation row 0 1 = 60) as Hrow
    by (rewrite separation_aligned; simpl; lra).
  assert (separation (overlap_correction row) 0 1 = 61.25) as Hrow'
    by (unfold row; rewrite overlap_correction_row, separation_aligned; simpl; lra).
  split; [rewrite Hsep; unfold minSeparation; lra|].
  split; [done|]. rewrite Hsame. split; [done|].
  split; [rewrite Hsep; unfold minSeparation; lra|].
  split; [|split; [done|split; [done|rewrite Hrow'; unfold minSeparation; lra]]].
  exists (mkFA2Node 500 300 0 0 0 0 (0 + 1) 0), (mkFA2Node 500 300 0 0 0 0 (0 + 1) 0).
  split; [|done].
  rewrite fa2Iterate_no_edges, phaseMultiplier_start. cbv zeta.
  assert (nodes = [mkFA2Node 500 300 0 0 0 0 (0 + 1) 1;
                   mkFA2Node 500 300 0 0 0 0 (0 + 1) 1]) as -> by done.
  cbn [fmap list_fmap].
  set (nd0 := reset_node _).
  assert (repulsion (scalingRatio (merge_config no_overrides) * 2) [nd0; nd0]
          = [nd0; nd0]) as ->.
  { unfold repulsion, for_range. simpl. by rewrite repulse_coincident. }
  cbn [fmap list_fmap]. rewrite !gravity_node_center by done.
  destruct (move_unfold (merge_config no_overrides) [nd0; nd0]) as [speed ->].
  cbn [fmap list_fmap]. rewrite !node_convergence_rest by done.
  rewrite !displace_node_still by done.
  set (nd := set_convergence 0 nd0).
  assert (overlap_correction [nd; nd] = [nd; nd]) as ->.
  { rewrite overlap_correction_two by done. rewrite separate_unfold. cbv zeta.
    assert (separation [nd; nd] 0 1 = 0) as ->
      by (unfold separation; simpl; apply sqrt_zero_products; lra).
    destruct (Rlt_dec 0 minSeparation); [|done].
    destruct (Rlt_dec 0.01 0); [lra|done]. }
  cbn [fmap list_fmap].
  rewrite bound_node_inside; [done| |]; unfold margin, maxX, maxY; simpl; lra.
Qed.

End FA2Facts.

(* ===================================================================== *)
(** * Further properties of graph-algorithms.ts *)
(* ===================================================================== *)
Module GraphMore.
Import GraphAlgorithms GraphFacts.
Local Open Scope Q_scope.

(** ** buildSymmetricAdjacency *)

(** X1.  The result of [buildSymmetricAdjacency] is an [n] by [n] matrix,
    [n] the number of codes.  For indices [i < j], both [adj[i][j]] and
    [adj[j][i]] hold [max(forward, backward)] when the code at [i] has a
    row in the mapping, and 0 when it has none. *)
Theorem buildSymmetricAdjacency_entries
    (matrix : gmap string (gmap string Q)) (countries : list string) (i j : nat) :
  (i < j < length countries)%nat →
  let adj := buildSymmetricAdjacency matrix countries in
  let ci := countries !!! i in
  let cj := countries !!! j in
  let w := match matrix !! ci with
           | None => 0
           | Some _ => Qmax (directed_weight matrix ci cj) (directed_weight matrix cj ci)
           end in
  is_square (length countries) adj ∧
  entry adj i j = Some w ∧ entry adj j i = Some w.
Proof.
  intros Hij adj ci cj w. split; [apply buildSymmetricAdjacency_square|].
  unfold adj. rewrite !buildSymmetricAdjacency_entry by lia.
  rewrite !decide_False by lia.
  replace (j `min` i)%nat with i by lia. replace (j `max` i)%nat with j by lia.
  replace (i `min` j)%nat with i by lia. replace (i `max` j)%nat with j by lia.
  done.
Qed.

Local Open Scope string_scope.

Lemma buildSymmetricAdjacency_entries_witness :
  let matrix : gmap string (gmap string Q) :=
    {[ "A" := {[ "B" := 5 # 10 ]}; "B" := {[ "A" := 2 # 10 ]} ]} in
  let adj := buildSymmetricAdjacency matrix ["A"; "B"; "C"] in
  is_square 3 adj ∧ entry adj 0 1 = Some (5 # 10) ∧ entry adj 1 0 = Some (5 # 10).
Proof.
  exact (buildSymmetricAdjacency_entries
           {[ "A" := {[ "B" := 5 # 10 ]}; "B" := {[ "A" := 2 # 10 ]} ]}
           ["A"; "B"; "C"] 0 1 ltac:(simpl; lia)).
Defined.

Local Close Scope string_scope.

(** Every weight of the mapping is non-negative. *)
Definition nonneg_matrix (matrix : gmap string (gmap string Q)) : Prop :=
  ∀ a b row w, matrix !! a = Some row → row !! b = Some w → 0 <= w.

Lemma directed_weight_nonneg matrix a b :
  nonneg_matrix matrix → 0 <= directed_weight matrix a b.
Proof.
  intros Hm. unfold directed_weight.
  destruct (matrix !! a) as [row|] eqn:Hrow; simpl; [|apply Qle_refl].
  destruct (row !! b) as [w|] eqn:Hw; simpl; [|apply Qle_refl].
  by eapply Hm.
Qed.

(** X2.  When no weight of the mapping is negative, no entry of the
    matrix built by [buildSymmetricAdjacency] is negative. *)
Theorem buildSymmetricAdjacency_nonneg
    (matrix : gmap string (gmap string Q)) (countries : list string) (i j : nat) :
  nonneg_matrix matrix →
  (i < length countries)%nat → (j < length countries)%nat →
  ∃ w, entry (buildSymmetricAdjacency matrix countries) i j = Some w ∧ 0 <= w.
Proof.
  intros Hm Hi Hj. rewrite buildSymmetricAdjacency_entry by done.
  eexists. split; [done|]. case_decide; [apply Qle_refl|].
  unfold pair_weight. destruct (matrix !! _); [|apply Qle_refl].
  eapply Qle_trans; [|apply Q.le_max_l]. by apply directed_weight_nonneg.
Qed.

Local Open Scope string_scope.

Lemma buildSymmetricAdjacency_nonneg_witness :
  ∃ w, entry (buildSymmetricAdjacency {[ "A" := {[ "B" := 5 # 10 ]} ]} ["A"; "B"]) 0 1
       = Some w ∧ 0 <= w.
Proof.
  apply (buildSymmetricAdjacency_nonneg {[ "A" := {[ "B" := 5 # 10 ]} ]} ["A"; "B"] 0 1).
  - intros a b row w Ha Hb.
    apply lookup_singleton_Some in Ha as [<- <-].
    apply lookup_singleton_Some in Hb as [<- <-]. by vm_compute.
  - simpl. lia.
  - simpl. lia.
Defined.

Local Close Scope string_scope.

(** ** buildEdgeList *)

Section EdgeListMore.
Variable matrix : gmap string (gmap string Q).
Variable countries : list string.
Variable minWeight : Q.
Let n := length countries.

(** [max(forward, backward)] for the codes at [i] and [j]. *)
Definition sym_weight (i j : nat) : Q :=
  Qmax (directed_weight matrix (countries !!! i) (countries !!! j))
       (directed_weight matrix (countries !!! j) (countries !!! i)).

(** The pair is collected: its first code has a row and its symmetric
    weight reaches [minWeight]. *)
Definition kept (p : nat * nat) : bool :=
  bool_decide (is_Some (matrix !! (countries !!! p.1))) &&
  Qle_bool minWeight (sym_weight p.1 p.2).

(** The pairs [i < j] below [n], in the order of the two loops. *)
Definition all_pairs (n : nat) : list (nat * nat) :=
  i ← seq 0 n; (λ j, (i, j)) <$> seq (S i) (n - S i).

Definition raw_of (p : nat * nat) : nat * nat * Q := (p.1, p.2, sym_weight p.1 p.2).

Lemma raw_row_collect row i js acc :
  matrix !! (countries !!! i) = Some row →
  (foldl (λ acc j, raw_step matrix countries minWeight row (countries !!! i) i j acc)
         acc js).1
  = acc.1 ++ (raw_of <$> filter (λ p, kept p = true) ((λ j, (i, j)) <$> js)).
Proof.
  intros Hrow. revert acc. induction js as [|j js IH]; intros acc.
  - simpl. by rewrite app_nil_r.
  - cbn [foldl fmap list_fmap]. rewrite IH. unfold raw_step.
    assert (default 0 (row !! (countries !!! j)) =
            directed_weight matrix (countries !!! i) (countries !!! j)) as ->
      by (unfold directed_weight; by rewrite Hrow).
    fold (sym_weight i j).
    assert (kept (i, j) = Qle_bool minWeight (sym_weight i j)) as Hkept.
    { unfold kept. cbn [fst snd].
      by rewrite bool_decide_eq_true_2 by (by rewrite Hrow). }
    rewrite filter_cons, Hkept.
    destruct (Qle_bool minWeight (sym_weight i j)) eqn:Hle.
    + rewrite decide_True by done. cbn [fst fmap list_fmap].
      by rewrite <- app_assoc.
    + by rewrite decide_False by done.
Qed.

Lemma no_row_none_kept i js :
  matrix !! (countries !!! i) = None →
  filter (λ p, kept p = true) ((λ j, (i, j)) <$> js) = [].
Proof.
  intros Hrow. induction js as [|j js IH]; [done|].
  cbn [fmap list_fmap]. rewrite filter_cons, decide_False; [done|].
  unfold kept. cbn [fst]. rewrite bool_decide_eq_false_2; [done|].
  rewrite Hrow. by intros [? ?].
Qed.

Lemma raw_edges_collect :
  (raw_edges matrix countries minWeight).1
  = raw_of <$> filter (λ p, kept p = true) (all_pairs n).
Proof.
  unfold raw_edges, for_range, all_pairs. fold n. rewrite Nat.sub_0_r.
  change (raw_of <$> filter (λ p, kept p = true)
                       (seq 0 n ≫= λ i, (λ j, (i, j)) <$> seq (S i) (n - S i)))
    with (([] : list (nat * nat * Q), 0).1 ++
          (raw_of <$> filter (λ p, kept p = true)
                       (seq 0 n ≫= λ i, (λ j, (i, j)) <$> seq (S i) (n - S i)))).
  generalize (([] : list (nat * nat * Q)), 0). generalize (seq 0 n).
  intros rows. induction rows as [|i rows IH]; intros acc.
  - simpl. by rewrite app_nil_r.
  - cbn [foldl mbind list_bind]. rewrite IH.
    rewrite filter_app, fmap_app, app_assoc. f_equal.
    destruct (matrix !! (countries !!! i)) as [row|] eqn:Hrow.
    + replace (i + 1)%nat with (S i) by lia. by apply raw_row_collect.
    + rewrite no_row_none_kept by done. simpl. by rewrite app_nil_r.
Qed.

Lemma all_pairs_elem i j : (i, j) ∈ all_pairs n ↔ (i < j < n)%nat.
Proof.
  unfold all_pairs. rewrite list_elem_of_bind. split.
  - intros (i' & Hj & Hi'). apply list_elem_of_fmap in Hj as (j' & [= -> ->] & Hj').
    apply elem_of_seq in Hi', Hj'. lia.
  - intros Hij. exists i. split; [|apply elem_of_seq; lia].
    apply list_elem_of_fmap. exists j. split; [done|]. apply elem_of_seq. lia.
Qed.

Lemma all_pairs_NoDup : NoDup (all_pairs n).
Proof.
  unfold all_pairs. apply NoDup_bind.
  - intros i1 i2 p _ _ H1 H2.
    apply list_elem_of_fmap in H1 as (j1 & -> & _).
    apply list_elem_of_fmap in H2 as (j2 & [= -> _] & _). done.
  - intros i _. apply NoDup_fmap; [|apply NoDup_seq]. by intros j1 j2 [= ->].
  - apply NoDup_seq.
Qed.

Lemma buildEdgeList_pairs :
  (λ e, (source e, target e)) <$> buildEdgeList matrix countries minWeight
  = filter (λ p, kept p = true) (all_pairs n).
Proof.
  rewrite buildEdgeList_unfold, raw_edges_collect, <- !list_fmap_compose.
  rewrite <- (list_fmap_id (filter _ (all_pairs n))) at 2.
  apply list_fmap_ext. by intros k [i j] _.
Qed.

(** Every returned edge comes from a collected pair. *)
Lemma buildEdgeList_elem e :
  e ∈ buildEdgeList matrix countries minWeight →
  (source e < target e < n)%nat ∧
  is_Some (matrix !! (countries !!! source e)) ∧
  weight e = sym_weight (source e) (target e) ∧
  minWeight <= weight e.
Proof.
  rewrite buildEdgeList_unfold, raw_edges_collect.
  intros He. apply list_elem_of_fmap in He as (r & -> & Hr).
  apply list_elem_of_fmap in Hr as ([i j] & -> & Hp).
  apply list_elem_of_filter in Hp as [Hkept Hp].
  apply all_pairs_elem in Hp. unfold kept in Hkept. cbn [fst snd] in *.
  apply andb_true_iff in Hkept as [Hrow Hle].
  apply bool_decide_eq_true in Hrow. apply Qle_bool_iff in Hle. done.
Qed.

End EdgeListMore.

(** X3.  [buildEdgeList] returns each unordered pair at most once, and
    the pair of indices [(i, j)] is returned exactly when [i < j], the
    code at [i] has a row in the mapping and [max(forward, backward)] is
    at least [minWeight]. *)
Theorem buildEdgeList_pairs_exact
    (matrix : gmap string (gmap string Q)) (countries : list string) (minWeight : Q) :
  let pairs := (λ e, (source e, target e)) <$> buildEdgeList matrix countries minWeight in
  NoDup pairs ∧
  ∀ i j, (i, j) ∈ pairs ↔
    (i < j < length countries)%nat ∧
    is_Some (matrix !! (countries !!! i)) ∧
    minWeight <= Qmax (directed_weight matrix (countries !!! i) (countries !!! j))
                      (directed_weight matrix (countries !!! j) (countries !!! i)).
Proof.
  intros pairs. unfold pairs. rewrite buildEdgeList_pairs. split.
  - apply NoDup_filter, all_pairs_NoDup.
  - intros i j. rewrite list_elem_of_filter, all_pairs_elem.
    unfold kept, sym_weight. cbn [fst snd].
    rewrite andb_true_iff, bool_decide_eq_true, Qle_bool_iff. tauto.
Qed.

(** X4.  The weight of every edge returned by [buildEdgeList] is the
    entry of the matrix built by [buildSymmetricAdjacency] from the same
    mapping and codes, at [source][target] and at [target][source]. *)
Theorem buildEdgeList_matches_adjacency
    (matrix : gmap string (gmap string Q)) (countries : list string) (minWeight : Q)
    (e : GraphEdge) :
  e ∈ buildEdgeList matrix countries minWeight →
  let adj := buildSymmetricAdjacency matrix countries in
  entry adj (source e) (target e) = Some (weight e) ∧
  entry adj (target e) (source e) = Some (weight e).
Proof.
  intros He adj. apply buildEdgeList_elem in He as (Hlt & [row Hrow] & Hw & _).
  unfold adj. rewrite !buildSymmetricAdjacency_entry by lia.
  rewrite !decide_False by lia.
  replace (target e `min` source e)%nat with (source e) by lia.
  replace (target e `max` source e)%nat with (target e) by lia.
  replace (source e `min` target e)%nat with (source e) by lia.
  replace (source e `max` target e)%nat with (target e) by lia.
  unfold pair_weight. by rewrite Hrow, Hw.
Qed.

(** X5.  With a positive [minWeight], the pairs returned by
    [buildEdgeList] are exactly the pairs [i < j] whose entry in the
    symmetric adjacency matrix is at least [minWeight]. *)
Theorem buildEdgeList_thresholds_adjacency
    (matrix : gmap string (gmap string Q)) (countries : list string) (minWeight : Q)
    (i j : nat) :
  0 < minWeight →
  (i < j < length countries)%nat →
  (i, j) ∈ ((λ e, (source e, target e)) <$> buildEdgeList matrix countries minWeight)
  ↔ minWeight <= get (buildSymmetricAdjacency matrix countries) i j.
Proof.
  intros Hpos Hij.
  rewrite (entry_get _ i j _ (buildSymmetricAdjacency_entry matrix countries i j
                                ltac:(lia) ltac:(lia))).
  rewrite decide_False by lia.
  replace (i `min` j)%nat with i by lia. replace (i `max` j)%nat with j by lia.
  rewrite buildEdgeList_pairs, list_elem_of_filter, all_pairs_elem.
  unfold kept, sym_weight, pair_weight. cbn [fst snd].
  rewrite andb_true_iff, bool_decide_eq_true, Qle_bool_iff.
  destruct (matrix !! (countries !!! i)) as [row|].
  - split; [tauto|]. intros Hle. split; [|done]. split; [by eexists|done].
  - split.
    + intros [[[? ?] _] _]. done.
    + intros Hle. exfalso. eapply Qlt_irrefl, Qlt_le_trans; eauto.
Qed.

(** X6.  With a non-negative [minWeight], the [normalizedWeight] of every
    edge returned by [buildEdgeList] lies in [[0,1]]. *)
Theorem buildEdgeList_normalized_range
    (matrix : gmap string (gmap string Q)) (countries : list string) (minWeight : Q)
    (e : GraphEdge) :
  0 <= minWeight →
  e ∈ buildEdgeList matrix countries minWeight →
  0 <= normalizedWeight e <= 1.
Proof.
  intros Hmin He.
  assert (0 <= weight e) as Hw.
  { apply buildEdgeList_elem in He as (_ & _ & _ & Hle). by eapply Qle_trans. }
  destruct (raw_edges_inv matrix countries minWeight) as [_ Hmax].
  rewrite <- buildEdgeList_weights in Hmax.
  assert (weight e <= (raw_edges matrix countries minWeight).2) as Hupper.
  { rewrite Hmax. apply running_max_upper, list_elem_of_fmap. eauto. }
  rewrite buildEdgeList_unfold in He.
  apply list_elem_of_fmap in He as (r & -> & _). cbn [normalizedWeight weight] in *.
  destruct (Qlt_bool 0 _) eqn:Hlt.
  - apply Qlt_bool_iff in Hlt. by apply normalized_bounds.
  - split; [apply Qle_refl|by vm_compute].
Qed.

Local Open Scope string_scope.

Lemma buildEdgeList_matches_adjacency_witness :
  let matrix : gmap string (gmap string Q) :=
    {[ "A" := {[ "B" := 5 # 10 ]}; "B" := {[ "A" := 2 # 10 ]} ]} in
  let e := mkGraphEdge 0 1 "A" "B" (5 # 10) ((5 # 10) / (5 # 10)) in
  let adj := buildSymmetricAdjacency matrix ["A"; "B"] in
  entry adj (source e) (target e) = Some (weight e) ∧
  entry adj (target e) (source e) = Some (weight e).
Proof.
  intros matrix e. apply (buildEdgeList_matches_adjacency matrix ["A"; "B"] (5 # 1000) e).
  vm_compute. left.
Defined.

Lemma buildEdgeList_thresholds_adjacency_witness :
  let matrix : gmap string (gmap string Q) :=
    {[ "A" := {[ "B" := 5 # 10 ]}; "B" := {[ "A" := 2 # 10 ]} ]} in
  (0%nat, 1%nat) ∈ ((λ e, (source e, target e)) <$> buildEdgeList matrix ["A"; "B"] (5 # 1000))
  ↔ 5 # 1000 <= get (buildSymmetricAdjacency matrix ["A"; "B"]) 0 1.
Proof.
  exact (buildEdgeList_thresholds_adjacency
           {[ "A" := {[ "B" := 5 # 10 ]}; "B" := {[ "A" := 2 # 10 ]} ]}
           ["A"; "B"] (5 # 1000) 0 1 ltac:(by vm_compute) ltac:(simpl; lia)).
Defined.

Lemma buildEdgeList_normalized_range_witness :
  0 <= (5 # 10) / (5 # 10) <= 1.
Proof.
  exact (buildEdgeList_normalized_range
           {[ "A" := {[ "B" := 5 # 10 ]}; "B" := {[ "A" := 2 # 10 ]} ]}
           ["A"; "B"] (5 # 1000) (mkGraphEdge 0 1 "A" "B" (5 # 10) ((5 # 10) / (5 # 10)))
           ltac:(by vm_compute) ltac:(vm_compute; left)).
Defined.

Local Close Scope string_scope.

(** ** louvainCommunities *)

(** *** Ids in order of first appearance *)

Lemma unique_from_extends (acc l : list nat) :
  ∃ k, foldl (λ acc c, if decide (c ∈ acc) then acc else acc ++ [c]) acc l = acc ++ k.
Proof.
  revert acc. induction l as [|c l IH]; intros acc; simpl.
  - exists []. by rewrite app_nil_r.
  - case_decide; [apply IH|].
    destruct (IH (acc ++ [c])) as [k ->]. exists ([c] ++ k). by rewrite app_assoc.
Qed.

Lemma unique_app l1 l2 : ∃ k, unique (l1 ++ l2) = unique l1 ++ k.
Proof. unfold unique. rewrite foldl_app. apply unique_from_extends. Qed.

Lemma renumber_lookup l i x :
  l !! i = Some x →
  ∃ k, renumber l !! i = Some k ∧ unique l !! k = Some x.
Proof.
  intros Hx. unfold renumber. rewrite list_lookup_fmap, Hx. simpl.
  destruct (renumber_defined l x) as (k & Hk & Hu); [by eapply list_elem_of_lookup_2|].
  exists k. by rewrite Hk.
Qed.

Lemma renumber_lookup_inv l i k :
  renumber l !! i = Some k →
  ∃ x, l !! i = Some x ∧ unique l !! k = Some x.
Proof.
  intros Hk. destruct (l !! i) as [x|] eqn:Hx.
  - destruct (renumber_lookup l i x Hx) as (k' & Hk' & Hu). exists x.
    by replace k with k' by congruence.
  - unfold renumber in Hk. by rewrite list_lookup_fmap, Hx in Hk.
Qed.

Lemma renumber_first_appearance l i c :
  renumber l !! i = Some (S c) → ∃ j, (j < i)%nat ∧ renumber l !! j = Some c.
Proof.
  intros Hi. destruct (renumber_lookup_inv l i _ Hi) as (x & Hx & Hux).
  pose proof (unique_NoDup l) as Hnd.
  destruct (unique_app (take (S i) l) (drop (S i) l)) as [k Hk].
  rewrite take_drop in Hk.
  assert (x ∈ unique (take (S i) l)) as Hxin.
  { apply unique_elem. apply list_elem_of_lookup. exists i.
    rewrite lookup_take_lt by lia. done. }
  apply list_elem_of_lookup in Hxin as [p Hp].
  assert (p = S c) as ->.
  { eapply NoDup_lookup; [exact Hnd| |exact Hux].
    rewrite Hk. by apply lookup_app_l_Some. }
  destruct (lookup_lt_is_Some_2 (unique (take (S i) l)) c) as [y Hy].
  { apply lookup_lt_Some in Hp. lia. }
  assert (unique l !! c = Some y) as Huy by (rewrite Hk; by apply lookup_app_l_Some).
  assert (y ∈ take (S i) l) as Hyin
    by (apply unique_elem; by eapply list_elem_of_lookup_2).
  apply list_elem_of_lookup in Hyin as [j Hj].
  apply lookup_take_Some in Hj as [Hj Hlt].
  assert (j ≠ i).
  { intros ->. assert (x = y) as -> by congruence.
    pose proof (NoDup_lookup _ _ _ _ Hnd Hux Huy). lia. }
  exists j. split; [lia|].
  destruct (renumber_lookup l j y Hj) as (k' & Hk' & Hu').
  rewrite Hk'. f_equal. by eapply NoDup_lookup.
Qed.

Lemma zero_weight_first_appearance n i c :
  ((λ i, i mod 4)%nat <$> seq 0 n) !! i = Some (S c) →
  ∃ j, (j < i)%nat ∧ ((λ i, i mod 4)%nat <$> seq 0 n) !! j = Some c.
Proof.
  rewrite list_lookup_fmap. intros Hi.
  destruct (seq 0 n !! i) as [i'|] eqn:Hseq; [|done].
  apply lookup_seq in Hseq as [-> Hlt].
  change (Some ((0 + i) mod 4)%nat = Some (S c)) in Hi. injection Hi as Hi.
  change (i mod 4 = S c)%nat in Hi.
  assert (i ≠ 0)%nat by (intros ->; done).
  exists (i - 1)%nat. split; [lia|].
  rewrite list_lookup_fmap, lookup_seq_lt by lia.
  change (Some ((0 + (i - 1)) mod 4)%nat = Some c). f_equal. rewrite ?Nat.add_0_l.
  pose proof (Nat.div_mod_eq i 4). pose proof (Nat.mod_upper_bound i 4 ltac:(lia)).
  symmetry. apply (Nat.mod_unique _ _ (i / 4)); lia.
Qed.

(** X7.  [louvainCommunities] numbers the communities in order of first
    appearance: a node carries the id [c + 1] only if an earlier node
    carries the id [c]; in particular the first node carries 0. *)
Theorem louvainCommunities_first_appearance (adj : list (list Q)) (n i c : nat) :
  is_square n adj →
  louvainCommunities adj n !! i = Some (S c) →
  ∃ j, (j < i)%nat ∧ louvainCommunities adj n !! j = Some c.
Proof.
  intros _. unfold louvainCommunities.
  destruct (Qeq_bool (totalWeight adj n) 0).
  - apply zero_weight_first_appearance.
  - apply renumber_first_appearance.
Qed.

Lemma louvainCommunities_first_appearance_witness :
  let adj := [[0; 1; 0; 0]; [1; 0; 0; 0]; [0; 0; 0; 1]; [0; 0; 1; 0]] in
  ∃ j, (j < 2)%nat ∧ louvainCommunities adj 4 !! j = Some 0%nat.
Proof.
  apply (louvainCommunities_first_appearance
           [[0; 1; 0; 0]; [1; 0; 0; 0]; [0; 0; 0; 1]; [0; 0; 1; 0]] 4 2 0).
  - split; [done|]. repeat constructor.
  - by vm_compute.
Defined.

(** *** A node without neighbours *)

Lemma map_set_keys {V : Type} (m : list (nat * V)) k v c :
  c ∈ (map_set m k v).*1 → c ∈ m.*1 ∨ c = k.
Proof.
  induction m as [|[k' v'] m IH]; simpl.
  - intros Hc. apply list_elem_of_singleton in Hc. by right.
  - case_decide as Hk; simpl; rewrite !elem_of_cons.
    + intros [->|Hc]; [by right|by left; right].
    + intros [->|Hc]; [by left; left|]. destruct (IH Hc); [left; by right|by right].
Qed.

(** The keys of [neighborComms] are communities of neighbours. *)
Lemma neighbor_comms_keys adj n community k c :
  c ∈ (neighbor_comms adj n community k).*1 →
  ∃ j, (j < n)%nat ∧ 0 < get adj k j ∧ j ≠ k ∧ c = community !!! j.
Proof.
  unfold neighbor_comms. revert c.
  apply (for_range_inv
           (λ _ (nc : list (nat * Q)),
              ∀ c, c ∈ nc.*1 →
                   ∃ j, (j < n)%nat ∧ 0 < get adj k j ∧ j ≠ k ∧ c = community !!! j));
    [lia| |].
  - intros c Hc. by apply elem_of_nil in Hc.
  - intros j nc Hj Hnc c.
    destruct (Qlt_bool 0 (get adj k j)) eqn:Hpos; simpl; [|apply Hnc].
    destruct (Nat.eqb_spec k j) as [->|Hne]; simpl; [apply Hnc|].
    intros Hc. apply map_set_keys in Hc as [Hc| ->]; [by apply Hnc|].
    exists j. apply Qlt_bool_iff in Hpos. split; [lia|]. done.
Qed.

(** The best community is the current one or a key of [neighborComms]. *)
Lemma best_comm_choice sigmaTot ki m2 currentComm nc :
  (best_comm sigmaTot ki m2 currentComm nc).1 = currentComm ∨
  (best_comm sigmaTot ki m2 currentComm nc).1 ∈ nc.*1.
Proof.
  unfold best_comm.
  change currentComm with ((currentComm, 0).1) at 2.
  generalize (currentComm, 0). induction nc as [|e nc IH]; intros best; simpl.
  - by left.
  - destruct (Qlt_bool best.2 _).
    + destruct (IH (e.1, e.2 - sigmaTot !!! e.1 * ki / m2)) as [->|Hin].
      * right. left.
      * right. by right.
    + destruct (IH best) as [Hb|Hin]; [by left|right; by right].
Qed.

Section Isolated.
Variable adj : list (list Q).
Variable n i : nat.
Hypothesis Hi : (i < n)%nat.
Hypothesis Hrow : ∀ j, (j < n)%nat → j ≠ i → get adj i j <= 0.
Hypothesis Hcol : ∀ j, (j < n)%nat → j ≠ i → get adj j i <= 0.

(** Node [i] is alone in the community [i]. *)
Definition alone (community : list nat) : Prop :=
  length community = n ∧
  community !! i = Some i ∧
  ∀ j, j ≠ i → community !! j ≠ Some i.

Lemma louvain_node_alone degree m2 k st :
  (k < n)%nat → alone (community st) →
  alone (community (louvain_node adj n degree m2 k st)).
Proof.
  intros Hk (Hlen & Hown & Hothers). unfold louvain_node. cbn [community].
  set (nc := neighbor_comms adj n (community st) k).
  set (best := (best_comm _ _ _ _ nc).1).
  assert (if decide (k = i) then best = i else best ≠ i) as Hbest.
  { unfold best.
    destruct (best_comm_choice
                (alter (λ x, x - degree !!! k) (community st !!! k) (sigmaTot st))
                (degree !!! k) m2 (community st !!! k) nc) as [-> |Hin].
    - case_decide as Hki.
      + subst k. by apply list_lookup_total_correct.
      + intros Heq. apply (Hothers k Hki).
        rewrite <- Heq. apply list_lookup_lookup_total_lt. lia.
    - apply neighbor_comms_keys in Hin as (j & Hj & Hpos & Hjk & Hc).
      case_decide as Hki.
      + subst k. exfalso. eapply Qlt_irrefl, Qlt_le_trans; [exact Hpos|].
        by apply Hrow.
      + assert (j ≠ i) as Hji.
        { intros ->. eapply Qlt_irrefl, Qlt_le_trans; [exact Hpos|]. by apply Hcol. }
        rewrite Hc. intros Heq. apply (Hothers j Hji).
        rewrite <- Heq. apply list_lookup_lookup_total_lt. lia. }
  split; [by rewrite length_insert|]. split.
  - destruct (decide (k = i)) as [->|Hki].
    + rewrite Hbest. apply list_lookup_insert_eq. lia.
    + by rewrite list_lookup_insert_ne.
  - intros j Hji. destruct (decide (k = j)) as [->|Hkj].
    + rewrite list_lookup_insert_eq by lia. rewrite decide_False in Hbest by done.
      congruence.
    + rewrite list_lookup_insert_ne by done. by apply Hothers.
Qed.

Lemma louvain_passes_alone degree m2 iters st :
  alone (community st) →
  alone (community (louvain_passes adj n degree m2 iters st)).
Proof.
  revert st. induction iters as [|iters IH]; intros st Hst; simpl; [done|].
  set (st0 := {| community := community st; sigmaIn := sigmaIn st;
                 sigmaTot := sigmaTot st; moved := false |}).
  assert (alone (community (for_range 0 n (louvain_node adj n degree m2) st0))) as Hpass.
  { apply (for_range_inv (λ _ st', alone (community st'))); [lia|done|].
    intros k st' Hk. apply louvain_node_alone. lia. }
  destruct (moved _); [by apply IH|done].
Qed.

Lemma seq_alone : alone (seq 0 n).
Proof.
  split; [by rewrite length_seq|]. split; [by apply lookup_seq_lt|].
  intros j Hji Hj. apply lookup_seq in Hj as [? _]. lia.
Qed.

End Isolated.

Lemma renumber_same l a b k :
  renumber l !! a = Some k → renumber l !! b = Some k → l !! a = l !! b.
Proof.
  intros Ha Hb.
  destruct (renumber_lookup_inv l a k Ha) as (x & -> & Hx).
  destruct (renumber_lookup_inv l b k Hb) as (y & -> & Hy). congruence.
Qed.

(** X8.  When the total weight is not zero, a node without a positive
    weight to or from any other node ends in a community of its own: no
    other node gets its id. *)
Theorem louvainCommunities_isolated (adj : list (list Q)) (n i j : nat) :
  is_square n adj →
  ¬ totalWeight adj n == 0 →
  (i < n)%nat →
  (∀ k, (k < n)%nat → k ≠ i → get adj i k <= 0 ∧ get adj k i <= 0) →
  (j < n)%nat → j ≠ i →
  louvainCommunities adj n !! j ≠ louvainCommunities adj n !! i.
Proof.
  intros _ Hweight Hi Hiso Hj Hji. unfold louvainCommunities.
  destruct (Qeq_bool (totalWeight adj n) 0) eqn:Hzero.
  { by apply Qeq_bool_iff in Hzero. }
  set (st := louvain_passes _ _ _ _ _ _).
  assert (alone n i (community st)) as (Hlen & Hown & Hothers).
  { apply louvain_passes_alone; try done.
    - intros k Hk Hki. by apply Hiso.
    - intros k Hk Hki. by apply Hiso.
    - cbn [community]. by apply seq_alone. }
  destruct (renumber_lookup (community st) i i Hown) as (k & Hk & _).
  rewrite Hk. intros Hjk. apply (Hothers j Hji).
  rewrite <- Hown. by eapply renumber_same.
Qed.

Lemma louvainCommunities_isolated_witness :
  let adj := [[0; 1; 0]; [1; 0; 0]; [0; 0; 0]] in
  louvainCommunities adj 3 !! 0%nat ≠ louvainCommunities adj 3 !! 2%nat.
Proof.
  apply (louvainCommunities_isolated [[0; 1; 0]; [1; 0; 0]; [0; 0; 0]] 3 2 0).
  - split; [done|]. repeat constructor.
  - by vm_compute.
  - lia.
  - intros k Hk Hk2. destruct k as [|[|k]]; [by vm_compute|by vm_compute|lia].
  - lia.
  - lia.
Defined.

(** ** betweennessCentrality *)

Section Unreached.
Variable adj : list (list Q).
Variable n w : nat.
Variable threshold : Q.
Hypothesis Hcol : ∀ v, (v < n)%nat → v ≠ w → get adj v w < threshold.

(** [w] has not been discovered. *)
Definition undiscovered (st : bfs_state) : Prop :=
  (w ∉ stack st) ∧ (w ∉ queue st) ∧ Forall (λ u, u < n)%nat (queue st).

Lemma bfs_edge_undiscovered v w' st :
  (v < n)%nat → v ≠ w → (w' < n)%nat →
  w ∉ queue st → w ∉ queue (bfs_edge adj threshold v w' st).
Proof.
  intros Hv Hvw Hw' Hq. unfold bfs_edge.
  destruct (decide (w' = w)) as [->|Hne].
  - apply Hcol in Hvw; [|done]. apply Qlt_bool_iff in Hvw. by rewrite Hvw.
  - destruct (_ || _); [done|].
    assert (w ∉ queue st ++ [w']) as Hq'.
    { rewrite elem_of_app, list_elem_of_singleton. intros [?|?]; [done|congruence]. }
    destruct (_ <? _)%Z; simpl; by destruct (_ =? _)%Z.
Qed.

Lemma bfs_undiscovered fuel st st' :
  bfs adj n threshold fuel st = Some st' → undiscovered st → undiscovered st'.
Proof.
  revert st. induction fuel as [|fuel IH]; intros st; simpl.
  - destruct (queue st); [|done]. by intros [= <-].
  - destruct (queue st) as [|v q] eqn:Hq; [by intros [= <-]|].
    intros Hbfs (Hstack & Hqueue & Hbound). rewrite Hq in Hqueue, Hbound.
    apply Forall_cons in Hbound as [Hv Hbound].
    apply not_elem_of_cons in Hqueue as [Hwv Hqueue].
    apply (IH _ Hbfs).
    set (st0 := {| stack := stack st ++ [v]; predecessors := predecessors st;
                   sigma := sigma st; dist := dist st; queue := q |}).
    apply (for_range_inv (λ _ st1, undiscovered st1)); [lia| |].
    + split; [|done]. simpl. rewrite elem_of_app, list_elem_of_singleton.
      intros [?|?]; [done|congruence].
    + intros w' st1 Hw' (Hs1 & Hq1 & Hb1). split; [by rewrite bfs_edge_stack|].
      split.
      * apply bfs_edge_undiscovered; [done|congruence|lia|done].
      * apply bfs_edge_queue_bounded; [lia|done].
Qed.

(** The back-propagation leaves the score of a node alone unless the node
    is on the stack and is not the source. *)
Lemma back_propagation_untouched s preds sigma ws acc :
  (w ∈ ws → w = s) →
  (foldl (back_step s preds sigma) acc ws).1 !! w = acc.1 !! w.
Proof.
  revert acc. induction ws as [|w' ws IH]; intros acc Hw; [done|].
  simpl. rewrite IH by (intros Hin; apply Hw; by right).
  unfold back_step. cbn [fst]. case_decide as Hs; [done|].
  rewrite list_lookup_alter_ne; [done|]. intros ->. apply Hs, Hw. left.
Qed.

Lemma brandes_source_untouched s bc bc' :
  (s < n)%nat →
  brandes_source adj n threshold s bc = Some bc' → bc' !! w = bc !! w.
Proof.
  intros Hs. unfold brandes_source.
  destruct (bfs adj n threshold n _) as [st|] eqn:Hbfs; [|done].
  simpl. intros [= <-]. apply back_propagation_untouched.
  destruct (decide (w = s)) as [->|Hws]; [done|].
  intros Hin. exfalso. rewrite elem_of_reverse in Hin.
  apply bfs_undiscovered in Hbfs as (Hstack & _); [by apply Hstack|].
  split; [apply not_elem_of_nil|]. simpl. split.
  - apply not_elem_of_cons. split; [done|apply not_elem_of_nil].
  - by apply Forall_singleton.
Qed.

Lemma brandes_raw_untouched bc :
  (w < n)%nat → brandes_raw adj n threshold = Some bc → bc !! w = Some 0.
Proof.
  intros Hw. unfold brandes_raw.
  set (P := λ (_ : nat) (r : option (list Q)), ∀ bc, r = Some bc → bc !! w = Some 0).
  revert bc. change (P n (for_range 0 n
                            (λ s bc, bc ≫= brandes_source adj n threshold s)
                            (Some (replicate n 0)))).
  apply for_range_inv; [lia| |].
  - intros bc [= <-]. by apply lookup_replicate_2.
  - intros s r Hs Hr bc. destruct r as [bc0|]; [|done]. simpl.
    intros Hsrc. rewrite (brandes_source_untouched s bc0 bc); [by apply Hr|lia|done].
Qed.

End Unreached.

(** X9.  A node that no other node reaches by an edge at or above the
    threshold has betweenness centrality 0. *)
Theorem betweennessCentrality_unreached
    (adj : list (list Q)) (n w : nat) (threshold : Q) :
  is_square n adj →
  (w < n)%nat →
  (∀ v, (v < n)%nat → v ≠ w → get adj v w < threshold) →
  ∃ result c,
    betweennessCentrality adj n threshold = Some result ∧
    result !! w = Some c ∧ c == 0.
Proof.
  intros _ Hw Hcol.
  destruct (brandes_raw_nonneg n adj threshold) as (bc & Hraw & _ & _).
  pose proof (brandes_raw_untouched adj n w threshold Hcol bc Hw Hraw) as Hbc.
  unfold betweennessCentrality. rewrite Hraw. simpl.
  eexists _, _. split; [done|]. rewrite list_lookup_fmap, Hbc. simpl.
  split; [done|]. unfold Qdiv. apply Qmult_0_l.
Qed.

Lemma betweennessCentrality_unreached_witness :
  ∃ result c,
    betweennessCentrality [[0; 1; 0]; [1; 0; 0]; [0; 0; 0]] 3 (5 # 1000) = Some result ∧
    result !! 2%nat = Some c ∧ c == 0.
Proof.
  apply (betweennessCentrality_unreached [[0; 1; 0]; [1; 0; 0]; [0; 0; 0]] 3 2 (5 # 1000)).
  - split; [done|]. repeat constructor.
  - lia.
  - intros v Hv Hv2. destruct v as [|[|v]]; [by vm_compute|by vm_compute|lia].
Defined.

End GraphMore.

(* ===================================================================== *)
(** * Further properties of force-atlas2.ts *)
(* ===================================================================== *)
Module FA2More.
Import ForceAtlas2 FA2Facts.
Local Open Scope R_scope.

(** ** Edges outside the node array *)

Section Throws.
Variable Math_log : R → R.
Variable Math_pow : R → R → R.

Lemma attract_in_range cfg nodes edge nodes' :
  attract Math_log Math_pow cfg nodes edge = Some nodes' →
  edge_in_range (length nodes) edge.
Proof.
  unfold attract. intros Hsome.
  destruct (nodes !! source edge) as [s|] eqn:Hs; [|done].
  destruct (nodes !! target edge) as [t|] eqn:Ht; [|done].
  split; by eapply lookup_lt_Some.
Qed.

Lemma attraction_in_range cfg edges nodes nodes' :
  attraction Math_log Math_pow cfg edges nodes = Some nodes' →
  Forall (edge_in_range (length nodes)) edges.
Proof.
  unfold attraction. revert nodes.
  induction edges as [|edge edges IH]; intros nodes Hsome; [done|].
  simpl in Hsome.
  destruct (attract Math_log Math_pow cfg nodes edge) as [nodes1|] eqn:Hnodes1.
  - apply Forall_cons. split; [by eapply attract_in_range|].
    destruct (attract_previous _ _ _ _ _ _ Hnodes1) as [_ <-]. by apply IH.
  - exfalso. clear IH. induction edges as [|e es IHes]; [done|]. by apply IHes.
Qed.

(** X10.  [fa2Iterate] returns exactly when the source and the target of
    every edge are indices of the node array; otherwise reading the
    missing node throws. *)
Theorem fa2Iterate_returns_iff
    (nodes : list FA2Node) (edges : list FA2Edge) (config : PartialConfig)
    (frame totalFrames : R) :
  is_Some (fa2Iterate Math_log Math_pow nodes edges config frame totalFrames)
  ↔ Forall (edge_in_range (length nodes)) edges.
Proof.
  unfold fa2Iterate.
  set (cfg := merge_config config). set (pm := phaseMultiplier frame totalFrames).
  split.
  - intros [nodes' Hsome]. unfold forces in Hsome.
    destruct (attraction _ _ _ _ _) as [nodes3|] eqn:Hnodes3; [|done].
    apply attraction_in_range in Hnodes3.
    destruct (repulsion_previous (scalingRatio cfg * pm) (for_each_node reset_node nodes))
      as [_ Hlen].
    by rewrite Hlen, for_each_node_fmap, length_fmap in Hnodes3.
  - intros Hedges.
    destruct (forces_total Math_log Math_pow cfg pm nodes edges Hedges) as [nodes4 ->].
    by eexists.
Qed.

(** X11.  A call of [fa2Iterate] changes neither the number of nodes nor
    the mass of any node. *)
Theorem fa2Iterate_keeps_mass
    (nodes nodes' : list FA2Node) (edges : list FA2Edge) (config : PartialConfig)
    (frame totalFrames : R) :
  fa2Iterate Math_log Math_pow nodes edges config frame totalFrames = Some nodes' →
  mass <$> nodes' = mass <$> nodes.
Proof.
  unfold fa2Iterate. intros Hsome.
  destruct (forces _ _ _ _ _ _) as [nodes4|] eqn:Hnodes4; [|done].
  simpl in Hsome. injection Hsome as <-.
  destruct (forces_previous _ _ _ _ _ _ _ Hnodes4) as [Hprev _].
  pose proof (move_dynamics (merge_config config) nodes4) as Hdyn.
  apply (f_equal (fmap (λ d : R * R * R * R * R * R, d.1.2))) in Hdyn.
  apply (f_equal (fmap (λ p : R * R * R, p.2))) in Hprev.
  rewrite <- !list_fmap_compose in Hdyn. rewrite <- !list_fmap_compose in Hprev.
  etrans; [apply Hdyn|]. etrans; [|apply Hprev]. by apply list_fmap_ext.
Qed.

End Throws.

Lemma fa2Iterate_keeps_mass_witness :
  ∃ nodes',
    fa2Iterate ln Rpower (createFA2Nodes [(500, 300)] [0]) [] no_overrides 0 300
      = Some nodes' ∧
    mass <$> nodes' = mass <$> createFA2Nodes [(500, 300)] [0].
Proof.
  eexists. split; [apply fa2Iterate_no_edges|].
  apply (fa2Iterate_keeps_mass ln Rpower _ _ [] no_overrides 0 300).
  apply fa2Iterate_no_edges.
Defined.

(** ** Forces between nodes cancel *)

(** Sum of a list of numbers. *)
Definition total (l : list R) : R := foldr Rplus 0 l.

Lemma total_app l1 l2 : total (l1 ++ l2) = total l1 + total l2.
Proof. induction l1 as [|a l1 IH]; simpl; [lra|]. rewrite IH. lra. Qed.

Lemma total_alter (g : FA2Node → R) (f : FA2Node → FA2Node) (i : nat)
    (l : list FA2Node) (nd : FA2Node) :
  l !! i = Some nd →
  total (g <$> alter f i l) = total (g <$> l) + (g (f nd) - g nd).
Proof.
  intros Hi. rewrite <- (take_drop_middle l i nd Hi) at 2.
  assert (alter f i l = take i l ++ f nd :: drop (S i) l) as ->.
  { apply list_eq. intros k. rewrite list_lookup_alter.
    pose proof (lookup_lt_Some _ _ _ Hi) as Hlt.
    destruct (decide (i = k)) as [<-|Hne].
    - rewrite Hi. rewrite lookup_app_r by (rewrite length_take; lia).
      rewrite length_take. by replace (i - i `min` length l)%nat with 0%nat by lia.
    - rewrite <- (take_drop_middle l i nd Hi) at 1.
      destruct (decide (k < i)%nat).
      + by rewrite !lookup_app_l by (rewrite length_take; lia).
      + rewrite !lookup_app_r by (rewrite length_take; lia).
        rewrite length_take.
        replace (k - i `min` length l)%nat with (S (k - S i)) by lia. done. }
  rewrite !fmap_app, !total_app. simpl. lra.
Qed.

(** Opposite changes at two indices leave the sum alone. *)
Lemma total_alter_pair (g : FA2Node → R) (f1 f2 : FA2Node → FA2Node) (u : R)
    (i j : nat) (l : list FA2Node) :
  (i < length l)%nat → (j < length l)%nat →
  (∀ nd, g (f1 nd) = g nd + u) → (∀ nd, g (f2 nd) = g nd - u) →
  total (g <$> alter f2 j (alter f1 i l)) = total (g <$> l).
Proof.
  intros Hi Hj Hf1 Hf2.
  destruct (lookup_lt_is_Some_2 l i Hi) as [ni Hni].
  destruct (lookup_lt_is_Some_2 (alter f1 i l) j) as [nj Hnj];
    [by rewrite length_alter|].
  rewrite (total_alter g f2 j _ nj Hnj), (total_alter g f1 i l ni Hni).
  rewrite Hf1, Hf2. lra.
Qed.



Section Balance.
Variable Math_log : R → R.
Variable Math_pow : R → R → R.





End Balance.


(** ** Overlap correction keeps the centroid *)

Lemma separate_total i j nodes :
  (i < length nodes)%nat → (j < length nodes)%nat →
  total (x <$> separate i j nodes) = total (x <$> nodes) ∧
  total (y <$> separate i j nodes) = total (y <$> nodes) ∧
  length (separate i j nodes) = length nodes.
Proof.
  intros Hi Hj. rewrite separate_unfold. cbv zeta.
  destruct (Rlt_dec _ _); [|done]. destruct (Rlt_dec _ _); [|done].
  set (ux := _ / _ * _). set (uy := _ / _ * _). split; [|split].
  - apply (total_alter_pair x (λ nd, set_pos (x nd - ux) (y nd - uy) nd)
             (λ nd, set_pos (x nd + ux) (y nd + uy) nd) (- ux));
      [done|done| |]; intros nd; simpl; lra.
  - apply (total_alter_pair y (λ nd, set_pos (x nd - ux) (y nd - uy) nd)
             (λ nd, set_pos (x nd + ux) (y nd + uy) nd) (- uy));
      [done|done| |]; intros nd; simpl; lra.
  - by rewrite !length_alter.
Qed.

(** X13.  The overlap correction moves the two nodes of a pair by opposite
    vectors, so it changes neither the sum of the [x] coordinates nor the
    sum of the [y] coordinates of the nodes: the centroid stays in place. *)
Theorem overlap_correction_centroid (nodes : list FA2Node) :
  total (x <$> overlap_correction nodes) = total (x <$> nodes) ∧
  total (y <$> overlap_correction nodes) = total (y <$> nodes) ∧
  length (overlap_correction nodes) = length nodes.
Proof.
  unfold overlap_correction.
  pose proof (pairs_loop_inv
    (λ nodes', total (x <$> nodes') = total (x <$> nodes) ∧
               total (y <$> nodes') = total (y <$> nodes) ∧
               length nodes' = length nodes)
    (length nodes) separate nodes) as H.
  apply H; [done|].
  intros i j nodes' Hij (Hx & Hy & Hlen).
  destruct (separate_total i j nodes') as (Hx' & Hy' & Hlen'); [lia|lia|].
  split; [|split]; congruence.
Qed.

(** ** Phase multiplier *)

(** X14.  While the frame counter has not passed [totalFrames], the phase
    multiplier stays between 0.3 and 2: it is 2 during the first fifth,
    1 up to 67%, and then falls linearly to 0.3 at the last frame. *)
Theorem phaseMultiplier_range (frame totalFrames : R) :
  0 < totalFrames → frame <= totalFrames →
  0.3 <= phaseMultiplier frame totalFrames <= 2 ∧
  (frame < 0.2 * totalFrames → phaseMultiplier frame totalFrames = 2) ∧
  (0.2 * totalFrames <= frame < 0.67 * totalFrames →
   phaseMultiplier frame totalFrames = 1) ∧
  (0.67 * totalFrames <= frame → phaseMultiplier frame totalFrames <= 1) ∧
  phaseMultiplier totalFrames totalFrames = 0.3.
Proof.
  intros Htotal Hhi.
  assert (∀ f c, f / totalFrames < c ↔ f < c * totalFrames) as Hdiv.
  { intros f c. split; intros H.
    - apply (Rmult_lt_compat_r totalFrames) in H; [|done].
      unfold Rdiv in H. rewrite Rmult_assoc, Rinv_l in H by lra. lra.
    - apply (Rmult_lt_reg_r totalFrames); [done|].
      unfold Rdiv. rewrite Rmult_assoc, Rinv_l by lra. lra. }
  assert (frame / totalFrames <= 1) as Hp.
  { apply (Rmult_le_reg_r totalFrames); [done|].
    unfold Rdiv. rewrite Rmult_assoc, Rinv_l by lra. lra. }
  unfold phaseMultiplier. split_and!.
  - destruct (Rlt_dec _ 0.2); [lra|]. destruct (Rlt_dec _ 0.67); lra.
  - destruct (Rlt_dec _ 0.2); [lra|]. destruct (Rlt_dec _ 0.67); lra.
  - intros H. apply Hdiv in H. destruct (Rlt_dec _ 0.2); [done|lra].
  - intros [H1 H2]. apply Hdiv in H2.
    destruct (Rlt_dec _ 0.2) as [H|_]; [apply Hdiv in H; lra|].
    destruct (Rlt_dec _ 0.67); [done|lra].
  - intros H.
    destruct (Rlt_dec _ 0.2) as [H'|_]; [apply Hdiv in H'; lra|].
    destruct (Rlt_dec _ 0.67) as [H'|H']; [lra|]. lra.
  - replace (totalFrames / totalFrames) with 1 by (field; lra).
    destruct (Rlt_dec 1 0.2); [lra|]. destruct (Rlt_dec 1 0.67); lra.
Qed.

Lemma phaseMultiplier_range_witness :
  0.3 <= phaseMultiplier 150 300 <= 2 ∧
  (150 < 0.2 * 300 → phaseMultiplier 150 300 = 2) ∧
  (0.2 * 300 <= 150 < 0.67 * 300 → phaseMultiplier 150 300 = 1) ∧
  (0.67 * 300 <= 150 → phaseMultiplier 150 300 <= 1) ∧
  phaseMultiplier 300 300 = 0.3.
Proof. apply (phaseMultiplier_range 150 300); lra. Defined.

(** ** Soft bounds *)

(** The nearest point of the interval [[lo, hi]]. *)
Definition clamp (lo hi v : R) : R := Rmax lo (Rmin hi v).

(** X15.  The soft bounds leave a node inside the box
    [[60, 940] x [60, 540]] where it is and pull a node outside it back
    toward the box without reaching it: on each axis the overshoot
    beyond the box shrinks to 40%.  Nothing but the position changes. *)
Theorem bound_node_overshoot (nd : FA2Node) :
  x (bound_node nd) - clamp margin maxX (x nd) = 0.4 * (x nd - clamp margin maxX (x nd)) ∧
  y (bound_node nd) - clamp margin maxY (y nd) = 0.4 * (y nd - clamp margin maxY (y nd)) ∧
  dynamics (bound_node nd) = dynamics nd.
Proof.
  unfold bound_node, clamp, margin, maxX, maxY, boundsForce. cbn [x y set_pos].
  split_and!; [| |done].
  - destruct (Rlt_dec (x nd) 60).
    + destruct (Rlt_dec 940 _); [lra|].
      rewrite Rmin_right, Rmax_left by lra. lra.
    + destruct (Rlt_dec 940 (x nd)).
      * rewrite Rmin_left, Rmax_right by lra. lra.
      * rewrite Rmin_right, Rmax_right by lra. lra.
  - destruct (Rlt_dec (y nd) 60).
    + destruct (Rlt_dec 540 _); [lra|].
      rewrite Rmin_right, Rmax_left by lra. lra.
    + destruct (Rlt_dec 540 (y nd)).
      * rewrite Rmin_left, Rmax_right by lra. lra.
      * rewrite Rmin_right, Rmax_right by lra. lra.
Qed.

(** ** Displacement *)

Lemma sqrt_squares_products a b : sqrt (a ^ 2 + b ^ 2) = sqrt (a * a + b * b).
Proof. f_equal. ring. Qed.

(** X16.  With a non-negative speed and speed factor and a positive
    slowing ratio, the displacement phase moves a node along its force
    [(dx, dy)], by a distance of at most 10. *)
Theorem displace_node_limited (cfg : FA2Config) (speed : R) (nd : FA2Node) :
  0 <= speed → 0 <= convergence nd → 0 < slowingRatio cfg →
  let nd' := displace_node cfg speed nd in
  (∃ k, 0 <= k ∧ x nd' = x nd + dx nd * k ∧ y nd' = y nd + dy nd * k) ∧
  sqrt ((x nd' - x nd) * (x nd' - x nd) + (y nd' - y nd) * (y nd' - y nd)) <= 10 ∧
  dynamics nd' = dynamics nd.
Proof.
  intros Hspeed Hconv Hslow nd'. unfold nd', displace_node.
  destruct (Rle_dec _ 0) as [Hzero|Hpos].
  - split_and!; [|by rewrite sqrt_zero_products by lra; lra|done].
    exists 0. split; [lra|]. split; lra.
  - set (D := sqrt (dx nd ^ 2 + dy nd ^ 2)) in *.
    assert (0 < D) as HD by lra.
    set (L := Rmin (speed * convergence nd / slowingRatio cfg * D) 10 / D).
    assert (0 <= speed * convergence nd / slowingRatio cfg) as Hnode.
    { apply Rle_mult_inv_pos; [|done]. by apply Rmult_le_pos. }
    assert (0 <= L) as HL.
    { unfold L. apply Rle_mult_inv_pos; [|done].
      apply Rmin_glb; [|lra]. apply Rmult_le_pos; lra. }
    cbn [x y set_pos]. split_and!; [| |done].
    + exists L. done.
    + replace (x nd + dx nd * L - x nd) with (dx nd * L) by ring.
      replace (y nd + dy nd * L - y nd) with (dy nd * L) by ring.
      rewrite scaled_norm by done. rewrite <- sqrt_squares_products. fold D.
      unfold L. replace (D * (Rmin (speed * convergence nd / slowingRatio cfg * D) 10 / D))
        with (Rmin (speed * convergence nd / slowingRatio cfg * D) 10) by (field; lra).
      apply Rmin_r.
Qed.

Lemma displace_node_limited_witness :
  let nd := mkFA2Node 100 100 30 40 0 0 1 1 in
  let nd' := displace_node DEFAULT_CONFIG 10 nd in
  (∃ k, 0 <= k ∧ x nd' = x nd + dx nd * k ∧ y nd' = y nd + dy nd * k) ∧
  sqrt ((x nd' - x nd) * (x nd' - x nd) + (y nd' - y nd) * (y nd' - y nd)) <= 10 ∧
  dynamics nd' = dynamics nd.
Proof.
  apply (displace_node_limited DEFAULT_CONFIG 10 (mkFA2Node 100 100 30 40 0 0 1 1));
    simpl; lra.
Defined.

(** ** Direction of gravity and repulsion *)

(** X17.  With non-negative gravity, mass and phase multiplier, gravity
    adds to the accumulators of a node a force that points from the node
    to the centre (500, 300), and does not move the node. *)
Theorem gravity_node_toward_centre (cfg : FA2Config) (pm : R) (nd : FA2Node) :
  0 <= gravity cfg → 0 <= mass nd → 0 <= pm →
  let nd' := gravity_node cfg pm nd in
  (∃ k, 0 <= k ∧ dx nd' = dx nd + k * (cx - x nd) ∧ dy nd' = dy nd + k * (cy - y nd)) ∧
  x nd' = x nd ∧ y nd' = y nd ∧ previous nd' = previous nd.
Proof.
  intros Hg Hm Hpm nd'. unfold nd', gravity_node.
  pose proof (floor_dist_pos (x nd - cx) (y nd - cy)) as Hdist.
  fold (gravity_dist nd) in Hdist.
  set (dist := gravity_dist nd) in *.
  set (gravForce := if strongGravity cfg then _ else _).
  assert (0 <= gravForce) as HgF.
  { unfold gravForce. destruct (strongGravity cfg).
    - by apply Rmult_le_pos.
    - apply Rle_mult_inv_pos; [by apply Rmult_le_pos|done]. }
  split_and!; try done.
  exists (gravForce * pm / dist). split.
  - apply Rle_mult_inv_pos; [by apply Rmult_le_pos|done].
  - cbn [dx dy sub_force]. split; field; lra.
Qed.

Lemma gravity_node_toward_centre_witness :
  let nd := mkFA2Node 100 100 0 0 0 0 1 1 in
  let nd' := gravity_node DEFAULT_CONFIG 2 nd in
  (∃ k, 0 <= k ∧ dx nd' = dx nd + k * (cx - x nd) ∧ dy nd' = dy nd + k * (cy - y nd)) ∧
  x nd' = x nd ∧ y nd' = y nd ∧ previous nd' = previous nd.
Proof.
  apply (gravity_node_toward_centre DEFAULT_CONFIG 2 (mkFA2Node 100 100 0 0 0 0 1 1));
    simpl; lra.
Defined.

(** X18.  With a non-negative scaling ratio and non-negative masses, the
    repulsion of a pair adds opposite forces to its two nodes, directed
    along the line through them and pushing them apart; it moves no node
    and leaves the other nodes alone. *)
Theorem repulse_apart (scaling : R) (i j : nat) (nodes : list FA2Node) :
  (i < length nodes)%nat → (j < length nodes)%nat → i ≠ j →
  0 <= scaling → 0 <= mass (nodes !!! i) → 0 <= mass (nodes !!! j) →
  let ni := nodes !!! i in
  let nj := nodes !!! j in
  let nodes' := repulse scaling i j nodes in
  (∃ k, 0 <= k ∧
        dx (nodes' !!! i) = dx ni - k * (x nj - x ni) ∧
        dy (nodes' !!! i) = dy ni - k * (y nj - y ni) ∧
        dx (nodes' !!! j) = dx nj + k * (x nj - x ni) ∧
        dy (nodes' !!! j) = dy nj + k * (y nj - y ni)) ∧
  (λ nd, (x nd, y nd)) <$> nodes' = (λ nd, (x nd, y nd)) <$> nodes ∧
  ∀ k, k ≠ i → k ≠ j → nodes' !! k = nodes !! k.
Proof.
  intros Hi Hj Hne Hs Hmi Hmj ni nj nodes'.
  assert (nodes !! i = Some ni) as Hni by (by apply list_lookup_lookup_total_lt).
  assert (nodes !! j = Some nj) as Hnj by (by apply list_lookup_lookup_total_lt).
  unfold nodes', repulse. fold ni nj.
  pose proof (floor_dist_pos (x nj - x ni) (y nj - y ni)) as Hdist.
  fold (repulsion_dist ni nj) in Hdist.
  set (dist := repulsion_dist ni nj) in *.
  set (force := scaling * mass ni * mass nj / dist).
  assert (0 <= force) as Hforce.
  { unfold force. apply Rle_mult_inv_pos; [|done].
    apply Rmult_le_pos; [by apply Rmult_le_pos|done]. }
  split_and!.
  - exists (force / dist). split; [by apply Rle_mult_inv_pos|].
    rewrite (separate_lookup_i i j nodes ni) by done.
    rewrite (separate_lookup_j i j nodes nj) by done.
    cbn [dx dy add_force sub_force]. split_and!; field; lra.
  - by rewrite !fmap_alter_same.
  - intros k Hki Hkj. by rewrite !list_lookup_alter_ne.
Qed.

Lemma repulse_apart_witness :
  let nodes := createFA2Nodes [(100, 100); (200, 300)] [1; 1] in
  let ni := nodes !!! 0%nat in
  let nj := nodes !!! 1%nat in
  let nodes' := repulse 20 0 1 nodes in
  (∃ k, 0 <= k ∧
        dx (nodes' !!! 0%nat) = dx ni - k * (x nj - x ni) ∧
        dy (nodes' !!! 0%nat) = dy ni - k * (y nj - y ni) ∧
        dx (nodes' !!! 1%nat) = dx nj + k * (x nj - x ni) ∧
        dy (nodes' !!! 1%nat) = dy nj + k * (y nj - y ni)) ∧
  (λ nd, (x nd, y nd)) <$> nodes' = (λ nd, (x nd, y nd)) <$> nodes ∧
  ∀ k, k ≠ 0%nat → k ≠ 1%nat → nodes' !! k = nodes !! k.
Proof.
  apply (repulse_apart 20 0 1 (createFA2Nodes [(100, 100); (200, 300)] [1; 1]));
    simpl; first [lia | lra].
Defined.

(** X19.  When every pair of nodes is at least 65 apart, the overlap
    correction changes nothing. *)
Theorem overlap_correction_separated (nodes : list FA2Node) :
  (∀ i j, (i < j < length nodes)%nat → minSeparation <= separation nodes i j) →
  overlap_correction nodes = nodes.
Proof.
  intros Hsep. unfold overlap_correction.
  apply (pairs_loop_inv (λ nodes', nodes' = nodes)); [done|].
  intros i j nodes' Hij ->. rewrite separate_unfold. cbv zeta.
  destruct (Rlt_dec (separation nodes i j) minSeparation) as [Hlt|_]; [|done].
  specialize (Hsep i j Hij). lra.
Qed.

Lemma overlap_correction_separated_witness :
  overlap_correction (createFA2Nodes [(100, 100); (200, 100)] [0; 0]) =
  createFA2Nodes [(100, 100); (200, 100)] [0; 0].
Proof.
  apply (overlap_correction_separated (createFA2Nodes [(100, 100); (200, 100)] [0; 0])).
  intros i j Hij. simpl in Hij.
  assert (i = 0%nat) as -> by lia. assert (j = 1%nat) as -> by lia.
  rewrite separation_aligned; simpl; unfold minSeparation; lra.
Defined.

End FA2More.

(* ===================================================================== *)
(** * Properties of the graph computation, animation loop and view *)
(* ===================================================================== *)
Module NetworkFacts.
Import NetworkGraph.

(** ** Node degrees *)

(** The edges that start or end at node [i]. *)
Definition incident (i : nat) (edgeList : list GraphAlgorithms.GraphEdge)
    : list GraphAlgorithms.GraphEdge :=
  filter (λ e, GraphAlgorithms.source e = i ∨ GraphAlgorithms.target e = i) edgeList.

Lemma count_degrees_snoc n edgeList edge :
  count_degrees n (edgeList ++ [edge]) =
  alter S (GraphAlgorithms.target edge)
    (alter S (GraphAlgorithms.source edge) (count_degrees n edgeList)).
Proof. unfold count_degrees. by rewrite foldl_app. Qed.

Lemma count_degrees_length n edgeList : length (count_degrees n edgeList) = n.
Proof.
  induction edgeList as [|edge edgeList IH] using rev_ind.
  - apply length_replicate.
  - by rewrite count_degrees_snoc, !length_alter.
Qed.

Lemma sum_list_alter_S (l : list nat) (k : nat) :
  (k < length l)%nat → sum_list (alter S k l) = S (sum_list l).
Proof.
  revert k. induction l as [|a l IH]; intros k Hk; simpl in Hk; [lia|].
  destruct k as [|k]; [done|].
  change (alter S (S k) (a :: l)) with (a :: alter S k l).
  cbn [sum_list sum_list_with]. rewrite (IH k) by lia. lia.
Qed.

Lemma count_degrees_sum n edgeList :
  Forall (λ e, (GraphAlgorithms.source e < n)%nat ∧ (GraphAlgorithms.target e < n)%nat)
         edgeList →
  sum_list (count_degrees n edgeList) = (2 * length edgeList)%nat.
Proof.
  induction edgeList as [|edge edgeList IH] using rev_ind; intros Hrange.
  - unfold count_degrees. cbn [foldl length]. clear Hrange.
    induction n as [|n IHn]; [done|].
    cbn [replicate sum_list sum_list_with]. by rewrite IHn.
  - apply Forall_app in Hrange as [Hrange Hedge].
    rewrite Forall_singleton in Hedge. destruct Hedge as [Hs Ht].
    rewrite count_degrees_snoc.
    rewrite sum_list_alter_S by (by rewrite length_alter, count_degrees_length).
    rewrite sum_list_alter_S by (by rewrite count_degrees_length).
    rewrite IH by done. rewrite length_app. simpl. lia.
Qed.

Lemma count_degrees_incident n edgeList i :
  (i < n)%nat →
  Forall (λ e, GraphAlgorithms.source e ≠ GraphAlgorithms.target e) edgeList →
  count_degrees n edgeList !! i = Some (length (incident i edgeList)).
Proof.
  intros Hi.
  induction edgeList as [|edge edgeList IH] using rev_ind; intros Hloop.
  - unfold count_degrees. simpl. by apply lookup_replicate_2.
  - apply Forall_app in Hloop as [Hloop Hedge].
    rewrite Forall_singleton in Hedge.
    rewrite count_degrees_snoc. unfold incident. rewrite filter_app, length_app.
    fold (incident i edgeList).
    specialize (IH Hloop).
    destruct (decide (GraphAlgorithms.source edge = i)) as [Hs|Hs].
    + rewrite list_lookup_alter_ne by congruence.
      rewrite Hs, list_lookup_alter, IH.
      rewrite filter_cons_True by (by left).
      rewrite filter_nil. simpl. rewrite ?decide_True by done. f_equal. lia.
    + destruct (decide (GraphAlgorithms.target edge = i)) as [Ht|Ht].
      * rewrite Ht, list_lookup_alter, list_lookup_alter_ne, IH by done.
        rewrite filter_cons_True by (by right).
        rewrite filter_nil. simpl. rewrite ?decide_True by done. f_equal. lia.
      * rewrite !list_lookup_alter_ne, IH by done.
        rewrite filter_cons_False by tauto.
        rewrite filter_nil. simpl. rewrite ?decide_True by done. f_equal. lia.
Qed.

Lemma buildEdgeList_in_range matrix countries minWeight :
  Forall (λ e, (GraphAlgorithms.source e < GraphAlgorithms.target e)%nat ∧
               (GraphAlgorithms.target e < length countries)%nat)
         (GraphAlgorithms.buildEdgeList matrix countries minWeight).
Proof.
  apply Forall_forall. intros e He.
  apply GraphMore.buildEdgeList_elem in He. tauto.
Qed.

(** X20.  The degree counted for node [i] from the edge list of
    [buildEdgeList] is the number of returned edges that start or end at
    [i]; the degrees of all nodes add up to twice the number of edges. *)
Theorem count_degrees_edge_list
    (matrix : gmap string (gmap string Q)) (countries : list string) (minWeight : Q)
    (i : nat) :
  (i < length countries)%nat →
  let edgeList := GraphAlgorithms.buildEdgeList matrix countries minWeight in
  let degrees := count_degrees (length countries) edgeList in
  length degrees = length countries ∧
  degrees !! i = Some (length (incident i edgeList)) ∧
  sum_list degrees = (2 * length edgeList)%nat.
Proof.
  intros Hi edgeList degrees.
  pose proof (buildEdgeList_in_range matrix countries minWeight) as Hrange.
  fold edgeList in Hrange.
  split; [apply count_degrees_length|]. split.
  - apply count_degrees_incident; [done|].
    eapply Forall_impl; [exact Hrange|]. simpl. intros e [Hlt _]. lia.
  - apply count_degrees_sum.
    eapply Forall_impl; [exact Hrange|]. simpl. intros e [Hlt Hn]. lia.
Qed.

Lemma count_degrees_edge_list_witness :
  let matrix : gmap string (gmap string Q) :=
    {[ "USA" := {[ "CAN" := 5 # 10 ]}; "CAN" := ∅; "MEX" := {[ "USA" := 2 # 10 ]} ]} in
  let countries := ["USA"; "CAN"; "MEX"] in
  let edgeList := GraphAlgorithms.buildEdgeList matrix countries (5 # 1000) in
  let degrees := count_degrees (length countries) edgeList in
  (0 < length countries)%nat ∧
  length degrees = length countries ∧
  degrees !! 0%nat = Some (length (incident 0 edgeList)) ∧
  sum_list degrees = (2 * length edgeList)%nat.
Proof.
  intros matrix countries. split; [simpl; lia|].
  apply (count_degrees_edge_list matrix countries (5 # 1000) 0). simpl. lia.
Defined.

(** ** The animation loop *)

Section Animation.
Variable Math_log : R → R.
Variable Math_pow : R → R → R.

Lemma fa2Iterate_step nodes edges config frame totalFrames :
  Forall (FA2Facts.edge_in_range (length nodes)) edges →
  ∃ nodes',
    ForceAtlas2.fa2Iterate Math_log Math_pow nodes edges config frame totalFrames
      = Some nodes' ∧
    length nodes' = length nodes ∧
    ForceAtlas2.mass <$> nodes' = ForceAtlas2.mass <$> nodes.
Proof.
  intros Hedges. unfold ForceAtlas2.fa2Iterate.
  set (cfg := ForceAtlas2.merge_config config).
  set (pm := ForceAtlas2.phaseMultiplier frame totalFrames).
  destruct (FA2Facts.forces_total Math_log Math_pow cfg pm nodes edges Hedges)
    as [nodes4 Hnodes4].
  rewrite Hnodes4. eexists. split; [done|].
  destruct (FA2Facts.forces_previous _ _ _ _ _ _ _ Hnodes4) as [Hprev Hlen].
  pose proof (FA2Facts.move_dynamics cfg nodes4) as Hdyn.
  split.
  - apply (f_equal length) in Hdyn. rewrite !length_fmap in Hdyn. congruence.
  - apply (f_equal (fmap (λ d : R * R * R * R * R * R, d.1.2))) in Hdyn.
    apply (f_equal (fmap (λ p : R * R * R, p.2))) in Hprev.
    rewrite <- !list_fmap_compose in Hdyn. rewrite <- !list_fmap_compose in Hprev.
    etrans; [apply Hdyn|]. etrans; [|apply Hprev]. by apply list_fmap_ext.
Qed.

(** No frame is requested any more: the scheduler calls nothing. *)
Lemma run_frames_stopped fa2Edges calls st :
  requested st = false → run_frames Math_log Math_pow fa2Edges calls st = Some st.
Proof. intros Hstop. destruct calls; simpl; [done|]. by rewrite Hstop. Qed.

Lemma run_frames_add fa2Edges a b st :
  run_frames Math_log Math_pow fa2Edges (a + b) st =
  run_frames Math_log Math_pow fa2Edges a st
    ≫= run_frames Math_log Math_pow fa2Edges b.
Proof.
  revert st. induction a as [|a IH]; intros st; [done|].
  cbn [Nat.add run_frames].
  destruct (requested st) eqn:Hreq.
  - destruct (animate Math_log Math_pow fa2Edges st) as [st1|]; [|done].
    simpl. apply IH.
  - simpl. by rewrite run_frames_stopped.
Qed.

(** The state after a frame that is not the last one, and after the last. *)
Definition running (f : nat) (st : anim_state) : Prop :=
  frame st = f ∧ layoutReady st = false ∧ requested st = true.

Definition finished (st : anim_state) : Prop :=
  frame st = TOTAL_FRAMES ∧ layoutReady st = true ∧ requested st = false ∧
  nodePositions st = (λ n, (ForceAtlas2.x n, ForceAtlas2.y n)) <$> nodes st.

Definition same_nodes (n : nat) (masses : list R) (st : anim_state) : Prop :=
  length (nodes st) = n ∧ ForceAtlas2.mass <$> nodes st = masses.

Lemma animate_running fa2Edges n masses f st :
  Forall (FA2Facts.edge_in_range n) fa2Edges →
  (f < TOTAL_FRAMES)%nat → running f st → same_nodes n masses st →
  ∃ st', animate Math_log Math_pow fa2Edges st = Some st' ∧
         same_nodes n masses st' ∧
         if decide (S f = TOTAL_FRAMES) then finished st' else running (S f) st'.
Proof.
  intros Hedges Hf (Hframe & Hready & Hreq) [Hlen Hmass]. unfold animate.
  rewrite Hframe. destruct (Nat.leb_spec TOTAL_FRAMES f) as [Hge|_]; [lia|].
  rewrite <- Hlen in Hedges.
  destruct (fa2Iterate_step (nodes st) fa2Edges LAYOUT_CONFIG (INR f) (INR TOTAL_FRAMES)
              Hedges) as (nodes' & -> & Hlen' & Hmass').
  cbn [mbind option_bind]. eexists. split; [done|]. split.
  - split; cbn [nodes]; congruence.
  - destruct (decide (S f = TOTAL_FRAMES)) as [Hlast|Hmore].
    + destruct (Nat.leb_spec TOTAL_FRAMES (S f)) as [_|Hlt]; [|lia].
      rewrite orb_true_r. by repeat split.
    + destruct (Nat.leb_spec TOTAL_FRAMES (S f)) as [Hge|_]; [lia|].
      by repeat split.
Qed.

Lemma run_frames_running fa2Edges n masses calls : ∀ f st,
  Forall (FA2Facts.edge_in_range n) fa2Edges →
  (f + calls ≤ TOTAL_FRAMES)%nat → (f < TOTAL_FRAMES)%nat →
  running f st → same_nodes n masses st →
  ∃ st', run_frames Math_log Math_pow fa2Edges calls st = Some st' ∧
         same_nodes n masses st' ∧
         if decide (f + calls = TOTAL_FRAMES)%nat then finished st'
         else running (f + calls) st'.
Proof.
  induction calls as [|calls IH]; intros f st Hedges Hcalls Hf Hrun Hsame.
  - exists st. split; [done|]. split; [done|].
    rewrite Nat.add_0_r. by rewrite decide_False by lia.
  - cbn [run_frames]. destruct Hrun as (Hframe & Hready & Hreq). rewrite Hreq.
    destruct (animate_running fa2Edges n masses f st Hedges Hf
                (conj Hframe (conj Hready Hreq)) Hsame)
      as (st1 & -> & Hsame1 & Hst1).
    cbn [mbind option_bind].
    destruct (decide (S f = TOTAL_FRAMES)) as [Hlast|Hmore].
    + assert (calls = 0)%nat as -> by lia. exists st1. split; [done|].
      split; [done|]. by rewrite decide_True by lia.
    + destruct (IH (S f) st1 Hedges ltac:(lia) ltac:(lia) Hst1 Hsame1)
        as (st' & Hst' & Hsame' & Hfin).
      exists st'. split; [done|]. split; [done|].
      by replace (f + S calls)%nat with (S f + calls)%nat by lia.
Qed.

End Animation.

Lemma fa2_edges_in_range matrix countries minWeight :
  Forall (FA2Facts.edge_in_range (length countries))
         (fa2_edges (GraphAlgorithms.buildEdgeList matrix countries minWeight)).
Proof.
  unfold fa2_edges. apply Forall_fmap.
  eapply Forall_impl; [apply buildEdgeList_in_range|].
  intros e [Hlt Hn]. split; simpl; lia.
Qed.

Lemma createFA2Nodes_mass positions (degrees : list nat) :
  length degrees = length positions →
  ForceAtlas2.mass <$> ForceAtlas2.createFA2Nodes positions (INR <$> degrees)
  = (λ d, (INR d + 1)%R) <$> degrees.
Proof.
  intros Hlen. apply list_eq. intros i.
  unfold ForceAtlas2.createFA2Nodes.
  rewrite !list_lookup_fmap, list_lookup_imap.
  destruct (positions !! i) as [pos|] eqn:Hpos.
  - destruct (lookup_lt_is_Some_2 degrees i) as [d Hd].
    { rewrite Hlen. by eapply lookup_lt_Some. }
    simpl. by rewrite list_lookup_fmap, Hd.
  - apply lookup_ge_None in Hpos. rewrite <- Hlen in Hpos.
    apply lookup_ge_None in Hpos. by rewrite Hpos.
Qed.

(** X21.  The layout animation started by the effect never throws and
    stops by itself: after [calls] frames with [calls < 300] the layout
    is not yet ready and another frame is requested; from the 300th frame
    on the frame counter stays at 300, the layout is ready, no frame is
    requested, the published positions are those of the layout nodes,
    there is one node per country, and the mass of node [i] is still its
    degree plus one. *)
Theorem animation_completes
    (Math_log : R → R) (Math_pow : R → R → R)
    (matrix : gmap string (gmap string Q)) (keys : list string)
    (fa2Nodes : list ForceAtlas2.FA2Node) (fa2Edges : list ForceAtlas2.FA2Edge)
    (calls : nat) :
  layout_input matrix keys = Some (fa2Nodes, fa2Edges) →
  let countryList := country_list keys in
  let edgeList := GraphAlgorithms.buildEdgeList matrix countryList (5 # 1000) in
  ∃ st,
    run_frames Math_log Math_pow fa2Edges calls
      (start_state fa2Nodes (init_positions countryList)) = Some st ∧
    length (nodes st) = length countryList ∧
    ForceAtlas2.mass <$> nodes st
      = (λ d, (INR d + 1)%R) <$> count_degrees (length countryList) edgeList ∧
    if decide (calls < TOTAL_FRAMES)%nat
    then frame st = calls ∧ layoutReady st = false ∧ requested st = true
    else frame st = TOTAL_FRAMES ∧ layoutReady st = true ∧ requested st = false ∧
         nodePositions st = (λ n, (ForceAtlas2.x n, ForceAtlas2.y n)) <$> nodes st.
Proof.
  intros Hinput countryList edgeList. unfold layout_input in Hinput.
  fold countryList in Hinput.
  destruct (length countryList =? 0)%nat; [done|].
  fold edgeList in Hinput. injection Hinput as <- <-.
  set (degrees := count_degrees (length countryList) edgeList).
  set (fa2Nodes := ForceAtlas2.createFA2Nodes (init_positions countryList)
                     (INR <$> degrees)).
  set (masses := (λ d, (INR d + 1)%R) <$> degrees).
  set (st0 := start_state fa2Nodes (init_positions countryList)).
  assert (length (init_positions countryList) = length countryList) as Hpos
    by apply length_fmap.
  assert (same_nodes (length countryList) masses st0) as Hsame0.
  { split; cbn [st0 start_state nodes].
    - unfold fa2Nodes, ForceAtlas2.createFA2Nodes. by rewrite length_imap.
    - apply createFA2Nodes_mass. unfold degrees.
      by rewrite count_degrees_length. }
  assert (running 0 st0) as Hrun0 by done.
  pose proof (fa2_edges_in_range matrix countryList (5 # 1000)) as Hedges.
  fold edgeList in Hedges.
  destruct (decide (calls < TOTAL_FRAMES)%nat) as [Hlt|Hge].
  - destruct (run_frames_running Math_log Math_pow (fa2_edges edgeList)
                (length countryList) masses calls 0 st0 Hedges)
      as (st & Hst & [Hlen Hmass] & Hstate);
      [lia|unfold TOTAL_FRAMES; lia|done|done|].
    rewrite decide_False in Hstate by lia.
    destruct Hstate as (Hframe & Hready & Hreq).
    exists st. repeat split; done.
  - replace calls with (TOTAL_FRAMES + (calls - TOTAL_FRAMES))%nat by lia.
    rewrite run_frames_add.
    destruct (run_frames_running Math_log Math_pow (fa2_edges edgeList)
                (length countryList) masses TOTAL_FRAMES 0 st0 Hedges)
      as (st & Hst & [Hlen Hmass] & Hstate);
      [lia|unfold TOTAL_FRAMES; lia|done|done|].
    rewrite decide_True in Hstate by done.
    rewrite Hst. cbn [mbind option_bind].
    destruct Hstate as (Hframe & Hready & Hreq & Hpub).
    rewrite run_frames_stopped by done.
    exists st. repeat split; done.
Qed.

Lemma animation_completes_witness :
  let matrix : gmap string (gmap string Q) :=
    {[ "USA" := {[ "CAN" := 5 # 10 ]}; "CAN" := ∅ ]} in
  let keys := ["USA"; "CAN"] in
  ∃ fa2Nodes fa2Edges st,
    layout_input matrix keys = Some (fa2Nodes, fa2Edges) ∧
    run_frames ln Rpower fa2Edges 300
      (start_state fa2Nodes (init_positions (country_list keys))) = Some st ∧
    frame st = TOTAL_FRAMES ∧ layoutReady st = true ∧ requested st = false.
Proof.
  intros matrix keys.
  assert (∃ input, layout_input matrix keys = Some input) as [[fa2Nodes fa2Edges] Hinput]
    by (by eexists).
  exists fa2Nodes, fa2Edges.
  destruct (animation_completes ln Rpower matrix keys fa2Nodes fa2Edges 300 Hinput)
    as (st & Hst & _ & _ & Hstate).
  exists st. rewrite decide_False in Hstate by (unfold TOTAL_FRAMES; lia).
  tauto.
Defined.

(** ** The view transform *)

Local Open Scope R_scope.

Definition scale_in_range (t : Transform) : Prop := 0.5 <= scale t <= 3.

Lemma view_step_scale t e : scale_in_range t → scale_in_range (view_step t e).
Proof.
  unfold scale_in_range. intros [Hlo Hhi].
  destruct e as [deltaY mouseX mouseY| | | |dragStart clientX clientY]; simpl.
  - split.
    + apply Rmin_glb; [apply Rmax_r|lra].
    + apply Rmin_r.
  - split; [apply Rmin_glb; lra|apply Rmin_r].
  - split; [apply Rmax_r|apply Rmax_lub; lra].
  - lra.
  - done.
Qed.

(** X22.  Whatever the user does with the wheel, the zoom buttons, the
    reset button and by panning, starting from the initial view, the zoom
    factor stays between 0.5 and 3. *)
Theorem view_scale_bounded (events : list view_event) :
  0.5 <= scale (foldl view_step initial_transform events) <= 3.
Proof.
  assert (scale_in_range initial_transform) as Hinit
    by (unfold scale_in_range; simpl; lra).
  revert Hinit. generalize initial_transform as t.
  induction events as [|e events IH]; intros t Ht; [done|].
  simpl. apply IH. by apply view_step_scale.
Qed.

(** X23.  Zooming with the wheel keeps the point of the graph under the
    cursor where it is: the graph coordinates of the cursor position are
    the same before and after, whatever scale the handler captured. *)
Theorem handleWheel_keeps_cursor_point
    (transform prev : Transform) (deltaY mouseX mouseY : R) :
  scale prev ≠ 0 →
  let next := handleWheel transform prev deltaY mouseX mouseY in
  (mouseX - t_x next) / scale next = (mouseX - t_x prev) / scale prev ∧
  (mouseY - t_y next) / scale next = (mouseY - t_y prev) / scale prev.
Proof.
  intros Hprev. unfold handleWheel. cbn [t_x t_y scale].
  set (newScale := Rmin (Rmax _ _) 3).
  assert (0.5 <= newScale) as Hnew by (apply Rmin_glb; [apply Rmax_r|lra]).
  assert (newScale ≠ 0) as Hnz by lra.
  split; field; done.
Qed.

Lemma handleWheel_keeps_cursor_point_witness :
  let prev := mkTransform 10 20 2 in
  let next := handleWheel prev prev (-1) 400 300 in
  scale prev ≠ 0 ∧
  (400 - t_x next) / scale next = (400 - t_x prev) / scale prev ∧
  (300 - t_y next) / scale next = (300 - t_y prev) / scale prev.
Proof.
  intros prev. split; [simpl; lra|].
  apply (handleWheel_keeps_cursor_point prev prev (-1) 400 300). simpl. lra.
Defined.

End NetworkFacts.
